(** * kep_h.py: hierarchical kidney-exchange optimisation

    A shallow embedding of [PoolOptimiser] (src/kep_h/kep_h.py) and the
    properties of its model builder, its lexicographic sequencer and its
    final-rank enumeration loop.

    Conventions of the embedding:
    - Python objects are records of their immutable fields together with an
      object identity ([oid]); the attributes the optimiser assigns at run
      time ([mip_var], [mip_vars]) live in a [Heap] keyed by identity, so
      that a patient shared by several cycles has one accumulator list.
    - Numbers handed to and returned by the solver are exact rationals
      ([Q]); the rounding of IEEE doubles is not modelled.
    - The solver (gurobipy) is not part of the repository: it is a function
      [optimize] from the posted model to a status, an objective value and
      variable values; a theorem that needs more of it says so through
      [solver_sound], [solver_reports_objective] or [solver_complete].
    - [while True] runs on a fuel counter; a run that uses up its fuel ends
      in [OutOfFuel] and still reports the events it produced. *)

From Stdlib Require Import QArith Lqa ZArith List String.
From stdpp Require Import gmap list strings.

Local Open Scope list_scope.

(** ** Numbers *)

Definition Qltb (x y : Q) : bool := negb (Qle_bool y x).

(** ** The pool (kep_h_pool, as far as kep_h.py reads it) *)

(** The identity of a Python object. *)
Abbreviation oid := nat (only parsing).

(** Modelled from the spec: the Patient class of kep_h_pool (not in src/);
    kep_h.py only assigns and reads its mip_vars. *)
Record Patient := { patient_oid : oid }.

(** Modelled from the spec: the paired-donor class of kep_h_pool, with the
    paired_patients list kep_h.py takes the length of. *)
Record Donor := { donor_oid : oid; paired_patients : list Patient }.

(** Modelled from the spec: the Altruist class of kep_h_pool, with the
    nhs_id that names its variable. *)
Record Altruist := { altruist_oid : oid; nhs_id : nat }.

(** Modelled from the spec: a patient-donor pair of kep_h_pool. *)
Record PdPair := { patient : Patient; donor : Donor }.

(** Modelled from the spec: the edge from the initiating altruist of a
    chain. *)
Record AltruistEdge := { altruist : Altruist }.

(** Modelled from the spec: the Chain class of kep_h_pool, with the fields
    kep_h.py reads (index, altruist_edge, pd_pairs). *)
Record Chain := {
  chain_oid : oid;
  chain_index : nat;
  altruist_edge : AltruistEdge;
  chain_pd_pairs : list PdPair
}.

(** Modelled from the spec: the Cycle class of kep_h_pool, with the fields
    kep_h.py reads (index, pd_pairs). *)
Record Cycle := {
  cycle_oid : oid;
  cycle_index : nat;
  cycle_pd_pairs : list PdPair
}.

(** Modelled from the spec: the Pool class of kep_h_pool, with the three
    lists solve reads; find_cycles and find_chains are parameters of
    [__init__]. *)
Record Pool := {
  patients : list Patient;
  paired_donors : list Donor;
  altruists : list Altruist
}.

(** ** Optimality criteria (optimality_criteria, as far as kep_h.py reads it) *)

(** Modelled from the spec: a criterion of optimality_criteria (not in
    src/): a sense, 'MAX' or not, and a value per chain, cycle and
    altruist. *)
Record OptCriterion := {
  sense : string;
  chain_val : Chain -> Q;
  cycle_val : Cycle -> Q;
  altruist_val : Altruist -> Q
}.

(** ** The solver's model (gurobipy, as far as kep_h.py drives it) *)

(** A variable handle is the position of the variable in the model. *)
Abbreviation Var := nat (only parsing).

(** 'chain' + str(index), 'cycle' + str(index), 'altruist' + str(nhs_id);
    every variable is created with vtype=GRB.BINARY. *)
Inductive VarName :=
| chain_name (index : nat)
| cycle_name (index : nat)
| altruist_name (id : nat).

Definition LinExpr := list (Q * Var).

Inductive Relation := LE | GE | EQ.

Record Constr := { lhs : LinExpr; rel : Relation; rhs : Q }.

Inductive ModelSense := MAXIMIZE | MINIMIZE.

Record Model := {
  vars : list VarName;
  constrs : list Constr;
  objective : LinExpr;
  modelSense : ModelSense
}.

(** GRB.status *)
Inductive Status :=
| LOADED | OPTIMAL | INFEASIBLE | INF_OR_UNBD | UNBOUNDED | CUTOFF
| ITERATION_LIMIT | NODE_LIMIT | TIME_LIMIT | SOLUTION_LIMIT
| INTERRUPTED | NUMERIC | SUBOPTIMAL.

Definition Status_eqb (a b : Status) : bool :=
  match a, b with
  | LOADED, LOADED | OPTIMAL, OPTIMAL | INFEASIBLE, INFEASIBLE
  | INF_OR_UNBD, INF_OR_UNBD | UNBOUNDED, UNBOUNDED | CUTOFF, CUTOFF
  | ITERATION_LIMIT, ITERATION_LIMIT | NODE_LIMIT, NODE_LIMIT
  | TIME_LIMIT, TIME_LIMIT | SOLUTION_LIMIT, SOLUTION_LIMIT
  | INTERRUPTED, INTERRUPTED | NUMERIC, NUMERIC
  | SUBOPTIMAL, SUBOPTIMAL => true
  | _, _ => false
  end.

(** What a solve leaves behind: model.status, model.objVal and var.X. *)
Record Solution := { status : Status; objVal : Q; X : Var -> Q }.

(** Model() *)
Definition Model_new : Model :=
  {| vars := []; constrs := []; objective := []; modelSense := MINIMIZE |}.

(** model.addVar(vtype=GRB.BINARY, name=...) *)
Definition addVar (name : VarName) (m : Model) : Var * Model :=
  (length (vars m),
   {| vars := vars m ++ [name]; constrs := constrs m;
      objective := objective m; modelSense := modelSense m |}).

(** model.addConstr(...) *)
Definition addConstr (c : Constr) (m : Model) : Model :=
  {| vars := vars m; constrs := constrs m ++ [c];
     objective := objective m; modelSense := modelSense m |}.

(** model.setObjective(z); model.modelSense = s *)
Definition setObjective (z : LinExpr) (s : ModelSense) (m : Model) : Model :=
  {| vars := vars m; constrs := constrs m; objective := z; modelSense := s |}.

(** var * coefficient *)
Definition term (v : Var) (c : Q) : LinExpr := [(c, v)].

(** quicksum over expressions, and over bare variables *)
Definition quicksum (es : list LinExpr) : LinExpr := concat es.

Definition quicksum_vars (vs : list Var) : LinExpr :=
  quicksum (map (fun v => term v 1%Q) vs).

(** ** Exceptions and the attribute heap *)

Inductive exn :=
| OptimisationException (s : Status)
| UnboundLocalError (name : string)
| NameError (name : string)
| AttributeError (o : oid) (attr : string)
| IndexError.

Inductive result (A : Type) :=
| Ok (a : A)
| Raise (e : exn).
Arguments Ok {A} a.
Arguments Raise {A} e.

Definition bind {A B} (r : result A) (k : A -> result B) : result B :=
  match r with
  | Ok a => k a
  | Raise e => Raise e
  end.

Notation "'do' x <- r ; k" := (bind r (fun x => k))
  (at level 10, x pattern, r at level 100, k at level 200).

(** for x in xs: body, threading the state and stopping at the first
    exception. *)
Fixpoint for_each {A S} (xs : list A) (body : A -> S -> result S) (s : S)
  : result S :=
  match xs with
  | [] => Ok s
  | x :: xs' => do s' <- body x s; for_each xs' body s'
  end.

(** [x for x in xs if keep(x)] where keep may raise. *)
Fixpoint filter_r {A} (keep : A -> result bool) (xs : list A)
  : result (list A) :=
  match xs with
  | [] => Ok []
  | x :: xs' =>
      do b <- keep x;
      do r <- filter_r keep xs';
      Ok (if b then x :: r else r)
  end.

(** [f(x) for x in xs] where f may raise. *)
Fixpoint map_r {A B} (f : A -> result B) (xs : list A) : result (list B) :=
  match xs with
  | [] => Ok []
  | x :: xs' => do y <- f x; do r <- map_r f xs'; Ok (y :: r)
  end.

Record Heap := {
  mip_var : gmap oid Var;
  mip_vars : gmap oid (list Var)
}.

(** o.mip_var = v *)
Definition set_mip_var (o : oid) (v : Var) (h : Heap) : Heap :=
  {| mip_var := <[o := v]> (mip_var h); mip_vars := mip_vars h |}.

(** o.mip_vars = l *)
Definition set_mip_vars (o : oid) (l : list Var) (h : Heap) : Heap :=
  {| mip_var := mip_var h; mip_vars := <[o := l]> (mip_vars h) |}.

(** o.mip_var *)
Definition get_mip_var (o : oid) (h : Heap) : result Var :=
  match mip_var h !! o with
  | Some v => Ok v
  | None => Raise (AttributeError o "mip_var")
  end.

(** o.mip_vars *)
Definition get_mip_vars (o : oid) (h : Heap) : result (list Var) :=
  match mip_vars h !! o with
  | Some l => Ok l
  | None => Raise (AttributeError o "mip_vars")
  end.

(** o.mip_vars.append(v) *)
Definition append_mip_vars (o : oid) (v : Var) (h : Heap) : result Heap :=
  do l <- get_mip_vars o h; Ok (set_mip_vars o (l ++ [v]) h).

(** ** PoolOptimiser *)

Record PoolOptimiser := {
  opt_criteria : list OptCriterion;
  pool : Pool;
  cycles : list Cycle;
  chains : list Chain
}.

Definition EPSILON : Q := 1 # 10000000.

(** PoolOptimiser._add_var_to_patients_and_donors *)
Definition _add_var_to_patients_and_donors
    (pd_pairs : list PdPair) (mip_var : Var) (h : Heap) : result Heap :=
  for_each pd_pairs
    (fun pd_pair h =>
       do h <- append_mip_vars (patient_oid (patient pd_pair)) mip_var h;
       if (1 <? length (paired_patients (donor pd_pair)))%nat
       then append_mip_vars (donor_oid (donor pd_pair)) mip_var h
       else Ok h)
    h.

(** patients + paired_donors + altruists, as object identities *)
Definition persons (patients : list Patient) (paired_donors : list Donor)
    (altruists : list Altruist) : list oid :=
  map patient_oid patients ++ map donor_oid paired_donors
    ++ map altruist_oid altruists.

(** PoolOptimiser._create_vars_and_constraints *)
Definition _create_vars_and_constraints (self : PoolOptimiser)
    (model : Model) (patients : list Patient) (paired_donors : list Donor)
    (altruists : list Altruist) (h : Heap) : result (Model * Heap) :=
  do st <- for_each (persons patients paired_donors altruists)
    (fun person '(model, h) => Ok (model, set_mip_vars person [] h))
    (model, h);
  do st <- for_each (chains self)
    (fun chain '(model, h) =>
       let '(v, model) := addVar (chain_name (chain_index chain)) model in
       Ok (model, set_mip_var (chain_oid chain) v h))
    st;
  do st <- for_each (cycles self)
    (fun cycle '(model, h) =>
       let '(v, model) := addVar (cycle_name (cycle_index cycle)) model in
       Ok (model, set_mip_var (cycle_oid cycle) v h))
    st;
  do st <- for_each altruists
    (fun altruist '(model, h) =>
       let '(v, model) := addVar (altruist_name (nhs_id altruist)) model in
       let h := set_mip_var (altruist_oid altruist) v h in
       do v <- get_mip_var (altruist_oid altruist) h;
       do h <- append_mip_vars (altruist_oid altruist) v h;
       Ok (model, h))
    st;
  do st <- for_each (chains self)
    (fun chain '(model, h) =>
       do v <- get_mip_var (chain_oid chain) h;
       do h <- append_mip_vars
                 (altruist_oid (altruist (altruist_edge chain))) v h;
       do v <- get_mip_var (chain_oid chain) h;
       do h <- _add_var_to_patients_and_donors (chain_pd_pairs chain) v h;
       Ok (model, h))
    st;
  do st <- for_each (cycles self)
    (fun cycle '(model, h) =>
       do v <- get_mip_var (cycle_oid cycle) h;
       do h <- _add_var_to_patients_and_donors (cycle_pd_pairs cycle) v h;
       Ok (model, h))
    st;
  do st <- for_each (map patient_oid patients ++ map donor_oid paired_donors)
    (fun person '(model, h) =>
       do l <- get_mip_vars person h;
       Ok (addConstr {| lhs := quicksum_vars l; rel := LE; rhs := 1 |} model,
           h))
    st;
  for_each (map altruist_oid altruists)
    (fun altruist '(model, h) =>
       do l <- get_mip_vars altruist h;
       Ok (addConstr {| lhs := quicksum_vars l; rel := EQ; rhs := 1 |} model,
           h))
    st.

(** PoolOptimiser._enforce_objective *)
Definition _enforce_objective (model : Model) (z : LinExpr) (obj_val : Q)
    (sense : string) : Model :=
  if String.eqb sense "MAX"
  then addConstr {| lhs := z; rel := GE; rhs := obj_val |} model
  else addConstr {| lhs := z; rel := LE; rhs := obj_val |} model.

(** ** Solving *)

(** What solve prints for one accepted solution: the chains, cycles and
    unused altruists whose variable is set. *)
Inductive Item :=
| chain_item (c : Chain)
| cycle_item (c : Cycle)
| altruist_item (a : Altruist).

Definition item_oid (i : Item) : oid :=
  match i with
  | chain_item c => chain_oid c
  | cycle_item c => cycle_oid c
  | altruist_item a => altruist_oid a
  end.

(** The observable events of a session, in program order: each call of
    model.optimize() with the model it was called on, and each printed
    solution. *)
Inductive Event :=
| EvOptimize (m : Model)
| EvPrint (items : list Item).

(** How a call of solve ends. *)
Inductive Stop :=
| Returned (best_objval_found : Q) (n_solutions : nat) (reached_max : bool)
| Raised (e : exn)
| OutOfFuel.

(** One turn of the while loop either goes round again or leaves it. *)
Inductive Next :=
| Continue (model : Model) (n_solutions : nat) (best_objval_found : Q)
| Break (s : Stop).

(** The module-level names solve reads. *)
Record Globals := { g_opt_criteria : option (list OptCriterion) }.

(** opt_criteria[-1] *)
Definition last_r {A} (l : list A) : result A :=
  match last l with
  | Some x => Ok x
  | None => Raise IndexError
  end.

(** Run a step that may raise inside the loop body: an exception leaves
    the loop with the events seen so far. *)
Definition try {A} (r : result A) (evs : list Event)
    (k : A -> list Event * Next) : list Event * Next :=
  match r with
  | Ok a => k a
  | Raise e => (evs, Break (Raised e))
  end.

(** GRB.MAXIMIZE if opt_criterion.sense=='MAX' else GRB.MINIMIZE *)
Definition sense_of (c : OptCriterion) : ModelSense :=
  if String.eqb (sense c) "MAX" then MAXIMIZE else MINIMIZE.

(** item.mip_var.X > 0.5 *)
Definition chosen (sol : Solution) (v : Var) : bool := Qltb (1 # 2) (X sol v).

(** PoolOptimiser._items_in_optimal_solution *)
Definition _items_in_optimal_solution {A} (oid_of : A -> oid) (h : Heap)
    (sol : Solution) (items : list A) : result (list A) :=
  filter_r (fun item => do v <- get_mip_var (oid_of item) h; Ok (chosen sol v))
    items.

(** The selection read off a solved model: optimal_chains, optimal_cycles
    and optimal_altruists in print order, and optimal_vars. *)
Definition optimal_selection (self : PoolOptimiser) (h : Heap) (sol : Solution)
  : result (list Item * list Var) :=
  do optimal_chains <- _items_in_optimal_solution chain_oid h sol (chains self);
  do optimal_cycles <- _items_in_optimal_solution cycle_oid h sol (cycles self);
  do optimal_altruists <-
    _items_in_optimal_solution altruist_oid h sol (altruists (pool self));
  let items := map chain_item optimal_chains ++ map cycle_item optimal_cycles
                 ++ map altruist_item optimal_altruists in
  do optimal_vars <- map_r (fun o => get_mip_var (item_oid o) h) items;
  Ok (items, optimal_vars).

Section Optimiser.

(** model.optimize(), with what it leaves in the model's attributes. *)
Variable optimize : Model -> Solution.

(** The objective expression of a criterion. *)
Definition objective_of (self : PoolOptimiser) (c : OptCriterion) (h : Heap)
  : result LinExpr :=
  do zc <- map_r (fun chain => do v <- get_mip_var (chain_oid chain) h;
                               Ok (term v (chain_val c chain)))
             (chains self);
  do zy <- map_r (fun cycle => do v <- get_mip_var (cycle_oid cycle) h;
                               Ok (term v (cycle_val c cycle)))
             (cycles self);
  do za <- map_r (fun altruist => do v <- get_mip_var (altruist_oid altruist) h;
                                  Ok (term v (altruist_val c altruist)))
             (altruists (pool self));
  Ok (quicksum (zc ++ zy ++ za)).

(** PoolOptimiser._optimise; the model returned is the one optimize ran
    on. *)
Definition _optimise (self : PoolOptimiser) (model : Model)
    (opt_criterion : OptCriterion) (h : Heap)
  : result (LinExpr * Model * Solution) :=
  do z <- objective_of self opt_criterion h;
  let model := setObjective z (sense_of opt_criterion) model in
  Ok (z, model, optimize model).

(** for opt_criterion in opt_criteria[:-1]: ... *)
Fixpoint sequence_ranks (self : PoolOptimiser) (h : Heap)
    (cs : list OptCriterion) (model : Model) : list Event * result Model :=
  match cs with
  | [] => ([], Ok model)
  | opt_criterion :: cs' =>
      match _optimise self model opt_criterion h with
      | Raise e => ([], Raise e)
      | Ok (z, model, sol) =>
          if negb (Status_eqb (status sol) OPTIMAL)
          then ([EvOptimize model], Raise (UnboundLocalError "solve_status"))
          else
            let model' :=
              _enforce_objective model z (objVal sol) (sense opt_criterion) in
            let '(evs, r) := sequence_ranks self h cs' model' in
            (EvOptimize model :: evs, r)
      end
  end.

(** The body of the while loop. *)
Definition enumerate_body (self : PoolOptimiser) (h : Heap)
    (cs : list OptCriterion) (max_solutions : Z)
    (model : Model) (n_solutions : nat) (best_objval_found : Q)
  : list Event * Next :=
  try (last_r cs) [] (fun c =>
  try (_optimise self model c h) [] (fun '(z, model, sol) =>
  let solve_status := status sol in
  let evs := [EvOptimize model] in
  if Status_eqb solve_status INF_OR_UNBD || Status_eqb solve_status INFEASIBLE
  then (evs, Break (Returned best_objval_found n_solutions false))
  else if negb (Status_eqb solve_status OPTIMAL)
  then (evs, Break (Raised (OptimisationException solve_status)))
  else
  let objval := objVal sol in
  if Qltb (objval + EPSILON) best_objval_found
  then (evs, Break (Returned best_objval_found n_solutions false))
  else
  try (optimal_selection self h sol) evs (fun '(items, optimal_vars) =>
  let best_objval_found := objval in
  let n_solutions := S n_solutions in
  let evs := evs ++ [EvPrint items] in
  if (Z.of_nat n_solutions =? max_solutions)%Z
  then (evs, Break (Returned best_objval_found n_solutions true))
  else if (length optimal_vars =? 0)%nat
  then (evs, Break (Returned best_objval_found n_solutions false))
  else
  let model :=
    addConstr {| lhs := quicksum_vars optimal_vars; rel := LE;
                 rhs := inject_Z (Z.of_nat (length optimal_vars) - 1) |}
      model in
  (evs, Continue model n_solutions best_objval_found)))).

(** while True: ... *)
Fixpoint enumerate (fuel : nat) (self : PoolOptimiser) (h : Heap)
    (cs : list OptCriterion) (max_solutions : Z)
    (model : Model) (n_solutions : nat) (best_objval_found : Q)
  : list Event * Stop :=
  match fuel with
  | O => ([], OutOfFuel)
  | S fuel' =>
      match enumerate_body self h cs max_solutions model n_solutions
              best_objval_found with
      | (evs, Break s) => (evs, s)
      | (evs, Continue model n_solutions best_objval_found) =>
          let '(evs', s) :=
            enumerate fuel' self h cs max_solutions model n_solutions
              best_objval_found in
          (evs ++ evs', s)
      end
  end.

(** PoolOptimiser.solve, started with the attribute heap [h] and the
    module globals [G]. *)
Definition solve (G : Globals) (self : PoolOptimiser) (max_solutions : Z)
    (h : Heap) (fuel : nat) : list Event * Stop :=
  let patients := patients (pool self) in
  let paired_donors := paired_donors (pool self) in
  let altruists := altruists (pool self) in
  let model := Model_new in
  match _create_vars_and_constraints self model patients paired_donors
          altruists h with
  | Raise e => ([], Raised e)
  | Ok (model, h) =>
      match g_opt_criteria G with
      | None => ([], Raised (NameError "opt_criteria"))
      | Some opt_criteria =>
          match sequence_ranks self h (removelast opt_criteria) model with
          | (evs, Raise e) => (evs, Raised e)
          | (evs, Ok model) =>
              let '(evs', s) :=
                enumerate fuel self h opt_criteria max_solutions model
                  0%nat (-1)%Q in
              (evs ++ evs', s)
          end
      end
  end.

End Optimiser.

(** ** Meaning of a model, and a reference solver *)

Definition eval (a : Var -> Q) (e : LinExpr) : Q :=
  fold_right (fun '(c, v) acc => c * a v + acc)%Q 0%Q e.

Definition holds (a : Var -> Q) (c : Constr) : Prop :=
  match rel c with
  | LE => (eval a (lhs c) <= rhs c)%Q
  | GE => (rhs c <= eval a (lhs c))%Q
  | EQ => (eval a (lhs c) == rhs c)%Q
  end.

Definition holdsb (a : Var -> Q) (c : Constr) : bool :=
  match rel c with
  | LE => Qle_bool (eval a (lhs c)) (rhs c)
  | GE => Qle_bool (rhs c) (eval a (lhs c))
  | EQ => Qeq_bool (eval a (lhs c)) (rhs c)
  end.

(** The 0/1 point a solution is read as: 1 where var.X > 0.5. *)
Definition indicator (sol : Solution) : Var -> Q :=
  fun v => if chosen sol v then 1%Q else 0%Q.

(** A 0/1 point given by one bit per variable of the model. *)
Definition assignment (bs : list bool) : Var -> Q :=
  fun v => if nth v bs false then 1%Q else 0%Q.

Fixpoint assignments (n : nat) : list (list bool) :=
  match n with
  | O => [[]]
  | S n' => flat_map (fun bs => [false :: bs; true :: bs]) (assignments n')
  end.

Definition feasible_points (m : Model) : list (list bool) :=
  List.filter (fun bs => forallb (holdsb (assignment bs)) (constrs m))
    (assignments (length (vars m))).

(** [better s x y]: objective value x is strictly better than y. *)
Definition better (s : ModelSense) (x y : Q) : bool :=
  match s with
  | MAXIMIZE => Qltb y x
  | MINIMIZE => Qltb x y
  end.

Definition pick_best (m : Model) (first : list bool) (rest : list (list bool))
  : list bool :=
  fold_left
    (fun cur cand =>
       if better (modelSense m) (eval (assignment cand) (objective m))
            (eval (assignment cur) (objective m))
       then cand else cur)
    rest first.

(** A solver by exhaustive search over the 0/1 points: the reference
    instance of the solver contract. *)
Definition exhaustive (m : Model) : Solution :=
  match feasible_points m with
  | [] => {| status := INFEASIBLE; objVal := 0; X := fun _ => 0%Q |}
  | first :: rest =>
      let b := pick_best m first rest in
      {| status := OPTIMAL; objVal := eval (assignment b) (objective m);
         X := assignment b |}
  end.

(** The contract solve relies on: the point read off an OPTIMAL solve
    satisfies every posted constraint, the reported objective value is the
    objective at that point, and a model with a feasible 0/1 point is solved
    to OPTIMAL. *)
Definition solver_sound (optimize : Model -> Solution) : Prop :=
  forall m, status (optimize m) = OPTIMAL ->
    Forall (holds (indicator (optimize m))) (constrs m).

Definition solver_reports_objective (optimize : Model -> Solution) : Prop :=
  forall m, status (optimize m) = OPTIMAL ->
    (objVal (optimize m) == eval (indicator (optimize m)) (objective m))%Q.

Definition solver_complete (optimize : Model -> Solution) : Prop :=
  forall m bs, length bs = length (vars m) ->
    Forall (holds (assignment bs)) (constrs m) ->
    status (optimize m) = OPTIMAL.

(** ** Reading a trace *)

Definition optimize_calls (evs : list Event) : list Model :=
  flat_map (fun e => match e with EvOptimize m => [m] | EvPrint _ => [] end) evs.

Definition printed (evs : list Event) : list (list Item) :=
  flat_map (fun e => match e with EvPrint s => [s] | EvOptimize _ => [] end) evs.

(** ** What the model builder leaves behind, in closed form *)

(** Variables handed out in creation order, the first being [first]. *)
Fixpoint assign_vars (os : list oid) (first : Var) (mv : gmap oid Var)
  : gmap oid Var :=
  match os with
  | [] => mv
  | o :: os' => assign_vars os' (S first) (<[o := first]> mv)
  end.

Definition var_of (mv : gmap oid Var) (o : oid) : Var := default 0%nat (mv !! o).

(** The appends of one call of _add_var_to_patients_and_donors, per pair. *)
Definition pd_entries (v : Var) (pd : PdPair) : list (oid * Var) :=
  (patient_oid (patient pd), v)
    :: (if (1 <? length (paired_patients (donor pd)))%nat
        then [(donor_oid (donor pd), v)] else []).

Definition chain_entries (mv : gmap oid Var) (c : Chain) : list (oid * Var) :=
  (altruist_oid (altruist (altruist_edge c)), var_of mv (chain_oid c))
    :: flat_map (pd_entries (var_of mv (chain_oid c))) (chain_pd_pairs c).

Definition cycle_entries (mv : gmap oid Var) (c : Cycle) : list (oid * Var) :=
  flat_map (pd_entries (var_of mv (cycle_oid c))) (cycle_pd_pairs c).

Fixpoint altruist_entries (first : Var) (alts : list Altruist)
  : list (oid * Var) :=
  match alts with
  | [] => []
  | a :: alts' => (altruist_oid a, first) :: altruist_entries (S first) alts'
  end.

(** Every append of one model construction, in program order. *)
Definition append_log (self : PoolOptimiser) (alts : list Altruist)
    (first : Var) (mv : gmap oid Var) : list (oid * Var) :=
  altruist_entries (first + length (chains self) + length (cycles self)) alts
    ++ flat_map (chain_entries mv) (chains self)
    ++ flat_map (cycle_entries mv) (cycles self).

(** The accumulator a log builds for object [o] from an empty list. *)
Definition accumulated (log : list (oid * Var)) (o : oid) : list Var :=
  map snd (List.filter (fun e => (fst e =? o)%nat) log).

Definition append_all (log : list (oid * Var)) (h : Heap) : result Heap :=
  for_each log (fun '(o, v) h => append_mip_vars o v h) h.

Definition reset_all (os : list oid) (h : Heap) : Heap :=
  fold_left (fun h o => set_mip_vars o [] h) os h.

Definition add_vars (names : list VarName) (m : Model) : Model :=
  {| vars := vars m ++ names; constrs := constrs m;
     objective := objective m; modelSense := modelSense m |}.

(** The variable map after the three creation loops. *)
Definition created_vars (self : PoolOptimiser) (alts : list Altruist)
    (first : Var) (mv : gmap oid Var) : gmap oid Var :=
  assign_vars (map altruist_oid alts)
    (first + length (chains self) + length (cycles self))
    (assign_vars (map cycle_oid (cycles self)) (first + length (chains self))
       (assign_vars (map chain_oid (chains self)) first mv)).

Definition created_names (self : PoolOptimiser) (alts : list Altruist)
  : list VarName :=
  map (fun c => chain_name (chain_index c)) (chains self)
    ++ map (fun c => cycle_name (cycle_index c)) (cycles self)
    ++ map (fun a => altruist_name (nhs_id a)) alts.

Definition person_constr (r : Relation) (acc : oid -> list Var) (o : oid)
  : Constr :=
  {| lhs := quicksum_vars (acc o); rel := r; rhs := 1 |}.

Definition created_constrs (pats : list Patient) (dons : list Donor)
    (alts : list Altruist) (acc : oid -> list Var) : list Constr :=
  map (person_constr LE acc) (map patient_oid pats ++ map donor_oid dons)
    ++ map (person_constr EQ acc) (map altruist_oid alts).

(** Every object a candidate appends to is one of the pool's persons. *)
Definition references_pool (self : PoolOptimiser) (pats : list Patient)
    (dons : list Donor) (alts : list Altruist) : bool :=
  forallb (fun e => existsb (Nat.eqb (fst e)) (persons pats dons alts))
    (flat_map (chain_entries ∅) (chains self)
       ++ flat_map (cycle_entries ∅) (cycles self)).


(** ** Reading a printed selection *)

Definition count {A} (f : A -> bool) (l : list A) : nat :=
  length (List.filter f l).

Definition item_pd_pairs (i : Item) : list PdPair :=
  match i with
  | chain_item c => chain_pd_pairs c
  | cycle_item c => cycle_pd_pairs c
  | altruist_item _ => []
  end.

(** Object [o] is the patient of one of the item's pairs. *)
Definition has_patient (o : oid) (i : Item) : bool :=
  existsb (fun pd => (patient_oid (patient pd) =? o)%nat) (item_pd_pairs i).

(** Object [o] is the donor of one of the item's pairs, and that donor has
    more than one paired patient. *)
Definition has_donor (o : oid) (i : Item) : bool :=
  existsb
    (fun pd => (donor_oid (donor pd) =? o)%nat
               && (1 <? length (paired_patients (donor pd)))%nat)
    (item_pd_pairs i).

(** The item is altruist [o] staying unused, or a chain [o] initiates. *)
Definition accounts_for (o : oid) (i : Item) : bool :=
  match i with
  | chain_item c => (altruist_oid (altruist (altruist_edge c)) =? o)%nat
  | cycle_item _ => false
  | altruist_item a => (altruist_oid a =? o)%nat
  end.

Fixpoint distinct (l : list oid) : bool :=
  match l with
  | [] => true
  | x :: l' => negb (existsb (Nat.eqb x) l') && distinct l'
  end.

(** The appends a candidate makes for the persons of its pairs. *)
Definition pair_entries (self : PoolOptimiser) : list (oid * Var) :=
  flat_map (fun c => flat_map (pd_entries 0%nat) (chain_pd_pairs c)) (chains self)
    ++ flat_map (fun c => flat_map (pd_entries 0%nat) (cycle_pd_pairs c))
         (cycles self).

(** Altruists are distinct objects, and no altruist is also the patient or
    the constrained donor of a candidate's pair. *)
Definition altruists_apart (self : PoolOptimiser) : bool :=
  distinct (map altruist_oid (altruists (pool self)))
  && forallb
       (fun e => negb (existsb (Nat.eqb (fst e))
                         (map altruist_oid (altruists (pool self)))))
       (pair_entries self).

(** The no-good cut of a selection with variables [optimal_vars]. *)
Definition no_good_cut (optimal_vars : list Var) : Constr :=
  {| lhs := quicksum_vars optimal_vars; rel := LE;
     rhs := inject_Z (Z.of_nat (length optimal_vars) - 1) |}.

(** The constraint _enforce_objective posts for a solved criterion. *)
Definition enforced (m : Model) (c : OptCriterion) (v : Q) : Constr :=
  {| lhs := objective m;
     rel := if String.eqb (sense c) "MAX" then GE else LE;
     rhs := v |}.

(** The feasible 0/1 points of a model whose objective equals the optimum
    the reference solver finds: the tied-optimal selections. *)
Definition tied_optimal (m : Model) : list (list bool) :=
  List.filter
    (fun bs => Qeq_bool (eval (assignment bs) (objective m))
                 (objVal (exhaustive m)))
    (feasible_points m).

(** The heap with its variable map replaced. *)
Definition with_vars (mv : gmap oid Var) (h : Heap) : Heap :=
  {| mip_var := mv; mip_vars := mip_vars h |}.

(** Several model.addConstr in a row. *)
Definition add_constrs (cs : list Constr) (m : Model) : Model :=
  {| vars := vars m; constrs := constrs m ++ cs;
     objective := objective m; modelSense := modelSense m |}.

(** Whether the variable of object [o] is set in a solution. *)
Definition chosen_at (h : Heap) (sol : Solution) (o : oid) : bool :=
  chosen sol (var_of (mip_var h) o).

(** How many entries of a log for object [o] carry a set variable. *)
Definition hits (sol : Solution) (o : oid) (log : list (oid * Var)) : nat :=
  length (List.filter (fun e => (fst e =? o)%nat && chosen sol (snd e)) log).

(** No person of the pool is the patient of a pair in two printed
    candidates, or the donor, with more than one paired patient, of a pair
    in two printed candidates. *)
Definition persons_disjoint (self : PoolOptimiser) (items : list Item) : Prop :=
  forall o,
    In o (persons (patients (pool self)) (paired_donors (pool self))
            (altruists (pool self))) ->
    count (has_patient o) items <= 1 /\ count (has_donor o) items <= 1.

(** Every altruist of the pool is printed as unused or as the start of one
    printed chain, and not both. *)
Definition altruists_accounted (self : PoolOptimiser) (items : list Item) : Prop :=
  forall a, In a (altruists (pool self)) ->
    count (accounts_for (altruist_oid a)) items = 1%nat.

(** The model of the first solve at the last rank, when the session gets
    that far. *)
Definition final_rank_model (optimize : Model -> Solution) (G : Globals)
    (self : PoolOptimiser) (h : Heap) : option Model :=
  match _create_vars_and_constraints self Model_new (patients (pool self))
          (paired_donors (pool self)) (altruists (pool self)) h with
  | Raise _ => None
  | Ok (m0, h') =>
      match g_opt_criteria G with
      | None => None
      | Some cs =>
          match sequence_ranks optimize self h' (removelast cs) m0, last cs with
          | (_, Ok m1), Some c =>
              match objective_of self c h' with
              | Ok z => Some (setObjective z (sense_of c) m1)
              | Raise _ => None
              end
          | _, _ => None
          end
      end
  end.

(** A model without variables whose constraints hold as they stand. *)
Definition trivially_feasible (m : Model) : Prop :=
  vars m = [] /\ Forall (holds (assignment [])) (constrs m).

(** A person test that every hit item answers with an entry in its log. *)
Definition logged (uses : oid -> Item -> bool) : Prop :=
  forall o v i, uses o i = true ->
    In (o, v) (flat_map (pd_entries v) (item_pd_pairs i)).

(** Every variable of an expression is one of the first [n]. *)
Definition scoped_expr (n : nat) (e : LinExpr) : Prop :=
  Forall (fun t => snd t < n) e.

(** Every constraint of a model is over the model's own variables. *)
Definition scoped (m : Model) : Prop :=
  Forall (fun c => scoped_expr (length (vars m)) (lhs c)) (constrs m).

(** The candidates and altruists of an optimiser, as object identities. *)
Definition item_oids (self : PoolOptimiser) : list oid :=
  map chain_oid (chains self) ++ map cycle_oid (cycles self)
    ++ map altruist_oid (altruists (pool self)).

(** Every candidate and altruist holds one of the first [n] variables. *)
Definition heap_scoped (self : PoolOptimiser) (h : Heap) (n : nat) : Prop :=
  forall o, In o (item_oids self) ->
    exists v, mip_var h !! o = Some v /\ v < n.

(** The 0/1 point of a solution over the first [n] variables, bit by bit. *)
Definition bits (n : nat) (sol : Solution) : list bool :=
  map (chosen sol) (seq 0 n).

(** ** Reading more off a session *)

(** The value a criterion gives an item, and a selection. *)
Definition item_value (c : OptCriterion) (i : Item) : Q :=
  match i with
  | chain_item x => chain_val c x
  | cycle_item x => cycle_val c x
  | altruist_item x => altruist_val c x
  end.

Definition selection_value (c : OptCriterion) (items : list Item) : Q :=
  fold_right (fun i acc => item_value c i + acc)%Q 0%Q items.

(** How often _add_var_to_patients_and_donors appends to object [o] for
    these pairs: once per pair it is the patient of, and once per pair it
    is the donor of while having more than one paired patient. *)
Definition appends_to (o : oid) (pd_pairs : list PdPair) : nat :=
  length (accumulated (flat_map (pd_entries 0%nat) pd_pairs) o).

(** The same, summed over the candidates of a selection. *)
Definition selection_appends (o : oid) (items : list Item) : nat :=
  list_sum (map (fun i => appends_to o (item_pd_pairs i)) items).

(** The pairs of all candidates, as the objects they append to. *)
Definition candidate_objects (self : PoolOptimiser) : list oid :=
  map fst (flat_map (chain_entries ∅) (chains self)
             ++ flat_map (cycle_entries ∅) (cycles self)).

(** The statuses on which the last rank goes on or ends without raising. *)
Definition expected_status (s : Status) : bool :=
  Status_eqb s OPTIMAL || Status_eqb s INFEASIBLE || Status_eqb s INF_OR_UNBD.

(** An OPTIMAL answer is no worse, in the model's sense, than any feasible
    0/1 point. *)
Definition solver_optimal (optimize : Model -> Solution) : Prop :=
  forall m bs,
    length bs = length (vars m) ->
    Forall (holds (assignment bs)) (constrs m) ->
    status (optimize m) = OPTIMAL ->
    match modelSense m with
    | MAXIMIZE => (eval (assignment bs) (objective m) <= objVal (optimize m))%Q
    | MINIMIZE => (objVal (optimize m) <= eval (assignment bs) (objective m))%Q
    end.

(** ** PoolOptimiser.__init__ *)

Section Init.
(** Pool.find_cycles and Pool.find_chains (kep_h_pool). *)
Variable find_cycles : Pool -> nat -> list Cycle.
Variable find_chains : Pool -> nat -> list Chain.

Definition __init__ (pool : Pool) (opt_criteria : list OptCriterion)
    (max_cycle max_chain : nat) : PoolOptimiser :=
  {| opt_criteria := opt_criteria;
     pool := pool;
     cycles := find_cycles pool max_cycle;
     chains := find_chains pool max_chain |}.
End Init.

(** ** Sample pools and criteria *)

Definition heap_empty : Heap := {| mip_var := ∅; mip_vars := ∅ |}.

Definition p1 : Patient := {| patient_oid := 10 |}.
Definition p2 : Patient := {| patient_oid := 11 |}.
Definition p3 : Patient := {| patient_oid := 12 |}.
Definition d1 : Donor := {| donor_oid := 20; paired_patients := [p1] |}.
Definition d2 : Donor := {| donor_oid := 21; paired_patients := [p2; p3] |}.
Definition alt1 : Altruist := {| altruist_oid := 1; nhs_id := 7 |}.

Definition chain1 : Chain :=
  {| chain_oid := 2; chain_index := 0;
     altruist_edge := {| altruist := alt1 |};
     chain_pd_pairs := [{| patient := p1; donor := d1 |}] |}.
Definition chain2 : Chain :=
  {| chain_oid := 3; chain_index := 1;
     altruist_edge := {| altruist := alt1 |};
     chain_pd_pairs := [{| patient := p2; donor := d2 |}] |}.
Definition cycle1 : Cycle :=
  {| cycle_oid := 4; cycle_index := 0;
     cycle_pd_pairs := [{| patient := p1; donor := d1 |};
                        {| patient := p2; donor := d2 |}] |}.
Definition cycle2 : Cycle :=
  {| cycle_oid := 5; cycle_index := 1;
     cycle_pd_pairs := [{| patient := p3; donor := d2 |};
                        {| patient := p1; donor := d1 |}] |}.

Definition sample_pool : Pool :=
  {| patients := [p1; p2; p3]; paired_donors := [d1; d2];
     altruists := [alt1] |}.

(** Number of transplants, to be maximised. *)
Definition crit_size : OptCriterion :=
  {| sense := "MAX";
     chain_val := fun c => inject_Z (Z.of_nat (length (chain_pd_pairs c)));
     cycle_val := fun c => inject_Z (Z.of_nat (length (cycle_pd_pairs c)));
     altruist_val := fun _ => 0%Q |}.

(** A cost per chain, to be minimised. *)
Definition crit_cost : OptCriterion :=
  {| sense := "MIN";
     chain_val := fun c => inject_Z (Z.of_nat (S (chain_index c)));
     cycle_val := fun _ => 0%Q;
     altruist_val := fun _ => 0%Q |}.


Definition sample_optimiser : PoolOptimiser :=
  {| opt_criteria := [crit_size]; pool := sample_pool;
     cycles := [cycle1; cycle2]; chains := [chain1; chain2] |}.

(** A candidate search that finds the two chains and no cycle. *)
Definition chains_only_find_cycles (p : Pool) (max_cycle : nat) : list Cycle :=
  [].
Definition chains_only_find_chains (p : Pool) (max_chain : nat) : list Chain :=
  [chain1; chain2].

(** PoolOptimiser(sample_pool, cs, 3, 3) over that search. *)
Definition chains_optimiser (cs : list OptCriterion) : PoolOptimiser :=
  __init__ chains_only_find_cycles chains_only_find_chains sample_pool cs 3 3.

(** A pool without candidates and without altruists. *)
Definition empty_optimiser : PoolOptimiser :=
  {| opt_criteria := [crit_size];
     pool := {| patients := [p1]; paired_donors := [d1]; altruists := [] |};
     cycles := []; chains := [] |}.

(** A solve cut short: every call reports INTERRUPTED. *)
Definition interrupted (m : Model) : Solution :=
  {| status := INTERRUPTED; objVal := 0; X := fun _ => 0%Q |}.

(** Sessions on the sample pool. *)
Definition size_globals : Globals := {| g_opt_criteria := Some [crit_size] |}.
Definition cost_globals : Globals := {| g_opt_criteria := Some [crit_cost] |}.

Definition size_session : list Event * Stop :=
  solve exhaustive size_globals sample_optimiser 100 heap_empty 10.

Definition cost_session : list Event * Stop :=
  solve exhaustive cost_globals (chains_optimiser [crit_cost]) 100 heap_empty 10.

Definition two_rank_session : list Event * Stop :=
  solve exhaustive {| g_opt_criteria := Some [crit_cost; crit_size] |}
    sample_optimiser 100 heap_empty 10.

(** * Properties *)

(** ** Numbers and statuses *)

Lemma Qltb_lt (x y : Q) : Qltb x y = true <-> (x < y)%Q.
Proof.
  unfold Qltb. rewrite negb_true_iff. split.
  - intros H. apply Qnot_le_lt. intros Hle.
    apply Qle_bool_iff in Hle. congruence.
  - intros H. destruct (Qle_bool y x) eqn:E; [|reflexivity].
    apply Qle_bool_iff in E. exfalso. eapply Qlt_not_le; eassumption.
Qed.

Lemma Qltb_ge (x y : Q) : Qltb x y = false <-> (y <= x)%Q.
Proof.
  unfold Qltb. rewrite negb_false_iff. apply Qle_bool_iff.
Qed.

Lemma Status_eqb_eq (a b : Status) : Status_eqb a b = true <-> a = b.
Proof. destruct a, b; simpl; split; congruence. Qed.

Lemma Status_eqb_neq (a b : Status) : Status_eqb a b = false <-> a <> b.
Proof.
  rewrite <- Status_eqb_eq. destruct (Status_eqb a b); split; congruence.
Qed.

(** ** Linear expressions *)

Lemma eval_app (a : Var -> Q) (e1 e2 : LinExpr) :
  (eval a (e1 ++ e2) == eval a e1 + eval a e2)%Q.
Proof.
  induction e1 as [|[c v] e1 IH]; simpl.
  - ring.
  - rewrite IH. ring.
Qed.

Lemma eval_ext (a a' : Var -> Q) (e : LinExpr) :
  (forall v, a v = a' v) -> eval a e = eval a' e.
Proof.
  intros Hext. induction e as [|[c v] e IH]; simpl; [reflexivity|].
  rewrite IH, Hext. reflexivity.
Qed.

Lemma quicksum_vars_cons (v : Var) (vs : list Var) :
  quicksum_vars (v :: vs) = (1%Q, v) :: quicksum_vars vs.
Proof. reflexivity. Qed.

Lemma eval_quicksum_vars (sol : Solution) (vs : list Var) :
  (eval (indicator sol) (quicksum_vars vs)
   == inject_Z (Z.of_nat (count (chosen sol) vs)))%Q.
Proof.
  unfold count. induction vs as [|v vs IH].
  - reflexivity.
  - rewrite quicksum_vars_cons. cbn [eval fold_right List.filter].
    fold (eval (indicator sol) (quicksum_vars vs)). rewrite IH.
    unfold indicator. destruct (chosen sol v); cbn [length].
    + rewrite Nat2Z.inj_succ. unfold Z.succ. rewrite inject_Z_plus. ring.
    + ring.
Qed.

Lemma holdsb_holds (a : Var -> Q) (c : Constr) :
  holdsb a c = true <-> holds a c.
Proof.
  unfold holdsb, holds. destruct (rel c).
  - apply Qle_bool_iff.
  - apply Qle_bool_iff.
  - apply Qeq_bool_iff.
Qed.

Lemma holds_ext (a a' : Var -> Q) (c : Constr) :
  (forall v, a v = a' v) -> holds a c -> holds a' c.
Proof.
  intros Hext. unfold holds. rewrite (eval_ext a a' _ Hext). trivial.
Qed.

(** ** Loops *)

Lemma for_each_app {A S} (xs ys : list A) (body : A -> S -> result S) (s : S) :
  for_each (xs ++ ys) body s = do s' <- for_each xs body s; for_each ys body s'.
Proof.
  revert s. induction xs as [|x xs IH]; intros s; simpl; [reflexivity|].
  destruct (body x s); simpl; [apply IH|reflexivity].
Qed.

Lemma filter_r_Ok {A} (keep : A -> result bool) (f : A -> bool) (xs r : list A) :
  (forall x b, In x xs -> keep x = Ok b -> b = f x) ->
  filter_r keep xs = Ok r -> r = List.filter f xs.
Proof.
  revert r. induction xs as [|x xs IH]; intros r Hk H; simpl in *.
  - congruence.
  - destruct (keep x) as [b|] eqn:Eb; simpl in H; [|discriminate].
    destruct (filter_r keep xs) as [r'|] eqn:Er; simpl in H; [|discriminate].
    injection H as <-.
    rewrite <- (Hk x b (or_introl eq_refl) Eb).
    rewrite (IH r'); auto.
Qed.

Lemma map_r_Ok {A B} (g : A -> result B) (f : A -> B) (xs : list A) (r : list B) :
  (forall x y, In x xs -> g x = Ok y -> y = f x) ->
  map_r g xs = Ok r -> r = map f xs.
Proof.
  revert r. induction xs as [|x xs IH]; intros r Hk H; simpl in *.
  - congruence.
  - destruct (g x) as [y|] eqn:Ey; simpl in H; [|discriminate].
    destruct (map_r g xs) as [r'|] eqn:Er; simpl in H; [|discriminate].
    injection H as <-.
    rewrite <- (Hk x y (or_introl eq_refl) Ey).
    rewrite (IH r'); auto.
Qed.

Lemma map_r_total {A B} (g : A -> result B) (f : A -> B) (xs : list A) :
  (forall x, In x xs -> g x = Ok (f x)) -> map_r g xs = Ok (map f xs).
Proof.
  induction xs as [|x xs IH]; intros Hk; simpl; [reflexivity|].
  rewrite (Hk x (or_introl eq_refl)). simpl.
  rewrite IH; [reflexivity|]. intros y Hy. apply Hk. right. exact Hy.
Qed.

Lemma filter_r_total {A} (keep : A -> result bool) (f : A -> bool) (xs : list A) :
  (forall x, In x xs -> keep x = Ok (f x)) ->
  filter_r keep xs = Ok (List.filter f xs).
Proof.
  induction xs as [|x xs IH]; intros Hk; simpl; [reflexivity|].
  rewrite (Hk x (or_introl eq_refl)). simpl.
  rewrite IH; [reflexivity|]. intros y Hy. apply Hk. right. exact Hy.
Qed.

(** ** The attribute heap *)

Lemma get_mip_var_Ok (o : oid) (h : Heap) (v : Var) :
  get_mip_var o h = Ok v <-> mip_var h !! o = Some v.
Proof.
  unfold get_mip_var. destruct (mip_var h !! o); split; congruence.
Qed.

Lemma get_mip_var_var_of (o : oid) (h : Heap) (v : Var) :
  get_mip_var o h = Ok v -> v = var_of (mip_var h) o.
Proof.
  intros H. apply get_mip_var_Ok in H. unfold var_of. rewrite H. reflexivity.
Qed.

Lemma get_mip_vars_Ok (o : oid) (h : Heap) (l : list Var) :
  get_mip_vars o h = Ok l <-> mip_vars h !! o = Some l.
Proof.
  unfold get_mip_vars. destruct (mip_vars h !! o); split; congruence.
Qed.

Lemma accumulated_app (log1 log2 : list (oid * Var)) (o : oid) :
  accumulated (log1 ++ log2) o = accumulated log1 o ++ accumulated log2 o.
Proof. unfold accumulated. rewrite List.filter_app, map_app. reflexivity. Qed.


Lemma append_all_app (log1 log2 : list (oid * Var)) (h : Heap) :
  append_all (log1 ++ log2) h = do h' <- append_all log1 h; append_all log2 h'.
Proof. apply for_each_app. Qed.

(** Appending touches no [mip_var], and extends each accumulator by the
    log's entries for that object. *)
Lemma append_all_Ok (log : list (oid * Var)) (h h' : Heap) :
  append_all log h = Ok h' ->
  mip_var h' = mip_var h
  /\ forall o, mip_vars h' !! o
               = (fun l => l ++ accumulated log o) <$> (mip_vars h !! o).
Proof.
  revert h. induction log as [|[o v] log IH]; intros h H.
  - injection H as <-. split; [reflexivity|]. intros o.
    destruct (mip_vars h !! o); simpl; [rewrite app_nil_r|]; reflexivity.
  - unfold append_all in H. simpl in H. unfold append_mip_vars in H at 1.
    destruct (get_mip_vars o h) as [l|] eqn:El; simpl in H; [|discriminate].
    apply get_mip_vars_Ok in El.
    apply IH in H. destruct H as [Hv Hl]. split; [rewrite Hv; reflexivity|].
    intros o'. rewrite Hl. unfold set_mip_vars; simpl.
    unfold accumulated; simpl.
    destruct (Nat.eqb_spec o o') as [->|Hne].
    + rewrite lookup_insert_eq, El. simpl. rewrite <- app_assoc. reflexivity.
    + rewrite lookup_insert_ne by exact Hne. reflexivity.
Qed.

Lemma append_all_total (log : list (oid * Var)) (h : Heap) :
  (forall e, In e log -> is_Some (mip_vars h !! fst e)) ->
  exists h', append_all log h = Ok h'.
Proof.
  revert h. induction log as [|[o v] log IH]; intros h Hs.
  - eexists. reflexivity.
  - unfold append_all. simpl. unfold append_mip_vars at 1.
    destruct (Hs (o, v) (or_introl eq_refl)) as [l El]. simpl in El.
    unfold get_mip_vars. rewrite El. simpl.
    apply IH. intros e He. unfold set_mip_vars; simpl.
    destruct (Nat.eqb_spec o (fst e)) as [->|Hne].
    + rewrite lookup_insert_eq. eauto.
    + rewrite lookup_insert_ne by exact Hne. apply Hs. right. exact He.
Qed.

(** ** The model builder, loop by loop *)

Lemma with_vars_id (h : Heap) : with_vars (mip_var h) h = h.
Proof. destruct h; reflexivity. Qed.

Lemma with_vars_twice (mv mv' : gmap oid Var) (h : Heap) :
  with_vars mv (with_vars mv' h) = with_vars mv h.
Proof. reflexivity. Qed.

Lemma append_all_with_vars (log : list (oid * Var)) (mv : gmap oid Var) (h : Heap) :
  append_all log (with_vars mv h)
  = do h2 <- append_all log h; Ok (with_vars mv h2).
Proof.
  revert h. induction log as [|[o v] log IH]; intros h.
  - reflexivity.
  - unfold append_all. simpl. unfold append_mip_vars at 1 3.
    unfold get_mip_vars. simpl.
    destruct (mip_vars h !! o) as [l|]; simpl; [|reflexivity].
    apply (IH (set_mip_vars o (l ++ [v]) h)).
Qed.

Lemma add_vars_nil (m : Model) : add_vars [] m = m.
Proof. destruct m. unfold add_vars. simpl. rewrite app_nil_r. reflexivity. Qed.

Lemma add_vars_add_vars (n1 n2 : list VarName) (m : Model) :
  add_vars n2 (add_vars n1 m) = add_vars (n1 ++ n2) m.
Proof. unfold add_vars. simpl. rewrite app_assoc. reflexivity. Qed.

Lemma reset_loop (os : list oid) (m : Model) (h : Heap) :
  for_each os (fun person '(model, h) => Ok (model, set_mip_vars person [] h))
    (m, h)
  = Ok (m, reset_all os h).
Proof.
  revert h. induction os as [|o os IH]; intros h; simpl; [reflexivity|].
  apply IH.
Qed.

Lemma reset_all_mip_var (os : list oid) (h : Heap) :
  mip_var (reset_all os h) = mip_var h.
Proof.
  revert h. induction os as [|o os IH]; intros h; simpl; [reflexivity|].
  rewrite IH. reflexivity.
Qed.

Lemma reset_all_in (os : list oid) (h : Heap) (o : oid) :
  In o os -> mip_vars (reset_all os h) !! o = Some [].
Proof.
  revert h. induction os as [|o' os IH]; intros h Hin; [destruct Hin|].
  simpl. destruct (in_dec Nat.eq_dec o os) as [Hi|Hni].
  - apply IH. exact Hi.
  - destruct Hin as [->|Hi]; [|contradiction].
    clear IH. revert h. induction os as [|o2 os IH2]; intros h; simpl.
    + apply lookup_insert_eq.
    + assert (Hne : o2 <> o) by (intros ->; apply Hni; left; reflexivity).
      assert (Hni' : ~ In o os) by (intros Hi; apply Hni; right; exact Hi).
      replace (set_mip_vars o2 [] (set_mip_vars o [] h))
        with (set_mip_vars o [] (set_mip_vars o2 [] h)).
      * apply IH2. exact Hni'.
      * unfold set_mip_vars. simpl. f_equal.
        apply insert_insert_ne. congruence.
Qed.

Lemma create_loop {A} (name : A -> VarName) (oid_of : A -> oid)
    (xs : list A) (m : Model) (h : Heap) :
  for_each xs
    (fun x '(model, h) =>
       let '(v, model) := addVar (name x) model in
       Ok (model, set_mip_var (oid_of x) v h))
    (m, h)
  = Ok (add_vars (map name xs) m,
        with_vars (assign_vars (map oid_of xs) (length (vars m)) (mip_var h)) h).
Proof.
  revert m h. induction xs as [|x xs IH]; intros m h.
  - simpl. rewrite add_vars_nil, with_vars_id. reflexivity.
  - cbn [for_each map assign_vars]. unfold addVar at 1. cbn [bind].
    rewrite IH. cbn [vars mip_var set_mip_var].
    rewrite length_app. cbn [length]. rewrite Nat.add_1_r.
    f_equal. f_equal.
    unfold add_vars. simpl. rewrite <- app_assoc. reflexivity.
Qed.

Lemma altruist_loop (alts : list Altruist) (m : Model) (h : Heap) :
  for_each alts
    (fun altruist '(model, h) =>
       let '(v, model) := addVar (altruist_name (nhs_id altruist)) model in
       let h := set_mip_var (altruist_oid altruist) v h in
       do v <- get_mip_var (altruist_oid altruist) h;
       do h <- append_mip_vars (altruist_oid altruist) v h;
       Ok (model, h))
    (m, h)
  = do h2 <- append_all (altruist_entries (length (vars m)) alts) h;
    Ok (add_vars (map (fun a => altruist_name (nhs_id a)) alts) m,
        with_vars
          (assign_vars (map altruist_oid alts) (length (vars m)) (mip_var h))
          h2).
Proof.
  match goal with |- for_each _ ?f _ = _ => set (F := f) end.
  revert m h. induction alts as [|a alts IH]; intros m h.
  - simpl. rewrite add_vars_nil, with_vars_id. reflexivity.
  - cbn [for_each altruist_entries map assign_vars].
    assert (HF : F a (m, h)
                 = do l <- get_mip_vars (altruist_oid a) h;
                   Ok (add_vars [altruist_name (nhs_id a)] m,
                       with_vars (<[altruist_oid a := length (vars m)]> (mip_var h))
                         (set_mip_vars (altruist_oid a) (l ++ [length (vars m)]) h))).
    { unfold F, addVar, get_mip_var, append_mip_vars, get_mip_vars. simpl.
      rewrite lookup_insert_eq. simpl.
      destruct (mip_vars h !! altruist_oid a); reflexivity. }
    rewrite HF. clear HF.
    unfold append_all at 1. cbn [for_each]. unfold append_mip_vars at 1.
    destruct (get_mip_vars (altruist_oid a) h) as [l|]; cbn [bind];
      [|reflexivity].
    rewrite IH. cbn [vars add_vars mip_var with_vars].
    rewrite length_app. cbn [length]. rewrite Nat.add_1_r.
    rewrite append_all_with_vars.
    fold (append_all (altruist_entries (S (length (vars m))) alts)
            (set_mip_vars (altruist_oid a) (l ++ [length (vars m)]) h)).
    destruct (append_all (altruist_entries (S (length (vars m))) alts)
                (set_mip_vars (altruist_oid a) (l ++ [length (vars m)]) h))
      as [h2|]; cbn [bind]; [|reflexivity].
    f_equal. f_equal.
    unfold add_vars. simpl. rewrite <- app_assoc. reflexivity.
Qed.

Lemma add_var_to_patients_and_donors_log (pd_pairs : list PdPair) (v : Var)
    (h : Heap) :
  _add_var_to_patients_and_donors pd_pairs v h
  = append_all (flat_map (pd_entries v) pd_pairs) h.
Proof.
  unfold _add_var_to_patients_and_donors. revert h.
  induction pd_pairs as [|pd pds IH]; intros h; [reflexivity|].
  cbn [flat_map for_each]. rewrite append_all_app.
  unfold pd_entries at 1.
  destruct (1 <? length (paired_patients (donor pd)))%nat;
    unfold append_all; cbn [for_each];
    destruct (append_mip_vars (patient_oid (patient pd)) v h) as [h1|];
    cbn [bind]; try reflexivity.
  - destruct (append_mip_vars (donor_oid (donor pd)) v h1) as [h2|];
      cbn [bind]; [apply IH|reflexivity].
  - apply IH.
Qed.

Lemma chain_loop (cs : list Chain) (m : Model) (h : Heap) :
  (forall c, In c cs -> is_Some (mip_var h !! chain_oid c)) ->
  for_each cs
    (fun chain '(model, h) =>
       do v <- get_mip_var (chain_oid chain) h;
       do h <- append_mip_vars
                 (altruist_oid (altruist (altruist_edge chain))) v h;
       do v <- get_mip_var (chain_oid chain) h;
       do h <- _add_var_to_patients_and_donors (chain_pd_pairs chain) v h;
       Ok (model, h))
    (m, h)
  = do h2 <- append_all (flat_map (chain_entries (mip_var h)) cs) h;
    Ok (m, h2).
Proof.
  intros Hs. match goal with |- for_each _ ?f _ = _ => set (F := f) end.
  revert h Hs. induction cs as [|c cs IH]; intros h Hs; [reflexivity|].
  cbn [for_each flat_map]. rewrite append_all_app.
  destruct (Hs c (or_introl eq_refl)) as [v Ev].
  assert (HF : F c (m, h)
               = do h2 <- append_all (chain_entries (mip_var h) c) h; Ok (m, h2)).
  { unfold F, chain_entries, var_of. rewrite Ev. simpl.
    unfold get_mip_var at 1. rewrite Ev. cbn [bind].
    unfold append_all. cbn [for_each].
    destruct (append_mip_vars (altruist_oid (altruist (altruist_edge c))) v h)
      as [h1|] eqn:E1; cbn [bind]; [|reflexivity].
    assert (Hv1 : mip_var h1 = mip_var h).
    { unfold append_mip_vars in E1.
      destruct (get_mip_vars _ h); cbn [bind] in E1; [|discriminate].
      injection E1 as <-. reflexivity. }
    unfold get_mip_var. rewrite Hv1, Ev. cbn [bind].
    rewrite add_var_to_patients_and_donors_log. reflexivity. }
  rewrite HF. clear HF.
  destruct (append_all (chain_entries (mip_var h) c) h) as [h2|] eqn:E2;
    cbn [bind]; [|reflexivity].
  apply append_all_Ok in E2. destruct E2 as [Hv2 _].
  rewrite IH.
  - rewrite Hv2. reflexivity.
  - intros c' Hc'. rewrite Hv2. apply Hs. right. exact Hc'.
Qed.

Lemma cycle_loop (cs : list Cycle) (m : Model) (h : Heap) :
  (forall c, In c cs -> is_Some (mip_var h !! cycle_oid c)) ->
  for_each cs
    (fun cycle '(model, h) =>
       do v <- get_mip_var (cycle_oid cycle) h;
       do h <- _add_var_to_patients_and_donors (cycle_pd_pairs cycle) v h;
       Ok (model, h))
    (m, h)
  = do h2 <- append_all (flat_map (cycle_entries (mip_var h)) cs) h;
    Ok (m, h2).
Proof.
  intros Hs. match goal with |- for_each _ ?f _ = _ => set (F := f) end.
  revert h Hs. induction cs as [|c cs IH]; intros h Hs; [reflexivity|].
  cbn [for_each flat_map]. rewrite append_all_app.
  destruct (Hs c (or_introl eq_refl)) as [v Ev].
  assert (HF : F c (m, h)
               = do h2 <- append_all (cycle_entries (mip_var h) c) h; Ok (m, h2)).
  { unfold F, cycle_entries, var_of. rewrite Ev. simpl.
    unfold get_mip_var at 1. rewrite Ev. cbn [bind].
    rewrite add_var_to_patients_and_donors_log. reflexivity. }
  rewrite HF. clear HF.
  destruct (append_all (cycle_entries (mip_var h) c) h) as [h2|] eqn:E2;
    cbn [bind]; [|reflexivity].
  apply append_all_Ok in E2. destruct E2 as [Hv2 _].
  rewrite IH.
  - rewrite Hv2. reflexivity.
  - intros c' Hc'. rewrite Hv2. apply Hs. right. exact Hc'.
Qed.

Lemma constr_loop (r : Relation) (os : list oid) (m : Model) (h : Heap) :
  for_each os
    (fun person '(model, h) =>
       do l <- get_mip_vars person h;
       Ok (addConstr {| lhs := quicksum_vars l; rel := r; rhs := 1 |} model, h))
    (m, h)
  = do ls <- map_r (fun o => get_mip_vars o h) os;
    Ok (add_constrs
          (map (fun l => {| lhs := quicksum_vars l; rel := r; rhs := 1 |}) ls) m,
        h).
Proof.
  match goal with |- for_each _ ?f _ = _ => set (F := f) end.
  revert m. induction os as [|o os IH]; intros m.
  - simpl. unfold add_constrs. simpl. rewrite app_nil_r. destruct m; reflexivity.
  - cbn [for_each map_r].
    assert (HF : F o (m, h)
                 = do l <- get_mip_vars o h;
                   Ok (addConstr {| lhs := quicksum_vars l; rel := r; rhs := 1 |} m,
                       h)) by reflexivity.
    rewrite HF. clear HF.
    destruct (get_mip_vars o h) as [l|]; cbn [bind]; [|reflexivity].
    rewrite IH.
    destruct (map_r (fun o => get_mip_vars o h) os) as [ls|]; cbn [bind];
      [|reflexivity].
    unfold add_constrs, addConstr. simpl. rewrite <- app_assoc. reflexivity.
Qed.

(** ** Variable handles *)

Lemma assign_vars_notin (os : list oid) (first : Var) (mv : gmap oid Var) (o : oid) :
  ~ In o os -> assign_vars os first mv !! o = mv !! o.
Proof.
  revert first mv. induction os as [|o' os IH]; intros first mv Hni; simpl.
  - reflexivity.
  - rewrite IH by (intros Hi; apply Hni; right; exact Hi).
    apply lookup_insert_ne. intros ->. apply Hni. left. reflexivity.
Qed.

Lemma assign_vars_keeps (os : list oid) (first : Var) (mv : gmap oid Var) (o : oid) :
  is_Some (mv !! o) -> is_Some (assign_vars os first mv !! o).
Proof.
  revert first mv. induction os as [|o' os IH]; intros first mv Hs; simpl.
  - exact Hs.
  - apply IH. destruct (Nat.eq_dec o' o) as [->|Hne].
    + rewrite lookup_insert_eq. eauto.
    + rewrite lookup_insert_ne by exact Hne. exact Hs.
Qed.

Lemma assign_vars_in (os : list oid) (first : Var) (mv : gmap oid Var) (o : oid) :
  In o os -> is_Some (assign_vars os first mv !! o).
Proof.
  revert first mv. induction os as [|o' os IH]; intros first mv Hi; simpl.
  - destruct Hi.
  - destruct Hi as [->|Hi].
    + apply assign_vars_keeps. rewrite lookup_insert_eq. eauto.
    + apply IH. exact Hi.
Qed.

Lemma assign_vars_nth (os : list oid) (first : Var) (mv : gmap oid Var)
    (i : nat) (o : oid) :
  List.NoDup os -> nth_error os i = Some o ->
  assign_vars os first mv !! o = Some (first + i)%nat.
Proof.
  revert first mv i. induction os as [|o' os IH]; intros first mv i Hnd Hi.
  - destruct i; discriminate.
  - apply NoDup_cons_iff in Hnd. destruct Hnd as [Hni Hnd].
    destruct i as [|i]; simpl in *.
    + injection Hi as ->. rewrite assign_vars_notin by exact Hni.
      rewrite lookup_insert_eq. f_equal. lia.
    + rewrite (IH (S first) _ i Hnd Hi). f_equal. lia.
Qed.

Lemma created_vars_chain (self : PoolOptimiser) (alts : list Altruist)
    (first : Var) (mv : gmap oid Var) (c : Chain) :
  In c (chains self) ->
  is_Some (created_vars self alts first mv !! chain_oid c).
Proof.
  intros Hc. unfold created_vars. do 2 apply assign_vars_keeps.
  apply assign_vars_in. apply in_map. exact Hc.
Qed.

Lemma created_vars_cycle (self : PoolOptimiser) (alts : list Altruist)
    (first : Var) (mv : gmap oid Var) (c : Cycle) :
  In c (cycles self) ->
  is_Some (created_vars self alts first mv !! cycle_oid c).
Proof.
  intros Hc. unfold created_vars. apply assign_vars_keeps.
  apply assign_vars_in. apply in_map. exact Hc.
Qed.

Lemma created_vars_altruist (self : PoolOptimiser) (alts : list Altruist)
    (first : Var) (mv : gmap oid Var) (a : Altruist) :
  In a alts ->
  is_Some (created_vars self alts first mv !! altruist_oid a).
Proof.
  intros Ha. unfold created_vars. apply assign_vars_in. apply in_map. exact Ha.
Qed.

(** ** The model builder as a whole *)

Lemma create_closed_form (self : PoolOptimiser) (m : Model)
    (pats : list Patient) (dons : list Donor) (alts : list Altruist) (h : Heap) :
  _create_vars_and_constraints self m pats dons alts h
  = let mv := created_vars self alts (length (vars m)) (mip_var h) in
    do h2 <- append_all (append_log self alts (length (vars m)) mv)
               (reset_all (persons pats dons alts) h);
    do lp <- map_r (fun o => get_mip_vars o h2)
               (map patient_oid pats ++ map donor_oid dons);
    do la <- map_r (fun o => get_mip_vars o h2) (map altruist_oid alts);
    Ok (add_constrs
          (map (fun l => {| lhs := quicksum_vars l; rel := LE; rhs := 1 |}) lp
             ++ map (fun l => {| lhs := quicksum_vars l; rel := EQ; rhs := 1 |}) la)
          (add_vars (created_names self alts) m),
        with_vars mv h2).
Proof.
  unfold _create_vars_and_constraints.
  rewrite reset_loop. cbn [bind].
  pose proof (create_loop (fun c => chain_name (chain_index c)) chain_oid) as H1.
  cbv beta in H1. rewrite H1. clear H1. cbn [bind].
  pose proof (create_loop (fun c => cycle_name (cycle_index c)) cycle_oid) as H1.
  cbv beta in H1. rewrite H1. clear H1. cbn [bind].
  rewrite altruist_loop.
  cbn [vars add_vars mip_var with_vars].
  rewrite !length_app, !length_map, reset_all_mip_var.
  fold (created_vars self alts (length (vars m)) (mip_var h)).
  set (mv := created_vars self alts (length (vars m)) (mip_var h)).
  set (h1 := reset_all (persons pats dons alts) h).
  rewrite with_vars_twice.
  rewrite append_all_with_vars.
  unfold append_log. rewrite !append_all_app.
  destruct (append_all (altruist_entries _ alts) h1) as [h2|] eqn:E2;
    cbn [bind]; [|reflexivity].
  rewrite with_vars_twice, append_all_app.
  rewrite chain_loop
    by (intros c Hc; apply created_vars_chain; exact Hc).
  cbn [mip_var with_vars]. fold (with_vars mv h2).
  rewrite append_all_with_vars.
  destruct (append_all (flat_map (chain_entries mv) (chains self)) h2)
    as [h3|] eqn:E3; cbn [bind]; [|reflexivity].
  rewrite cycle_loop
    by (intros c Hc; apply created_vars_cycle; exact Hc).
  cbn [mip_var with_vars]. fold (with_vars mv h3).
  rewrite append_all_with_vars.
  destruct (append_all (flat_map (cycle_entries mv) (cycles self)) h3)
    as [h4|] eqn:E4; cbn [bind]; [|reflexivity].
  rewrite constr_loop.
  change (fun o => get_mip_vars o (with_vars mv h4))
    with (fun o => get_mip_vars o h4).
  destruct (map_r (fun o => get_mip_vars o h4)
              (map patient_oid pats ++ map donor_oid dons)) as [lp|];
    cbn [bind]; [|reflexivity].
  rewrite constr_loop.
  change (fun o => get_mip_vars o (with_vars mv h4))
    with (fun o => get_mip_vars o h4).
  destruct (map_r (fun o => get_mip_vars o h4) (map altruist_oid alts))
    as [la|]; cbn [bind]; [|reflexivity].
  f_equal. f_equal.
  unfold add_constrs, add_vars, created_names. cbn [vars constrs objective modelSense].
  rewrite <- !app_assoc. reflexivity.
Qed.

Lemma reset_then_append (log : list (oid * Var)) (os : list oid) (h h2 : Heap) :
  append_all log (reset_all os h) = Ok h2 ->
  forall o, In o os -> mip_vars h2 !! o = Some (accumulated log o).
Proof.
  intros H o Ho. apply append_all_Ok in H. destruct H as [_ Hl].
  rewrite Hl, (reset_all_in os h o Ho). reflexivity.
Qed.

(** What a successful model construction returns. *)
Lemma create_spec (self : PoolOptimiser) (m : Model)
    (pats : list Patient) (dons : list Donor) (alts : list Altruist)
    (h : Heap) (m' : Model) (h' : Heap) :
  _create_vars_and_constraints self m pats dons alts h = Ok (m', h') ->
  let mv := created_vars self alts (length (vars m)) (mip_var h) in
  let log := append_log self alts (length (vars m)) mv in
  vars m' = vars m ++ created_names self alts
  /\ constrs m' = constrs m ++ created_constrs pats dons alts (accumulated log)
  /\ objective m' = objective m
  /\ modelSense m' = modelSense m
  /\ mip_var h' = mv
  /\ forall o, In o (persons pats dons alts) ->
               mip_vars h' !! o = Some (accumulated log o).
Proof.
  rewrite create_closed_form. cbv zeta.
  set (mv := created_vars self alts (length (vars m)) (mip_var h)).
  set (log := append_log self alts (length (vars m)) mv).
  destruct (append_all log _) as [h2|] eqn:E2; cbn [bind]; [|discriminate].
  pose proof (reset_then_append _ _ _ _ E2) as Hacc.
  destruct (map_r _ (map patient_oid pats ++ map donor_oid dons)) as [lp|] eqn:Ep;
    cbn [bind]; [|discriminate].
  destruct (map_r _ (map altruist_oid alts)) as [la|] eqn:Ea;
    cbn [bind]; [|discriminate].
  intros H. injection H as <- <-.
  apply (map_r_Ok _ (accumulated log)) in Ep.
  2:{ intros o y Ho Hy. apply get_mip_vars_Ok in Hy.
      rewrite Hacc in Hy; [congruence|].
      unfold persons. rewrite app_assoc. apply in_or_app. left. exact Ho. }
  apply (map_r_Ok _ (accumulated log)) in Ea.
  2:{ intros o y Ho Hy. apply get_mip_vars_Ok in Hy.
      rewrite Hacc in Hy; [congruence|].
      unfold persons. apply in_or_app. right. apply in_or_app. right. exact Ho. }
  subst lp la. cbn [vars constrs objective modelSense add_constrs add_vars
                    mip_var mip_vars with_vars].
  repeat split; try reflexivity.
  - unfold created_constrs. rewrite !map_map. reflexivity.
  - exact Hacc.
Qed.

Lemma pd_entries_fst (v v' : Var) (pds : list PdPair) :
  map fst (flat_map (pd_entries v) pds) = map fst (flat_map (pd_entries v') pds).
Proof.
  induction pds as [|pd pds IH]; [reflexivity|].
  cbn [flat_map]. rewrite !map_app, IH. f_equal.
  unfold pd_entries. destruct (1 <? _)%nat; reflexivity.
Qed.

Lemma chain_entries_fst (mv mv' : gmap oid Var) (cs : list Chain) :
  map fst (flat_map (chain_entries mv) cs)
  = map fst (flat_map (chain_entries mv') cs).
Proof.
  induction cs as [|c cs IH]; [reflexivity|].
  cbn [flat_map]. rewrite !map_app, IH. f_equal.
  unfold chain_entries. cbn [map fst]. f_equal. apply pd_entries_fst.
Qed.

Lemma cycle_entries_fst (mv mv' : gmap oid Var) (cs : list Cycle) :
  map fst (flat_map (cycle_entries mv) cs)
  = map fst (flat_map (cycle_entries mv') cs).
Proof.
  induction cs as [|c cs IH]; [reflexivity|].
  cbn [flat_map]. rewrite !map_app, IH. f_equal.
  unfold cycle_entries. apply pd_entries_fst.
Qed.

Lemma altruist_entries_fst (first : Var) (alts : list Altruist) :
  map fst (altruist_entries first alts) = map altruist_oid alts.
Proof.
  revert first. induction alts as [|a alts IH]; intros first; [reflexivity|].
  simpl. rewrite IH. reflexivity.
Qed.

Lemma references_pool_in (self : PoolOptimiser) (pats : list Patient)
    (dons : list Donor) (alts : list Altruist) (first : Var)
    (mv : gmap oid Var) (e : oid * Var) :
  references_pool self pats dons alts = true ->
  In e (append_log self alts first mv) ->
  In (fst e) (persons pats dons alts).
Proof.
  intros Href He. apply (in_map fst) in He.
  unfold append_log in He. rewrite !map_app in He.
  rewrite altruist_entries_fst in He.
  apply in_app_or in He. destruct He as [He|He].
  - unfold persons. apply in_or_app. right. apply in_or_app. right. exact He.
  - rewrite (chain_entries_fst mv ∅), (cycle_entries_fst mv ∅) in He.
    rewrite <- map_app in He. apply in_map_iff in He.
    destruct He as [e' [Hfst He']].
    unfold references_pool in Href. rewrite forallb_forall in Href.
    specialize (Href e' He'). apply existsb_exists in Href.
    destruct Href as [o [Ho Heq]]. apply Nat.eqb_eq in Heq.
    rewrite <- Hfst, Heq. exact Ho.
Qed.

(** Model construction succeeds when the candidates only touch persons of
    the pool. *)
Lemma create_total (self : PoolOptimiser) (m : Model)
    (pats : list Patient) (dons : list Donor) (alts : list Altruist) (h : Heap) :
  references_pool self pats dons alts = true ->
  exists m' h', _create_vars_and_constraints self m pats dons alts h = Ok (m', h').
Proof.
  intros Href. rewrite create_closed_form. cbv zeta.
  set (mv := created_vars self alts (length (vars m)) (mip_var h)).
  set (log := append_log self alts (length (vars m)) mv).
  destruct (append_all_total log (reset_all (persons pats dons alts) h))
    as [h2 E2].
  { intros e He. rewrite reset_all_in; [eauto|].
    eapply references_pool_in; eassumption. }
  rewrite E2. cbn [bind].
  pose proof (reset_then_append _ _ _ _ E2) as Hacc.
  rewrite (map_r_total _ (accumulated log)).
  2:{ intros o Ho. apply get_mip_vars_Ok. apply Hacc.
      unfold persons. rewrite app_assoc. apply in_or_app. left. exact Ho. }
  cbn [bind].
  rewrite (map_r_total _ (accumulated log)).
  2:{ intros o Ho. apply get_mip_vars_Ok. apply Hacc.
      unfold persons. apply in_or_app. right. apply in_or_app. right. exact Ho. }
  cbn [bind]. eauto.
Qed.

(** ** Reading the selection off a solution *)

Lemma items_in_optimal_solution_Ok {A} (oid_of : A -> oid) (h : Heap)
    (sol : Solution) (items r : list A) :
  _items_in_optimal_solution oid_of h sol items = Ok r ->
  r = List.filter (fun x => chosen_at h sol (oid_of x)) items.
Proof.
  apply filter_r_Ok. intros x b _ Hk.
  destruct (get_mip_var (oid_of x) h) as [v|] eqn:Ev; cbn [bind] in Hk;
    [|discriminate].
  injection Hk as <-. unfold chosen_at.
  rewrite <- (get_mip_var_var_of _ _ _ Ev). reflexivity.
Qed.

Lemma optimal_selection_Ok (self : PoolOptimiser) (h : Heap) (sol : Solution)
    (items : list Item) (optimal_vars : list Var) :
  optimal_selection self h sol = Ok (items, optimal_vars) ->
  items = map chain_item
            (List.filter (fun c => chosen_at h sol (chain_oid c)) (chains self))
          ++ map cycle_item
               (List.filter (fun c => chosen_at h sol (cycle_oid c)) (cycles self))
          ++ map altruist_item
               (List.filter (fun a => chosen_at h sol (altruist_oid a))
                  (altruists (pool self)))
  /\ map_r (fun o => get_mip_var (item_oid o) h) items = Ok optimal_vars
  /\ optimal_vars = map (fun o => var_of (mip_var h) (item_oid o)) items.
Proof.
  unfold optimal_selection. intros H.
  destruct (_items_in_optimal_solution chain_oid h sol (chains self))
    as [oc|] eqn:Ec; cbn [bind] in H; [|discriminate].
  destruct (_items_in_optimal_solution cycle_oid h sol (cycles self))
    as [oy|] eqn:Ey; cbn [bind] in H; [|discriminate].
  destruct (_items_in_optimal_solution altruist_oid h sol (altruists (pool self)))
    as [oa|] eqn:Ea; cbn [bind] in H; [|discriminate].
  destruct (map_r _ _) as [ov|] eqn:Ev in H; cbn [bind] in H; [|discriminate].
  injection H as <- <-.
  apply items_in_optimal_solution_Ok in Ec, Ey, Ea. subst oc oy oa.
  split; [reflexivity|]. split; [exact Ev|].
  eapply map_r_Ok; [|exact Ev].
  intros x y _ Hy. apply get_mip_var_var_of. exact Hy.
Qed.

Lemma items_all_chosen (self : PoolOptimiser) (h : Heap) (sol : Solution)
    (items : list Item) (optimal_vars : list Var) :
  optimal_selection self h sol = Ok (items, optimal_vars) ->
  count (chosen sol) optimal_vars = length optimal_vars.
Proof.
  intros H. apply optimal_selection_Ok in H. destruct H as [Hi [_ Hv]].
  assert (Hall : forall i, In i items -> chosen_at h sol (item_oid i) = true).
  { intros i. rewrite Hi. rewrite !in_app_iff, !in_map_iff.
    intros [[c [<- Hc]]|[[c [<- Hc]]|[a [<- Ha]]]];
      apply List.filter_In in Hc || apply List.filter_In in Ha; tauto. }
  rewrite Hv. clear Hi Hv. unfold count.
  induction items as [|i items IH]; [reflexivity|].
  cbn [map List.filter]. fold (chosen_at h sol (item_oid i)).
  rewrite (Hall i (or_introl eq_refl)). cbn [length]. f_equal.
  apply IH. intros j Hj. apply Hall. right. exact Hj.
Qed.

(** No 0/1 reading of a solution satisfies the cut of its own selection. *)
Lemma no_good_cut_excludes (sol : Solution) (optimal_vars : list Var) :
  count (chosen sol) optimal_vars = length optimal_vars ->
  ~ holds (indicator sol) (no_good_cut optimal_vars).
Proof.
  intros Hall Hh. unfold holds, no_good_cut in Hh. cbn [rel lhs rhs] in Hh.
  rewrite eval_quicksum_vars, Hall in Hh.
  rewrite <- Zle_Qle in Hh. lia.
Qed.

(** ** Counting *)

Lemma count_app {A} (f : A -> bool) (l1 l2 : list A) :
  count f (l1 ++ l2) = (count f l1 + count f l2)%nat.
Proof. unfold count. rewrite List.filter_app, length_app. reflexivity. Qed.

Lemma count_map {A B} (g : A -> B) (f : B -> bool) (l : list A) :
  count f (map g l) = count (fun x => f (g x)) l.
Proof.
  unfold count. induction l as [|x l IH]; [reflexivity|].
  simpl. destruct (f (g x)); simpl; rewrite IH; reflexivity.
Qed.

Lemma count_filter {A} (f g : A -> bool) (l : list A) :
  count f (List.filter g l) = count (fun x => g x && f x) l.
Proof.
  unfold count. induction l as [|x l IH]; [reflexivity|].
  simpl. destruct (g x); simpl; [destruct (f x); simpl|]; rewrite IH; reflexivity.
Qed.

Lemma count_false {A} (f : A -> bool) (l : list A) :
  (forall x, In x l -> f x = false) -> count f l = 0%nat.
Proof.
  unfold count. induction l as [|x l IH]; intros H; [reflexivity|].
  simpl. rewrite (H x (or_introl eq_refl)). apply IH.
  intros y Hy. apply H. right. exact Hy.
Qed.

Lemma hits_accumulated (sol : Solution) (o : oid) (log : list (oid * Var)) :
  count (chosen sol) (accumulated log o) = hits sol o log.
Proof.
  unfold count, accumulated, hits. induction log as [|[o' v] log IH];
    [reflexivity|].
  simpl. destruct (o' =? o)%nat; simpl; [destruct (chosen sol v); simpl|];
    rewrite IH; reflexivity.
Qed.

Lemma hits_app (sol : Solution) (o : oid) (l1 l2 : list (oid * Var)) :
  hits sol o (l1 ++ l2) = (hits sol o l1 + hits sol o l2)%nat.
Proof. unfold hits. rewrite List.filter_app, length_app. reflexivity. Qed.

Lemma hits_in (sol : Solution) (o : oid) (v : Var) (log : list (oid * Var)) :
  In (o, v) log -> chosen sol v = true -> 1 <= hits sol o log.
Proof.
  intros Hin Hc. unfold hits. induction log as [|e log IH]; [destruct Hin|].
  simpl. destruct Hin as [->|Hin].
  - simpl. rewrite Nat.eqb_refl, Hc. simpl. lia.
  - specialize (IH Hin). destruct (_ && _); simpl; lia.
Qed.

Lemma hits_none (sol : Solution) (o : oid) (log : list (oid * Var)) :
  (forall e, In e log -> fst e <> o) -> hits sol o log = 0%nat.
Proof.
  intros H. unfold hits. induction log as [|e log IH]; [reflexivity|].
  simpl. destruct (Nat.eqb_spec (fst e) o) as [E|E].
  - exfalso. apply (H e); [left; reflexivity|exact E].
  - simpl. apply IH. intros e' He'. apply H. right. exact He'.
Qed.

Lemma has_patient_entry (o : oid) (v : Var) (i : Item) :
  has_patient o i = true ->
  In (o, v) (flat_map (pd_entries v) (item_pd_pairs i)).
Proof.
  unfold has_patient. rewrite existsb_exists. intros [pd [Hpd Ho]].
  apply Nat.eqb_eq in Ho. apply in_flat_map. exists pd. split; [exact Hpd|].
  unfold pd_entries. left. rewrite Ho. reflexivity.
Qed.

Lemma has_donor_entry (o : oid) (v : Var) (i : Item) :
  has_donor o i = true ->
  In (o, v) (flat_map (pd_entries v) (item_pd_pairs i)).
Proof.
  unfold has_donor. rewrite existsb_exists. intros [pd [Hpd Ho]].
  apply andb_true_iff in Ho. destruct Ho as [Ho Hm].
  apply Nat.eqb_eq in Ho. apply in_flat_map. exists pd. split; [exact Hpd|].
  unfold pd_entries. rewrite Hm. right. left. rewrite Ho. reflexivity.
Qed.

Lemma chain_hits (uses : oid -> Item -> bool) (h : Heap) (sol : Solution)
    (o : oid) (cs : list Chain) :
  logged uses ->
  count (uses o)
    (map chain_item (List.filter (fun c => chosen_at h sol (chain_oid c)) cs))
  <= hits sol o (flat_map (chain_entries (mip_var h)) cs).
Proof.
  intros Hl. rewrite count_map, count_filter. unfold count.
  induction cs as [|c cs IH]; [simpl; lia|].
  cbn [List.filter flat_map]. rewrite hits_app.
  destruct (chosen_at h sol (chain_oid c) && uses o (chain_item c)) eqn:E.
  - apply andb_true_iff in E. destruct E as [Hc Hu].
    cbn [length].
    assert (1 <= hits sol o (chain_entries (mip_var h) c)); [|lia].
    apply (hits_in sol o (var_of (mip_var h) (chain_oid c))); [|exact Hc].
    unfold chain_entries. right. apply (Hl o _ (chain_item c) Hu).
  - lia.
Qed.

Lemma cycle_hits (uses : oid -> Item -> bool) (h : Heap) (sol : Solution)
    (o : oid) (cs : list Cycle) :
  logged uses ->
  count (uses o)
    (map cycle_item (List.filter (fun c => chosen_at h sol (cycle_oid c)) cs))
  <= hits sol o (flat_map (cycle_entries (mip_var h)) cs).
Proof.
  intros Hl. rewrite count_map, count_filter. unfold count.
  induction cs as [|c cs IH]; [simpl; lia|].
  cbn [List.filter flat_map]. rewrite hits_app.
  destruct (chosen_at h sol (cycle_oid c) && uses o (cycle_item c)) eqn:E.
  - apply andb_true_iff in E. destruct E as [Hc Hu].
    cbn [length].
    assert (1 <= hits sol o (cycle_entries (mip_var h) c)); [|lia].
    apply (hits_in sol o (var_of (mip_var h) (cycle_oid c))); [|exact Hc].
    unfold cycle_entries. apply (Hl o _ (cycle_item c) Hu).
  - lia.
Qed.

(** The candidates printed for a person are bounded by the set variables
    in that person's accumulator. *)
Lemma selection_hits (uses : oid -> Item -> bool) (self : PoolOptimiser)
    (alts : list Altruist) (first : Var) (h : Heap) (sol : Solution)
    (items : list Item) (optimal_vars : list Var) (o : oid) :
  logged uses ->
  (forall a, uses o (altruist_item a) = false) ->
  optimal_selection self h sol = Ok (items, optimal_vars) ->
  count (uses o) items <= hits sol o (append_log self alts first (mip_var h)).
Proof.
  intros Hl Ha Hsel. apply optimal_selection_Ok in Hsel.
  destruct Hsel as [-> _]. unfold append_log.
  rewrite !count_app, !hits_app.
  pose proof (chain_hits uses h sol o (chains self) Hl).
  pose proof (cycle_hits uses h sol o (cycles self) Hl).
  rewrite (count_false (uses o) (map altruist_item _)).
  - lia.
  - intros x Hx. apply in_map_iff in Hx. destruct Hx as [a [<- _]]. apply Ha.
Qed.

Lemma distinct_NoDup (l : list oid) : distinct l = true -> List.NoDup l.
Proof.
  induction l as [|x l IH]; intros H; [constructor|].
  simpl in H. apply andb_true_iff in H. destruct H as [Hx Hl].
  constructor; [|apply IH; exact Hl].
  intros Hin. apply negb_true_iff in Hx.
  assert (existsb (Nat.eqb x) l = true); [|congruence].
  apply existsb_exists. exists x. split; [exact Hin|apply Nat.eqb_refl].
Qed.

Lemma pd_entries_apart (o : oid) (v : Var) (pds : list PdPair) :
  (forall e, In e (flat_map (pd_entries 0%nat) pds) -> fst e <> o) ->
  forall e, In e (flat_map (pd_entries v) pds) -> fst e <> o.
Proof.
  intros H e He. apply (in_map fst) in He.
  rewrite (pd_entries_fst v 0%nat) in He. apply in_map_iff in He.
  destruct He as [e' [<- He']]. apply H. exact He'.
Qed.

Lemma altruists_apart_pairs (self : PoolOptimiser) (a : Altruist) (e : oid * Var) :
  altruists_apart self = true ->
  In a (altruists (pool self)) -> In e (pair_entries self) ->
  fst e <> altruist_oid a.
Proof.
  unfold altruists_apart. intros H Ha He Heq.
  apply andb_true_iff in H. destruct H as [_ H].
  rewrite forallb_forall in H. specialize (H e He).
  apply negb_true_iff in H.
  assert (existsb (Nat.eqb (fst e)) (map altruist_oid (altruists (pool self)))
          = true); [|congruence].
  apply existsb_exists. exists (altruist_oid a).
  split; [apply in_map; exact Ha|apply Nat.eqb_eq; exact Heq].
Qed.

Lemma chain_hits_exact (h : Heap) (sol : Solution) (o : oid) (cs : list Chain) :
  (forall c e, In c cs -> In e (flat_map (pd_entries 0%nat) (chain_pd_pairs c)) ->
     fst e <> o) ->
  hits sol o (flat_map (chain_entries (mip_var h)) cs)
  = count (accounts_for o)
      (map chain_item (List.filter (fun c => chosen_at h sol (chain_oid c)) cs)).
Proof.
  intros Hap. rewrite count_map, count_filter. unfold count.
  induction cs as [|c cs IH]; [reflexivity|].
  cbn [List.filter flat_map]. rewrite hits_app.
  rewrite IH by (intros c' e Hc'; apply Hap; right; exact Hc').
  assert (Hc : hits sol o (chain_entries (mip_var h) c)
               = if chosen_at h sol (chain_oid c) && accounts_for o (chain_item c)
                 then 1%nat else 0%nat).
  { unfold chain_entries.
    change (?x :: ?l) with ([x] ++ l). rewrite hits_app.
    rewrite (hits_none sol o (flat_map _ _)).
    - unfold hits, chosen_at. cbn [List.filter fst snd accounts_for].
      rewrite andb_comm. destruct (_ && _); reflexivity.
    - apply pd_entries_apart. intros e He. apply (Hap c e); [left; reflexivity|exact He]. }
  rewrite Hc. destruct (_ && _); reflexivity.
Qed.

Lemma cycle_hits_exact (h : Heap) (sol : Solution) (o : oid) (cs : list Cycle) :
  (forall c e, In c cs -> In e (flat_map (pd_entries 0%nat) (cycle_pd_pairs c)) ->
     fst e <> o) ->
  hits sol o (flat_map (cycle_entries (mip_var h)) cs)
  = count (accounts_for o)
      (map cycle_item (List.filter (fun c => chosen_at h sol (cycle_oid c)) cs)).
Proof.
  intros Hap. rewrite count_map.
  rewrite (count_false _ (List.filter _ cs)) by reflexivity.
  apply hits_none. intros e He. apply in_flat_map in He.
  destruct He as [c [Hc He]]. unfold cycle_entries in He.
  revert e He. apply pd_entries_apart. intros e He. apply (Hap c e Hc He).
Qed.

Lemma altruist_entries_length (first : Var) (alts : list Altruist) :
  length (altruist_entries first alts) = length alts.
Proof.
  revert first. induction alts as [|a alts IH]; intros first; [reflexivity|].
  simpl. rewrite IH. reflexivity.
Qed.

Lemma altruist_entries_nth (alts : list Altruist) (first : Var) (i : nat)
    (a : Altruist) :
  nth_error alts i = Some a ->
  nth i (altruist_entries first alts) (0%nat, 0%nat)
  = (altruist_oid a, (first + i)%nat).
Proof.
  revert first i. induction alts as [|a' alts IH]; intros first i Ea.
  - destruct i; discriminate.
  - destruct i as [|i]; simpl in *.
    + injection Ea as ->. f_equal. lia.
    + rewrite (IH (S first) i Ea). f_equal. lia.
Qed.

Lemma altruist_entries_var_of (alts : list Altruist) (first : Var)
    (mv : gmap oid Var) :
  List.NoDup (map altruist_oid alts) ->
  altruist_entries first alts
  = map (fun a => (altruist_oid a,
                   var_of (assign_vars (map altruist_oid alts) first mv)
                     (altruist_oid a)))
      alts.
Proof.
  intros Hnd.
  set (f := fun a => (altruist_oid a,
                      var_of (assign_vars (map altruist_oid alts) first mv)
                        (altruist_oid a))).
  apply nth_ext with (d := (0%nat, 0%nat)) (d' := (0%nat, 0%nat)).
  - rewrite length_map. apply altruist_entries_length.
  - intros i Hi. rewrite altruist_entries_length in Hi.
    destruct (nth_error alts i) as [a|] eqn:Ea.
    2:{ apply nth_error_None in Ea. lia. }
    pose proof (altruist_entries_nth alts first i a Ea) as Hn.
    rewrite Hn.
    rewrite (nth_indep _ (0%nat, 0%nat) (f a))
      by (rewrite length_map; exact Hi).
    rewrite map_nth. rewrite (nth_error_nth _ _ _ Ea).
    unfold f. f_equal. unfold var_of.
    rewrite (assign_vars_nth _ first mv i (altruist_oid a) Hnd).
    + reflexivity.
    + rewrite nth_error_map, Ea. reflexivity.
Qed.

Lemma altruist_hits_exact (h : Heap) (sol : Solution) (o : oid)
    (alts : list Altruist) (first : Var) (mv : gmap oid Var) :
  List.NoDup (map altruist_oid alts) ->
  mip_var h = assign_vars (map altruist_oid alts) first mv ->
  hits sol o (altruist_entries first alts)
  = count (accounts_for o)
      (map altruist_item
         (List.filter (fun a => chosen_at h sol (altruist_oid a)) alts)).
Proof.
  intros Hnd Hmv. rewrite (altruist_entries_var_of alts first mv Hnd).
  rewrite <- Hmv. clear Hnd Hmv.
  rewrite count_map, count_filter. unfold hits, count.
  induction alts as [|a alts IH]; [reflexivity|].
  cbn [map List.filter fst snd accounts_for].
  fold (chosen_at h sol (altruist_oid a)). rewrite andb_comm.
  destruct (_ && _); cbn [length]; rewrite IH; reflexivity.
Qed.

Lemma selection_accounts (self : PoolOptimiser) (first : Var)
    (mv : gmap oid Var) (h : Heap) (sol : Solution) (items : list Item)
    (optimal_vars : list Var) (a : Altruist) :
  altruists_apart self = true ->
  mip_var h = created_vars self (altruists (pool self)) first mv ->
  optimal_selection self h sol = Ok (items, optimal_vars) ->
  In a (altruists (pool self)) ->
  count (accounts_for (altruist_oid a)) items
  = hits sol (altruist_oid a)
      (append_log self (altruists (pool self)) first (mip_var h)).
Proof.
  intros Hap Hmv Hsel Ha. apply optimal_selection_Ok in Hsel.
  destruct Hsel as [-> _]. unfold append_log.
  rewrite !count_app, !hits_app.
  rewrite <- chain_hits_exact, <- cycle_hits_exact.
  - rewrite <- (altruist_hits_exact h sol (altruist_oid a)
                  (altruists (pool self))
                  (first + length (chains self) + length (cycles self))
                  (assign_vars (map cycle_oid (cycles self))
                     (first + length (chains self))
                     (assign_vars (map chain_oid (chains self)) first mv))).
    + lia.
    + apply distinct_NoDup. unfold altruists_apart in Hap.
      apply andb_true_iff in Hap. tauto.
    + rewrite Hmv. unfold created_vars. reflexivity.
  - intros c e Hc He. apply (altruists_apart_pairs self a e Hap Ha).
    unfold pair_entries. apply in_or_app. right.
    apply in_flat_map. exists c. auto.
  - intros c e Hc He. apply (altruists_apart_pairs self a e Hap Ha).
    unfold pair_entries. apply in_or_app. left.
    apply in_flat_map. exists c. auto.
Qed.

Lemma holds_LE_count (sol : Solution) (acc : oid -> list Var) (o : oid) :
  holds (indicator sol) (person_constr LE acc o) ->
  count (chosen sol) (acc o) <= 1.
Proof.
  unfold holds, person_constr. cbn [rel lhs rhs].
  rewrite eval_quicksum_vars. change 1%Q with (inject_Z 1).
  rewrite <- Zle_Qle. lia.
Qed.

Lemma holds_EQ_count (sol : Solution) (acc : oid -> list Var) (o : oid) :
  holds (indicator sol) (person_constr EQ acc o) ->
  count (chosen sol) (acc o) = 1%nat.
Proof.
  unfold holds, person_constr. cbn [rel lhs rhs].
  rewrite eval_quicksum_vars. change 1%Q with (inject_Z 1).
  rewrite inject_Z_injective. lia.
Qed.

Lemma split_after_prefix (evs1 evs2 pre post : list Event) (items : list Item) :
  (forall i, ~ In (EvPrint i) evs1) ->
  evs1 ++ evs2 = pre ++ EvPrint items :: post ->
  exists pre2, pre = evs1 ++ pre2 /\ evs2 = pre2 ++ EvPrint items :: post.
Proof.
  revert pre. induction evs1 as [|e evs1 IH]; intros pre Hno H.
  - exists pre. auto.
  - destruct pre as [|e' pre].
    + simpl in H. injection H as -> _. exfalso.
      apply (Hno items). left. reflexivity.
    + simpl in H. injection H as -> H.
      destruct (IH pre) as [pre2 [-> ->]]; [|exact H|].
      * intros i Hi. apply (Hno i). right. exact Hi.
      * exists pre2. auto.
Qed.

Lemma removelast_length {A} (l : list A) :
  length (removelast l) = (length l - 1)%nat.
Proof.
  rewrite removelast_firstn_len, length_firstn. lia.
Qed.


(** ** The loops of solve *)

Section Loops.

Variable optimize : Model -> Solution.

Lemma optimise_Ok (self : PoolOptimiser) (model : Model) (c : OptCriterion)
    (h : Heap) (z : LinExpr) (model' : Model) (sol : Solution) :
  _optimise optimize self model c h = Ok (z, model', sol) ->
  objective_of self c h = Ok z
  /\ model' = setObjective z (sense_of c) model
  /\ sol = optimize model'.
Proof.
  unfold _optimise. destruct (objective_of self c h) as [z'|];
    cbn [bind]; [|discriminate].
  intros H. injection H as <- <- <-. auto.
Qed.

Lemma last_r_Ok {A} (l : list A) (x : A) : last_r l = Ok x <-> last l = Some x.
Proof. unfold last_r. destruct (last l); split; congruence. Qed.

(** The shapes one turn of the loop can take. *)
Lemma enumerate_body_shape (self : PoolOptimiser) (h : Heap)
    (cs : list OptCriterion) (max_solutions : Z) (model : Model)
    (n : nat) (best : Q) (evs : list Event) (nx : Next) :
  enumerate_body optimize self h cs max_solutions model n best = (evs, nx) ->
  (evs = [] /\ exists e, nx = Break (Raised e))
  \/ exists c z,
       last cs = Some c /\ objective_of self c h = Ok z
       /\ let m' := setObjective z (sense_of c) model in
          (evs = [EvOptimize m'] /\ exists s, nx = Break s)
          \/ exists items optimal_vars,
               status (optimize m') = OPTIMAL
               /\ optimal_selection self h (optimize m')
                  = Ok (items, optimal_vars)
               /\ evs = [EvOptimize m'; EvPrint items]
               /\ ((exists s, nx = Break s)
                   \/ nx = Continue (addConstr (no_good_cut optimal_vars) m')
                             (S n) (objVal (optimize m'))).
Proof.
  unfold enumerate_body, try. intros H.
  destruct (last_r cs) as [c|] eqn:Ec.
  2:{ injection H as <- <-. left. eauto. }
  apply last_r_Ok in Ec.
  destruct (_optimise optimize self model c h) as [[[z m'] sol]|] eqn:Eo.
  2:{ injection H as <- <-. left. eauto. }
  apply optimise_Ok in Eo. destruct Eo as [Ez [-> ->]].
  right. exists c, z. split; [exact Ec|]. split; [exact Ez|]. cbv zeta.
  set (m' := setObjective z (sense_of c) model) in *.
  destruct (Status_eqb (status (optimize m')) INF_OR_UNBD
            || Status_eqb (status (optimize m')) INFEASIBLE).
  { injection H as <- <-. left. eauto. }
  destruct (Status_eqb (status (optimize m')) OPTIMAL) eqn:Es; cbn [negb] in H.
  2:{ injection H as <- <-. left. eauto. }
  apply Status_eqb_eq in Es.
  destruct (Qltb (objVal (optimize m') + EPSILON) best).
  { injection H as <- <-. left. eauto. }
  destruct (optimal_selection self h (optimize m')) as [[items ov]|] eqn:Esel.
  2:{ injection H as <- <-. left. eauto. }
  right. exists items, ov. split; [exact Es|]. split; [reflexivity|].
  destruct (Z.of_nat (S n) =? max_solutions)%Z.
  { injection H as <- <-. split; [reflexivity|]. left. eauto. }
  destruct (length ov =? 0)%nat.
  { injection H as <- <-. split; [reflexivity|]. left. eauto. }
  injection H as <- <-. split; [reflexivity|]. right. reflexivity.
Qed.

Lemma enumerate_step (fuel : nat) (self : PoolOptimiser) (h : Heap)
    (cs : list OptCriterion) (max_solutions : Z) (model : Model)
    (n : nat) (best : Q) (evs : list Event) (s : Stop) :
  enumerate optimize (S fuel) self h cs max_solutions model n best = (evs, s) ->
  exists evs_b nx,
    enumerate_body optimize self h cs max_solutions model n best = (evs_b, nx)
    /\ ((nx = Break s /\ evs = evs_b)
        \/ exists m2 n2 b2 evs',
             nx = Continue m2 n2 b2
             /\ enumerate optimize fuel self h cs max_solutions m2 n2 b2
                = (evs', s)
             /\ evs = evs_b ++ evs').
Proof.
  cbn [enumerate].
  destruct (enumerate_body optimize self h cs max_solutions model n best)
    as [evs_b [m2 n2 b2|s']] eqn:Eb.
  - destruct (enumerate optimize fuel self h cs max_solutions m2 n2 b2)
      as [evs' s'] eqn:Ee.
    intros H. injection H as <- <-. exists evs_b, (Continue m2 n2 b2).
    split; [reflexivity|]. right. exists m2, n2, b2, evs'. auto.
  - intros H. injection H as <- <-. exists evs_b, (Break s').
    split; [reflexivity|]. left. auto.
Qed.


(** A printed selection is the selection of an OPTIMAL solve of a model
    that carries the constraints the loop was entered with. *)
Lemma enumerate_print_inv (fuel : nat) (self : PoolOptimiser) (h : Heap)
    (cs : list OptCriterion) (max_solutions : Z) (model : Model)
    (n : nat) (best : Q) (evs : list Event) (s : Stop) (items : list Item) :
  enumerate optimize fuel self h cs max_solutions model n best = (evs, s) ->
  In (EvPrint items) evs ->
  exists m optimal_vars,
    (forall c, In c (constrs model) -> In c (constrs m))
    /\ status (optimize m) = OPTIMAL
    /\ optimal_selection self h (optimize m) = Ok (items, optimal_vars).
Proof.
  revert model n best evs s.
  induction fuel as [|fuel IH]; intros model n best evs s H Hi.
  - injection H as <- <-. destruct Hi.
  - apply enumerate_step in H.
    destruct H as [evs_b [nx [Hb [[-> ->]|[m2 [n2 [b2 [evs' [-> [He ->]]]]]]]]]];
      apply enumerate_body_shape in Hb;
      destruct Hb as [[-> [e0 Hnx]]|[c0 [z [_ [_ Hb]]]]]; try (cbv zeta in Hb).
    + destruct Hi.
    + destruct Hb as [[-> _]|[items' [ov [Hs [Hsel [-> _]]]]]].
      * destruct Hi as [Hi|[]]. discriminate.
      * destruct Hi as [Hi|[Hi|[]]]; [discriminate|]. injection Hi as ->.
        eexists _, ov. split; [|split; [exact Hs|exact Hsel]].
        intros c Hc. exact Hc.
    + discriminate Hnx.
    + destruct Hb as [[_ [s' Hs']]|[items' [ov [Hs [Hsel [-> [[s' Hs']|Hn]]]]]]];
        try discriminate.
      injection Hn as Hm2 Hn2 Hb2; subst m2 n2 b2.
      destruct Hi as [Hi|[Hi|Hi]]; [discriminate| |].
      * injection Hi as ->.
        eexists _, ov. split; [|split; [exact Hs|exact Hsel]].
        intros c Hc. exact Hc.
      * destruct (IH _ _ _ _ _ He Hi) as [m [ov' [Hext [Hs' Hsel']]]].
        exists m, ov'. split; [|split; assumption].
        intros c Hc. apply Hext.
        cbn [constrs addConstr setObjective]. apply in_or_app. left. exact Hc.
Qed.



(** The ranks before the last print nothing. *)
Lemma sequence_ranks_no_print (self : PoolOptimiser) (h : Heap)
    (cs : list OptCriterion) (model : Model) (evs : list Event)
    (r : result Model) (items : list Item) :
  sequence_ranks optimize self h cs model = (evs, r) ->
  ~ In (EvPrint items) evs.
Proof.
  revert model evs r. induction cs as [|c cs IH]; intros model evs r H Hi.
  - injection H as <- <-. destruct Hi.
  - cbn [sequence_ranks] in H.
    destruct (_optimise optimize self model c h) as [[[z m'] sol]|].
    2:{ injection H as <- <-. destruct Hi. }
    destruct (negb (Status_eqb (status sol) OPTIMAL)).
    { injection H as <- <-. destruct Hi as [Hi|[]]. discriminate. }
    destruct (sequence_ranks optimize self h cs _) as [evs' r'] eqn:E.
    injection H as <- <-. destruct Hi as [Hi|Hi]; [discriminate|].
    eapply IH; eassumption.
Qed.

Lemma enforce_objective_constrs (model : Model) (z : LinExpr) (v : Q)
    (sense : string) :
  vars (_enforce_objective model z v sense) = vars model
  /\ constrs (_enforce_objective model z v sense)
     = constrs model
         ++ [{| lhs := z; rel := if String.eqb sense "MAX" then GE else LE;
                rhs := v |}].
Proof.
  unfold _enforce_objective. destruct (String.eqb sense "MAX"); auto.
Qed.

(** The ranks before the last only add constraints. *)
Lemma sequence_ranks_extend (self : PoolOptimiser) (h : Heap)
    (cs : list OptCriterion) (model : Model) (evs : list Event)
    (r : result Model) :
  sequence_ranks optimize self h cs model = (evs, r) ->
  (forall m, In (EvOptimize m) evs ->
     forall c, In c (constrs model) -> In c (constrs m))
  /\ (forall m1, r = Ok m1 ->
        vars m1 = vars model
        /\ forall c, In c (constrs model) -> In c (constrs m1)).
Proof.
  revert model evs r. induction cs as [|c cs IH]; intros model evs r H.
  - injection H as <- <-. split; [intros m []|].
    intros m1 Hm1. injection Hm1 as <-. auto.
  - cbn [sequence_ranks] in H.
    destruct (_optimise optimize self model c h) as [[[z m'] sol]|] eqn:Eo.
    2:{ injection H as <- <-. split; [intros m []|discriminate]. }
    apply optimise_Ok in Eo. destruct Eo as [_ [-> ->]].
    destruct (negb (Status_eqb (status _) OPTIMAL)).
    { injection H as <- <-. split; [|discriminate].
      intros m [Hm|[]]. injection Hm as <-. auto. }
    destruct (sequence_ranks optimize self h cs _) as [evs' r'] eqn:E.
    injection H as <- <-. apply IH in E. destruct E as [E1 E2].
    destruct (enforce_objective_constrs
                (setObjective z (sense_of c) model) z
                (objVal (optimize (setObjective z (sense_of c) model)))
                (sense c)) as [Hv Hc].
    split.
    + intros m [Hm|Hm] c0 Hc0.
      * injection Hm as <-. exact Hc0.
      * eapply E1; [exact Hm|]. rewrite Hc. apply in_or_app. left. exact Hc0.
    + intros m1 Hm1. destruct (E2 m1 Hm1) as [E2v E2c]. split.
      * rewrite E2v, Hv. reflexivity.
      * intros c0 Hc0. apply E2c. rewrite Hc. apply in_or_app. left. exact Hc0.
Qed.

(** How a call of solve is put together. *)
Lemma solve_inv (G : Globals) (self : PoolOptimiser) (max_solutions : Z)
    (h : Heap) (fuel : nat) (evs : list Event) (s : Stop) :
  solve optimize G self max_solutions h fuel = (evs, s) ->
  (evs = [] /\ exists e, s = Raised e)
  \/ exists m0 h' cs evs1 r,
       _create_vars_and_constraints self Model_new (patients (pool self))
         (paired_donors (pool self)) (altruists (pool self)) h = Ok (m0, h')
       /\ g_opt_criteria G = Some cs
       /\ sequence_ranks optimize self h' (removelast cs) m0 = (evs1, r)
       /\ ((exists e, r = Raise e /\ evs = evs1 /\ s = Raised e)
           \/ exists m1 evs2,
                r = Ok m1
                /\ enumerate optimize fuel self h' cs max_solutions m1 0%nat
                     (-1)%Q = (evs2, s)
                /\ evs = evs1 ++ evs2).
Proof.
  unfold solve.
  destruct (_create_vars_and_constraints _ _ _ _ _ _) as [[m0 h']|e] eqn:Ec.
  2:{ intros H. injection H as <- <-. left. eauto. }
  destruct (g_opt_criteria G) as [cs|] eqn:Eg.
  2:{ intros H. injection H as <- <-. left. eauto. }
  destruct (sequence_ranks optimize self h' (removelast cs) m0)
    as [evs1 [m1|e]] eqn:Es.
  - destruct (enumerate optimize fuel self h' cs max_solutions m1 0%nat (-1)%Q)
      as [evs2 s'] eqn:Ee.
    intros H. injection H as <- <-. right.
    exists m0, h', cs, evs1, (Ok m1). do 3 (split; [first [reflexivity|eassumption]|]).
    right. exists m1, evs2. auto.
  - intros H. injection H as <- <-. right.
    exists m0, h', cs, evs1, (Raise e). do 3 (split; [first [reflexivity|eassumption]|]).
    left. exists e. auto.
Qed.

(** The selection of an OPTIMAL solve of a model that carries the built
    constraints is disjoint. *)
Lemma selection_disjoint (self : PoolOptimiser) (h0 : Heap) (m0 : Model)
    (h' : Heap) (m : Model) (items : list Item) (optimal_vars : list Var) :
  solver_sound optimize ->
  _create_vars_and_constraints self Model_new (patients (pool self))
    (paired_donors (pool self)) (altruists (pool self)) h0 = Ok (m0, h') ->
  (forall c, In c (constrs m0) -> In c (constrs m)) ->
  status (optimize m) = OPTIMAL ->
  optimal_selection self h' (optimize m) = Ok (items, optimal_vars) ->
  persons_disjoint self items
  /\ (altruists_apart self = true -> altruists_accounted self items).
Proof.
  intros Hsound Hc Hext Hs Hsel.
  apply create_spec in Hc. cbv zeta in Hc. cbn [vars Model_new length] in Hc.
  destruct Hc as [_ [Hcons [_ [_ [Hmv _]]]]]. cbn [constrs app] in Hcons.
  rewrite <- Hmv in Hcons.
  set (log := append_log self (altruists (pool self)) 0 (mip_var h')) in *.
  assert (Hall : forall c,
             In c (created_constrs (patients (pool self))
                     (paired_donors (pool self)) (altruists (pool self))
                     (accumulated log)) ->
             holds (indicator (optimize m)) c).
  { intros c Hin. specialize (Hsound m Hs).
    rewrite List.Forall_forall in Hsound. apply Hsound, Hext.
    rewrite Hcons. exact Hin. }
  assert (Hle : forall o,
             In o (persons (patients (pool self)) (paired_donors (pool self))
                     (altruists (pool self))) ->
             hits (optimize m) o log <= 1).
  { intros o Ho. rewrite <- hits_accumulated. unfold persons in Ho.
    rewrite app_assoc in Ho. apply in_app_or in Ho. destruct Ho as [Ho|Ho].
    - apply holds_LE_count, Hall. unfold created_constrs.
      apply in_or_app. left. apply in_map. exact Ho.
    - rewrite (holds_EQ_count (optimize m) (accumulated log) o); [lia|].
      apply Hall. unfold created_constrs.
      apply in_or_app. right. apply in_map. exact Ho. }
  split.
  - intros o Ho. split.
    + eapply Nat.le_trans; [|apply (Hle o Ho)].
      apply (selection_hits has_patient self (altruists (pool self)) 0%nat
               h' (optimize m) items optimal_vars o);
        [exact has_patient_entry|reflexivity|exact Hsel].
    + eapply Nat.le_trans; [|apply (Hle o Ho)].
      apply (selection_hits has_donor self (altruists (pool self)) 0%nat
               h' (optimize m) items optimal_vars o);
        [exact has_donor_entry|reflexivity|exact Hsel].
  - intros Hap a Ha.
    rewrite (selection_accounts self 0%nat (mip_var h0) h' (optimize m)
               items optimal_vars a Hap Hmv Hsel Ha).
    fold log. rewrite <- hits_accumulated. apply holds_EQ_count, Hall.
    unfold created_constrs. apply in_or_app. right. apply in_map.
    apply in_map. exact Ha.
Qed.

(** C1. Every selection solve prints is disjoint: no person of the pool is
    the patient of a pair, or the donor (with more than one paired patient)
    of a pair, in two printed cycles or chains, and (the altruists being
    distinct objects that are not also patients or constrained donors) every
    altruist is printed either as unused or as the start of exactly one
    printed chain. *)
Theorem printed_selection_disjoint (G : Globals) (self : PoolOptimiser)
    (max_solutions : Z) (h : Heap) (fuel : nat) (items : list Item) :
  solver_sound optimize ->
  In (EvPrint items) (fst (solve optimize G self max_solutions h fuel)) ->
  persons_disjoint self items
  /\ (altruists_apart self = true -> altruists_accounted self items).
Proof.
  intros Hsound Hin.
  destruct (solve optimize G self max_solutions h fuel) as [evs s] eqn:E.
  cbn [fst] in Hin. apply solve_inv in E.
  destruct E as [[-> _]|[m0 [h' [cs [evs1 [r [Hc [Hg [Hseq Hr]]]]]]]]];
    [destruct Hin|].
  destruct Hr as [[e [-> [-> _]]]|[m1 [evs2 [-> [Hen ->]]]]].
  - exfalso. eapply sequence_ranks_no_print; eassumption.
  - apply in_app_or in Hin. destruct Hin as [Hin|Hin].
    { exfalso. eapply sequence_ranks_no_print; eassumption. }
    destruct (enumerate_print_inv _ _ _ _ _ _ _ _ _ _ _ Hen Hin)
      as [m [ov [Hext [Hs Hsel]]]].
    apply sequence_ranks_extend in Hseq. destruct Hseq as [_ Hm1].
    destruct (Hm1 m1 eq_refl) as [_ Hext0].
    apply (selection_disjoint self h m0 h' m items ov Hsound Hc);
      [|exact Hs|exact Hsel].
    intros c Hc0. apply Hext, Hext0, Hc0.
Qed.


Lemma sequence_ranks_length (self : PoolOptimiser) (h : Heap)
    (cs : list OptCriterion) (model : Model) (evs : list Event) (m1 : Model) :
  sequence_ranks optimize self h cs model = (evs, Ok m1) ->
  length evs = length cs.
Proof.
  revert model evs. induction cs as [|c cs IH]; intros model evs H.
  - injection H as <- _. reflexivity.
  - cbn [sequence_ranks] in H.
    destruct (_optimise optimize self model c h) as [[[z m'] sol]|];
      [|discriminate].
    destruct (negb (Status_eqb (status sol) OPTIMAL)); [discriminate|].
    destruct (sequence_ranks optimize self h cs _) as [evs' r'] eqn:E.
    injection H as <- ->. cbn [length]. f_equal. eapply IH. exact E.
Qed.



End Loops.

(** ** The reference solver meets the contract *)

Lemma assignments_complete (bs : list bool) :
  In bs (assignments (length bs)).
Proof.
  induction bs as [|b bs IH]; [left; reflexivity|].
  cbn [length assignments]. apply in_flat_map. exists bs.
  split; [exact IH|]. destruct b; simpl; auto.
Qed.

Lemma pick_best_in (m : Model) (first : list bool) (rest : list (list bool)) :
  In (pick_best m first rest) (first :: rest).
Proof.
  unfold pick_best. revert first.
  induction rest as [|cand rest IH]; intros first; [left; reflexivity|].
  cbn [fold_left].
  destruct (better _ _ _).
  - right. apply IH.
  - destruct (IH first) as [H|H]; [left; exact H|right; right; exact H].
Qed.

Lemma feasible_points_holds (m : Model) (bs : list bool) :
  In bs (feasible_points m) -> Forall (holds (assignment bs)) (constrs m).
Proof.
  unfold feasible_points. rewrite List.filter_In. intros [_ H].
  rewrite forallb_forall in H. apply List.Forall_forall.
  intros c Hc. apply holdsb_holds. apply H. exact Hc.
Qed.

Lemma indicator_assignment (s : Status) (v : Q) (bs : list bool) (x : Var) :
  indicator {| status := s; objVal := v; X := assignment bs |} x = assignment bs x.
Proof.
  unfold indicator, chosen, assignment. cbn [X].
  destruct (nth x bs false); reflexivity.
Qed.

Lemma exhaustive_sound : solver_sound exhaustive.
Proof.
  intros m Hs. unfold exhaustive in *.
  destruct (feasible_points m) as [|first rest] eqn:E; [discriminate|].
  cbn [status] in Hs.
  pose proof (pick_best_in m first rest) as Hin. rewrite <- E in Hin.
  apply feasible_points_holds in Hin.
  eapply List.Forall_impl; [|exact Hin].
  intros c Hc. eapply holds_ext; [|exact Hc].
  intros x. symmetry. apply indicator_assignment.
Qed.

Lemma exhaustive_reports_objective : solver_reports_objective exhaustive.
Proof.
  intros m Hs. unfold exhaustive in *.
  destruct (feasible_points m) as [|first rest] eqn:E; [discriminate|].
  cbn [objVal].
  rewrite (eval_ext (indicator _) (assignment (pick_best m first rest))).
  - reflexivity.
  - intros x. apply indicator_assignment.
Qed.

Lemma exhaustive_complete : solver_complete exhaustive.
Proof.
  intros m bs Hlen Hall. unfold exhaustive.
  destruct (feasible_points m) as [|first rest] eqn:E; [|reflexivity].
  exfalso.
  assert (Hin : In bs (feasible_points m)).
  { unfold feasible_points. apply List.filter_In. split.
    - rewrite <- Hlen. apply assignments_complete.
    - apply forallb_forall. intros c Hc. apply holdsb_holds.
      rewrite List.Forall_forall in Hall. apply Hall. exact Hc. }
  rewrite E in Hin. destruct Hin.
Qed.

(** ** How solve ends *)

Lemma printed_app (evs1 evs2 : list Event) :
  printed (evs1 ++ evs2) = printed evs1 ++ printed evs2.
Proof. unfold printed. apply flat_map_app. Qed.

Lemma printed_nil (evs : list Event) :
  (forall i, ~ In (EvPrint i) evs) -> printed evs = [].
Proof.
  induction evs as [|e evs IH]; intros H; [reflexivity|].
  destruct e as [m|i].
  - cbn. apply IH. intros i Hi. apply (H i). right. exact Hi.
  - exfalso. apply (H i). left. reflexivity.
Qed.

Section Outcomes.

Variable optimize : Model -> Solution.


Section EmptyPool.

Variable self : PoolOptimiser.
Hypothesis no_chains : chains self = [].
Hypothesis no_cycles : cycles self = [].
Hypothesis no_altruists : altruists (pool self) = [].
Hypothesis complete : solver_complete optimize.
Hypothesis reports : solver_reports_objective optimize.

Lemma empty_objective (c : OptCriterion) (h : Heap) :
  objective_of self c h = Ok [].
Proof.
  unfold objective_of. rewrite no_chains, no_cycles, no_altruists.
  reflexivity.
Qed.

Lemma empty_selection (h : Heap) (sol : Solution) :
  optimal_selection self h sol = Ok ([], []).
Proof.
  unfold optimal_selection. rewrite no_chains, no_cycles, no_altruists.
  reflexivity.
Qed.

Lemma empty_solve_optimal (m : Model) (z : LinExpr) (s : ModelSense) :
  trivially_feasible m ->
  status (optimize (setObjective z s m)) = OPTIMAL.
Proof.
  intros [Hv Hc]. apply (complete _ []).
  - cbn [vars setObjective]. rewrite Hv. reflexivity.
  - exact Hc.
Qed.

Lemma empty_objVal (m : Model) (s : ModelSense) :
  trivially_feasible m ->
  (objVal (optimize (setObjective [] s m)) == 0)%Q.
Proof.
  intros Hm.
  pose proof (reports _ (empty_solve_optimal m [] s Hm)) as H.
  cbn [objective setObjective eval fold_right] in H. exact H.
Qed.

Lemma empty_create (h : Heap) :
  exists m0 h',
    _create_vars_and_constraints self Model_new (patients (pool self))
      (paired_donors (pool self)) (altruists (pool self)) h = Ok (m0, h')
    /\ trivially_feasible m0.
Proof.
  destruct (create_total self Model_new (patients (pool self))
              (paired_donors (pool self)) (altruists (pool self)) h)
    as [m0 [h' Hc]].
  { unfold references_pool. rewrite no_chains, no_cycles. reflexivity. }
  exists m0, h'. split; [exact Hc|].
  apply create_spec in Hc. cbv zeta in Hc.
  destruct Hc as [Hv [Hcs _]]. split.
  - rewrite Hv. unfold created_names.
    rewrite no_chains, no_cycles, no_altruists. reflexivity.
  - rewrite Hcs. cbn [constrs Model_new app].
    unfold created_constrs, append_log.
    rewrite no_chains, no_cycles, no_altruists. cbn [map flat_map app altruist_entries].
    rewrite app_nil_r. apply List.Forall_forall. intros c Hc.
    apply in_map_iff in Hc. destruct Hc as [o [<- _]].
    unfold holds, person_constr, accumulated. cbn. discriminate.
Qed.

Lemma empty_sequence_ranks (h : Heap) (cs : list OptCriterion) (model : Model) :
  trivially_feasible model ->
  exists evs1 m1,
    sequence_ranks optimize self h cs model = (evs1, Ok m1)
    /\ trivially_feasible m1.
Proof.
  revert model. induction cs as [|c cs IH]; intros model Hm.
  - exists [], model. split; [reflexivity|exact Hm].
  - cbn [sequence_ranks]. unfold _optimise.
    rewrite empty_objective. cbn [bind].
    rewrite (empty_solve_optimal _ _ _ Hm). cbn [Status_eqb negb].
    pose proof (empty_objVal model (sense_of c) Hm) as Hv.
    set (m' := setObjective [] (sense_of c) model) in *.
    destruct (IH (_enforce_objective m' [] (objVal (optimize m')) (sense c)))
      as [evs1 [m1 [Hseq Hm1]]].
    { destruct (enforce_objective_constrs m' [] (objVal (optimize m'))
                  (sense c)) as [Hvs Hcs].
      destruct Hm as [Hmv Hmc]. split.
      - rewrite Hvs. exact Hmv.
      - rewrite Hcs. apply Forall_app. split; [exact Hmc|].
        constructor; [|constructor].
        unfold holds. cbn [rel lhs rhs eval fold_right].
        destruct (String.eqb (sense c) "MAX"); rewrite Hv; apply Qle_refl. }
    rewrite Hseq. exists (EvOptimize m' :: evs1), m1.
    split; [reflexivity|exact Hm1].
Qed.

(** C9, as the code has it. For a pool without candidates and without
    altruists, with at least one criterion, the first solve at the last
    rank has objective value 0 and an empty selection, the loop stops
    there, and solve returns that value with n_solutions = 1; reached_max
    is False when the cap is not 1 (the loop stops on the empty selection)
    and True when the cap is 1 (the cap is tested first). *)
Theorem empty_pool_single_empty_solution (G : Globals)
    (max_solutions : Z) (h : Heap) (fuel : nat) (cs : list OptCriterion) :
  g_opt_criteria G = Some cs ->
  cs <> [] ->
  exists evs1 m v,
    solve optimize G self max_solutions h (S fuel)
    = (evs1 ++ [EvOptimize m; EvPrint []],
       Returned v 1%nat (max_solutions =? 1)%Z)
    /\ printed evs1 = []
    /\ (v == 0)%Q.
Proof.
  intros Hg Hcs. unfold solve.
  destruct (empty_create h) as [m0 [h' [Hc Hm0]]]. rewrite Hc, Hg.
  destruct (empty_sequence_ranks h' (removelast cs) m0 Hm0)
    as [evs1 [m1 [Hseq Hm1]]].
  rewrite Hseq.
  destruct (last cs) as [c|] eqn:Ec.
  2:{ apply last_None in Ec. contradiction. }
  pose proof (empty_objVal m1 (sense_of c) Hm1) as Hv.
  cbn [enumerate]. unfold enumerate_body, try, last_r, _optimise.
  rewrite Ec, empty_objective. cbn [bind].
  rewrite (empty_solve_optimal _ _ _ Hm1). cbn [Status_eqb orb negb].
  set (m := setObjective [] (sense_of c) m1) in *.
  assert (Hge : Qltb (objVal (optimize m) + EPSILON) (-1) = false).
  { apply Qltb_ge. unfold EPSILON. lra. }
  rewrite Hge, empty_selection.
  change (Z.of_nat 1) with 1%Z. rewrite (Z.eqb_sym 1 max_solutions).
  exists evs1, m, (objVal (optimize m)).
  split; [|split; [|exact Hv]].
  - destruct (max_solutions =? 1)%Z; reflexivity.
  - apply printed_nil. intros i. eapply sequence_ranks_no_print. exact Hseq.
Qed.

End EmptyPool.

End Outcomes.

(** ** The built model does not depend on the heap the call starts from *)

Lemma assign_vars_agree (os : list oid) (first : Var) (mv1 mv2 : gmap oid Var)
    (o : oid) :
  mv1 !! o = mv2 !! o ->
  assign_vars os first mv1 !! o = assign_vars os first mv2 !! o.
Proof.
  revert first mv1 mv2. induction os as [|o' os IH]; intros first mv1 mv2 H.
  - exact H.
  - cbn [assign_vars]. apply IH.
    destruct (Nat.eq_dec o' o) as [->|Hne].
    + rewrite !lookup_insert_eq. reflexivity.
    + rewrite !lookup_insert_ne by exact Hne. exact H.
Qed.

Lemma assign_vars_indep (os : list oid) (first : Var) (mv1 mv2 : gmap oid Var)
    (o : oid) :
  In o os ->
  assign_vars os first mv1 !! o = assign_vars os first mv2 !! o.
Proof.
  revert first mv1 mv2. induction os as [|o' os IH]; intros first mv1 mv2 Hin.
  - destruct Hin.
  - cbn [assign_vars]. destruct (in_dec Nat.eq_dec o os) as [Hi|Hni].
    + apply IH. exact Hi.
    + destruct Hin as [->|Hi]; [|contradiction].
      apply assign_vars_agree. rewrite !lookup_insert_eq. reflexivity.
Qed.

Lemma flat_map_ext_in {A B} (f g : A -> list B) (l : list A) :
  (forall x, In x l -> f x = g x) -> flat_map f l = flat_map g l.
Proof.
  induction l as [|x l IH]; intros H; [reflexivity|].
  cbn [flat_map]. rewrite (H x (or_introl eq_refl)). f_equal.
  apply IH. intros y Hy. apply H. right. exact Hy.
Qed.

Lemma append_log_indep (self : PoolOptimiser) (alts : list Altruist)
    (first : Var) (mv1 mv2 : gmap oid Var) :
  append_log self alts first (created_vars self alts first mv1)
  = append_log self alts first (created_vars self alts first mv2).
Proof.
  unfold append_log. f_equal. f_equal.
  - apply flat_map_ext_in. intros c Hc. unfold chain_entries, var_of.
    assert (E : created_vars self alts first mv1 !! chain_oid c
                = created_vars self alts first mv2 !! chain_oid c).
    { unfold created_vars. do 2 apply assign_vars_agree.
      apply assign_vars_indep. apply in_map. exact Hc. }
    rewrite E. reflexivity.
  - apply flat_map_ext_in. intros c Hc. unfold cycle_entries, var_of.
    assert (E : created_vars self alts first mv1 !! cycle_oid c
                = created_vars self alts first mv2 !! cycle_oid c).
    { unfold created_vars. apply assign_vars_agree.
      apply assign_vars_indep. apply in_map. exact Hc. }
    rewrite E. reflexivity.
Qed.

Lemma Model_eq (m1 m2 : Model) :
  vars m1 = vars m2 -> constrs m1 = constrs m2 ->
  objective m1 = objective m2 -> modelSense m1 = modelSense m2 -> m1 = m2.
Proof. destruct m1, m2. cbn. intros -> -> -> ->. reflexivity. Qed.

Lemma create_model_indep (self : PoolOptimiser) (m : Model)
    (pats : list Patient) (dons : list Donor) (alts : list Altruist)
    (h1 h2 : Heap) (m1 m2 : Model) (h1' h2' : Heap) :
  _create_vars_and_constraints self m pats dons alts h1 = Ok (m1, h1') ->
  _create_vars_and_constraints self m pats dons alts h2 = Ok (m2, h2') ->
  m1 = m2.
Proof.
  intros H1 H2. apply create_spec in H1, H2. cbv zeta in H1, H2.
  destruct H1 as [Hv1 [Hc1 [Ho1 [Hs1 _]]]].
  destruct H2 as [Hv2 [Hc2 [Ho2 [Hs2 _]]]].
  apply Model_eq; try congruence.
  rewrite Hc1, Hc2.
  rewrite (append_log_indep self alts (length (vars m)) (mip_var h1) (mip_var h2)).
  reflexivity.
Qed.


(** ** The sequencer and the module global *)

(** Whatever the solver answers, the ranks before the last never raise
    OptimisationException: the message of the raise reads a local that is
    not yet bound. *)
Lemma sequence_ranks_never_OptimisationException
    (optimize : Model -> Solution) (self : PoolOptimiser) (h : Heap)
    (cs : list OptCriterion) (model : Model) (st : Status) :
  snd (sequence_ranks optimize self h cs model)
  <> Raise (OptimisationException st).
Proof.
  revert model. induction cs as [|c cs IH]; intros model; [discriminate|].
  cbn [sequence_ranks].
  destruct (_optimise optimize self model c h) as [[[z m'] sol]|e] eqn:Eo.
  - destruct (negb (Status_eqb (status sol) OPTIMAL)); [discriminate|].
    specialize (IH (_enforce_objective m' z (objVal sol) (sense c))).
    destruct (sequence_ranks optimize self h cs _) as [evs r]. exact IH.
  - cbn [snd]. unfold _optimise in Eo.
    destruct (objective_of self c h) as [z|e'] eqn:Ez; [discriminate|].
    cbn [bind] in Eo. injection Eo as <-.
    unfold objective_of in Ez. intros He. injection He as ->.
    assert (Hm : forall {A B} (g : A -> result B) (xs : list A) e0,
               (forall x e1, g x = Raise e1 -> exists o a, e1 = AttributeError o a) ->
               map_r g xs = Raise e0 -> exists o a, e0 = AttributeError o a).
    { clear. intros A B g xs e0 Hg. induction xs as [|x xs IHx]; [discriminate|].
      cbn [map_r]. destruct (g x) as [y|e1] eqn:Ex; cbn [bind].
      - destruct (map_r g xs); cbn [bind]; [discriminate|].
        intros H. injection H as <-. apply IHx. reflexivity.
      - intros H. injection H as <-. eapply Hg. exact Ex. }
    assert (Hg : forall o e1 (k : nat -> result LinExpr),
               (forall v, exists z, k v = Ok z) ->
               (do v <- get_mip_var o h; k v) = Raise e1 ->
               exists o' a, e1 = AttributeError o' a).
    { clear. intros o e1 k Hk. unfold get_mip_var.
      destruct (mip_var h !! o) as [v|]; cbn [bind].
      - destruct (Hk v) as [z ->]. discriminate.
      - intros H. injection H as <-. eauto. }
    destruct (map_r _ (chains self)) as [zc|e1] eqn:E1; cbn [bind] in Ez.
    2:{ injection Ez as ->. eapply Hm in E1; [destruct E1 as [o [a E1]]; discriminate|].
        intros x e2. apply Hg. eauto. }
    destruct (map_r _ (cycles self)) as [zy|e1] eqn:E2; cbn [bind] in Ez.
    2:{ injection Ez as ->. eapply Hm in E2; [destruct E2 as [o [a E2]]; discriminate|].
        intros x e2. apply Hg. eauto. }
    destruct (map_r _ (altruists (pool self))) as [za|e1] eqn:E3; cbn [bind] in Ez.
    2:{ injection Ez as ->. eapply Hm in E3; [destruct E3 as [o [a E3]]; discriminate|].
        intros x e2. apply Hg. eauto. }
    discriminate.
Qed.

(** solve never reads self.opt_criteria. *)
Lemma solve_ignores_self_opt_criteria (optimize : Model -> Solution)
    (G : Globals) (p : Pool) (cs cs' : list OptCriterion)
    (cycles : list Cycle) (chains : list Chain)
    (max_solutions : Z) (h : Heap) (fuel : nat) :
  solve optimize G
    {| opt_criteria := cs; pool := p; cycles := cycles; chains := chains |}
    max_solutions h fuel
  = solve optimize G
      {| opt_criteria := cs'; pool := p; cycles := cycles; chains := chains |}
      max_solutions h fuel.
Proof.
  set (s1 := {| opt_criteria := cs; pool := p; cycles := cycles; chains := chains |}).
  set (s2 := {| opt_criteria := cs'; pool := p; cycles := cycles; chains := chains |}).
  assert (Hseq : forall h' l model,
             sequence_ranks optimize s1 h' l model
             = sequence_ranks optimize s2 h' l model).
  { intros h' l. induction l as [|c l IH]; intros model; [reflexivity|].
    cbn [sequence_ranks].
    change (_optimise optimize s1 model c h') with (_optimise optimize s2 model c h').
    destruct (_optimise optimize s2 model c h') as [[[z m'] sol]|]; [|reflexivity].
    destruct (negb _); [reflexivity|]. rewrite IH. reflexivity. }
  assert (Hen : forall h' l model n best,
             enumerate optimize fuel s1 h' l max_solutions model n best
             = enumerate optimize fuel s2 h' l max_solutions model n best).
  { intros h' l. induction fuel as [|f IH]; intros model n best; [reflexivity|].
    cbn [enumerate].
    change (enumerate_body optimize s1 h' l max_solutions model n best)
      with (enumerate_body optimize s2 h' l max_solutions model n best).
    destruct (enumerate_body optimize s2 h' l max_solutions model n best)
      as [evs [m2 n2 b2|st]]; [|reflexivity].
    rewrite IH. reflexivity. }
  unfold solve.
  change (_create_vars_and_constraints s1 Model_new (patients (pool s1))
            (paired_donors (pool s1)) (altruists (pool s1)) h)
    with (_create_vars_and_constraints s2 Model_new (patients (pool s2))
            (paired_donors (pool s2)) (altruists (pool s2)) h).
  destruct (_create_vars_and_constraints s2 _ _ _ _ _) as [[m0 h']|];
    [|reflexivity].
  destruct (g_opt_criteria G) as [l|]; [|reflexivity].
  rewrite Hseq.
  destruct (sequence_ranks optimize s2 h' (removelast l) m0) as [evs [m1|]];
    [|reflexivity].
  rewrite Hen. reflexivity.
Qed.

(** ** The enumeration loop terminates *)

Lemma assignment_bits (n : nat) (sol : Solution) (v : Var) :
  v < n -> assignment (bits n sol) v = indicator sol v.
Proof.
  intros Hv. unfold assignment, bits, indicator.
  rewrite (nth_indep _ false (chosen sol 0%nat))
    by (rewrite length_map, List.length_seq; exact Hv).
  rewrite map_nth, List.seq_nth by exact Hv. reflexivity.
Qed.

Lemma bits_length (n : nat) (sol : Solution) : length (bits n sol) = n.
Proof. unfold bits. rewrite length_map. apply List.length_seq. Qed.

Lemma eval_scoped (n : nat) (sol : Solution) (e : LinExpr) :
  scoped_expr n e -> eval (assignment (bits n sol)) e = eval (indicator sol) e.
Proof.
  unfold scoped_expr. induction e as [|[c v] e IH]; intros H; [reflexivity|].
  apply Forall_cons_iff in H. destruct H as [Hv He]. cbn [eval fold_right].
  fold (eval (assignment (bits n sol)) e). fold (eval (indicator sol) e).
  rewrite (IH He), (assignment_bits n sol v Hv). reflexivity.
Qed.

Lemma holds_scoped (n : nat) (sol : Solution) (c : Constr) :
  scoped_expr n (lhs c) ->
  holds (assignment (bits n sol)) c <-> holds (indicator sol) c.
Proof.
  intros H. unfold holds. rewrite (eval_scoped n sol _ H). reflexivity.
Qed.

Lemma filter_filter_and {A} (p q : A -> bool) (l : list A) :
  List.filter (fun x => p x && q x) l = List.filter q (List.filter p l).
Proof.
  induction l as [|x l IH]; [reflexivity|].
  cbn [List.filter]. destruct (p x); cbn [andb List.filter];
    [destruct (q x)|]; rewrite IH; reflexivity.
Qed.

Lemma filter_drops {A} (p : A -> bool) (l : list A) (x : A) :
  In x l -> p x = false -> length (List.filter p l) < length l.
Proof.
  induction l as [|y l IH]; intros Hin Hp; [destruct Hin|].
  cbn [List.filter length]. destruct Hin as [->|Hin].
  - rewrite Hp. pose proof (List.filter_length_le p l). lia.
  - specialize (IH Hin Hp). destruct (p y); cbn [length]; lia.
Qed.

Lemma feasible_points_addConstr (c : Constr) (m : Model) :
  feasible_points (addConstr c m)
  = List.filter (fun bs => holdsb (assignment bs) c) (feasible_points m).
Proof.
  unfold feasible_points. cbn [constrs vars addConstr].
  rewrite <- filter_filter_and. apply List.filter_ext. intros bs.
  rewrite forallb_app. cbn [forallb]. rewrite andb_true_r. reflexivity.
Qed.

Lemma assignments_length (n : nat) : length (assignments n) = (2 ^ n)%nat.
Proof.
  induction n as [|n IH]; [reflexivity|].
  cbn [assignments]. rewrite (flat_map_constant_length (c := 2%nat)).
  - rewrite IH. cbn [Nat.pow]. lia.
  - reflexivity.
Qed.

Lemma feasible_points_bound (m : Model) :
  length (feasible_points m) <= 2 ^ length (vars m).
Proof.
  unfold feasible_points. rewrite <- assignments_length.
  apply List.filter_length_le.
Qed.

(** The point of an OPTIMAL solve is one of the model's feasible points. *)
Lemma bits_feasible (optimize : Model -> Solution) (m : Model) :
  solver_sound optimize -> scoped m -> status (optimize m) = OPTIMAL ->
  In (bits (length (vars m)) (optimize m)) (feasible_points m).
Proof.
  intros Hsound Hsc Hs. unfold feasible_points. apply List.filter_In. split.
  - rewrite <- (bits_length (length (vars m)) (optimize m)) at 2.
    apply assignments_complete.
  - apply forallb_forall. intros c Hc. apply holdsb_holds.
    unfold scoped in Hsc. rewrite List.Forall_forall in Hsc.
    apply (holds_scoped _ _ _ (Hsc c Hc)).
    specialize (Hsound m Hs). rewrite List.Forall_forall in Hsound.
    apply Hsound. exact Hc.
Qed.

Lemma heap_scoped_var_of (self : PoolOptimiser) (h : Heap) (n : nat) (o : oid) :
  heap_scoped self h n -> In o (item_oids self) -> var_of (mip_var h) o < n.
Proof.
  intros Hh Ho. destruct (Hh o Ho) as [v [Ev Hv]].
  unfold var_of. rewrite Ev. exact Hv.
Qed.

Lemma quicksum_vars_scoped (n : nat) (vs : list Var) :
  Forall (fun v => v < n) vs -> scoped_expr n (quicksum_vars vs).
Proof.
  unfold scoped_expr. induction vs as [|v vs IH]; intros H; [constructor|].
  apply Forall_cons_iff in H. destruct H as [Hv Hvs].
  rewrite quicksum_vars_cons. constructor; [exact Hv|apply IH; exact Hvs].
Qed.

Lemma selection_scoped (self : PoolOptimiser) (h : Heap) (n : nat)
    (sol : Solution) (items : list Item) (optimal_vars : list Var) :
  heap_scoped self h n ->
  optimal_selection self h sol = Ok (items, optimal_vars) ->
  Forall (fun v => v < n) optimal_vars.
Proof.
  intros Hh Hsel. apply optimal_selection_Ok in Hsel.
  destruct Hsel as [Hi [_ ->]].
  apply List.Forall_forall. intros v Hv. apply in_map_iff in Hv.
  destruct Hv as [i [<- Hin]]. apply (heap_scoped_var_of self h n _ Hh).
  rewrite Hi in Hin. unfold item_oids.
  rewrite !in_app_iff, !in_map_iff in Hin. rewrite !in_app_iff, !in_map_iff.
  destruct Hin as [[c [<- Hc]]|[[c [<- Hc]]|[a [<- Ha]]]];
    apply List.filter_In in Hc || apply List.filter_In in Ha.
  - left. exists c. tauto.
  - right. left. exists c. tauto.
  - right. right. exists a. tauto.
Qed.

Lemma map_r_scoped {A} (n : nat) (h : Heap) (oid_of : A -> oid) (val : A -> Q)
    (xs : list A) (zs : list LinExpr) :
  (forall x, In x xs -> var_of (mip_var h) (oid_of x) < n) ->
  map_r (fun x => do v <- get_mip_var (oid_of x) h; Ok (term v (val x))) xs
  = Ok zs ->
  scoped_expr n (quicksum zs).
Proof.
  revert zs. induction xs as [|x xs IH]; intros zs Hb H.
  - injection H as <-. constructor.
  - cbn [map_r] in H.
    destruct (get_mip_var (oid_of x) h) as [v|] eqn:Ev; cbn [bind] in H;
      [|discriminate].
    destruct (map_r _ xs) as [r|] eqn:Er; cbn [bind] in H; [|discriminate].
    injection H as <-. unfold quicksum, term. cbn [concat app].
    constructor.
    + cbn [snd]. rewrite (get_mip_var_var_of _ _ _ Ev).
      apply Hb. left. reflexivity.
    + apply (IH r); [|reflexivity]. intros y Hy. apply Hb. right. exact Hy.
Qed.

Lemma objective_of_scoped (self : PoolOptimiser) (c : OptCriterion) (h : Heap)
    (n : nat) (z : LinExpr) :
  heap_scoped self h n -> objective_of self c h = Ok z -> scoped_expr n z.
Proof.
  intros Hh. unfold objective_of.
  destruct (map_r _ (chains self)) as [zc|] eqn:Ec; cbn [bind]; [|discriminate].
  destruct (map_r _ (cycles self)) as [zy|] eqn:Ey; cbn [bind]; [|discriminate].
  destruct (map_r _ (altruists (pool self))) as [za|] eqn:Ea; cbn [bind];
    [|discriminate].
  intros H. injection H as <-.
  apply (map_r_scoped n) in Ec, Ey, Ea.
  - unfold quicksum, scoped_expr in *. rewrite !concat_app.
    apply Forall_app. split; [exact Ec|]. apply Forall_app. split; assumption.
  - intros x Hx. apply (heap_scoped_var_of self h n _ Hh). unfold item_oids.
    apply in_or_app. right. apply in_or_app. right. apply in_map. exact Hx.
  - intros x Hx. apply (heap_scoped_var_of self h n _ Hh). unfold item_oids.
    apply in_or_app. right. apply in_or_app. left. apply in_map. exact Hx.
  - intros x Hx. apply (heap_scoped_var_of self h n _ Hh). unfold item_oids.
    apply in_or_app. left. apply in_map. exact Hx.
Qed.

Lemma assign_vars_in_range (os : list oid) (first : Var) (mv : gmap oid Var)
    (o : oid) :
  In o os ->
  exists v, assign_vars os first mv !! o = Some v /\ v < first + length os.
Proof.
  revert first mv. induction os as [|o' os IH]; intros first mv Hin.
  - destruct Hin.
  - cbn [assign_vars length]. destruct (in_dec Nat.eq_dec o os) as [Hi|Hni].
    + destruct (IH (S first) (<[o':=first]> mv) Hi) as [v [Ev Hv]].
      exists v. split; [exact Ev|lia].
    + destruct Hin as [->|Hi]; [|contradiction].
      exists first. rewrite assign_vars_notin by exact Hni.
      rewrite lookup_insert_eq. split; [reflexivity|lia].
Qed.

Lemma assign_vars_keeps_range (os : list oid) (first : Var) (mv : gmap oid Var)
    (o : oid) (bound : nat) :
  first + length os <= bound ->
  (exists v, mv !! o = Some v /\ v < bound) ->
  exists v, assign_vars os first mv !! o = Some v /\ v < bound.
Proof.
  intros Hb Hmv. destruct (in_dec Nat.eq_dec o os) as [Hi|Hni].
  - destruct (assign_vars_in_range os first mv o Hi) as [v [Ev Hv]].
    exists v. split; [exact Ev|lia].
  - rewrite assign_vars_notin by exact Hni. exact Hmv.
Qed.

Lemma created_vars_scoped (self : PoolOptimiser) (h : Heap)
    (mv : gmap oid Var) :
  mip_var h = created_vars self (altruists (pool self)) 0 mv ->
  heap_scoped self h
    (length (chains self) + length (cycles self)
     + length (altruists (pool self))).
Proof.
  intros Hmv o Ho. rewrite Hmv. unfold created_vars, item_oids in *.
  cbn [Nat.add].
  apply in_app_or in Ho. destruct Ho as [Ho|Ho]; [|apply in_app_or in Ho;
                                                    destruct Ho as [Ho|Ho]].
  - apply assign_vars_keeps_range; [rewrite length_map; lia|].
    apply assign_vars_keeps_range; [rewrite length_map; lia|].
    destruct (assign_vars_in_range _ 0%nat mv o Ho) as [v [Ev Hv]].
    rewrite length_map in Hv. exists v. split; [exact Ev|lia].
  - apply assign_vars_keeps_range; [rewrite length_map; lia|].
    destruct (assign_vars_in_range _ (length (chains self))
                (assign_vars (map chain_oid (chains self)) 0%nat mv) o Ho)
      as [v [Ev Hv]].
    rewrite length_map in Hv. exists v. split; [exact Ev|lia].
  - destruct (assign_vars_in_range _
                (length (chains self) + length (cycles self))
                (assign_vars (map cycle_oid (cycles self)) (length (chains self))
                   (assign_vars (map chain_oid (chains self)) 0%nat mv)) o Ho)
      as [v [Ev Hv]].
    rewrite length_map in Hv. exists v. split; [exact Ev|lia].
Qed.

Lemma altruist_entries_range (first : Var) (alts : list Altruist) :
  Forall (fun e => snd e < first + length alts) (altruist_entries first alts).
Proof.
  revert first. induction alts as [|a alts IH]; intros first; [constructor|].
  cbn [altruist_entries length]. constructor; [cbn; lia|].
  eapply List.Forall_impl; [|apply (IH (S first))]. cbn. intros e He. lia.
Qed.

Lemma pd_entries_snd (v : Var) (pds : list PdPair) (e : oid * Var) :
  In e (flat_map (pd_entries v) pds) -> snd e = v.
Proof.
  intros He. apply in_flat_map in He. destruct He as [pd [_ He]].
  unfold pd_entries in He. destruct (1 <? _)%nat.
  - destruct He as [<-|[<-|[]]]; reflexivity.
  - destruct He as [<-|[]]; reflexivity.
Qed.

Lemma append_log_range (self : PoolOptimiser) (h : Heap) (n : nat) :
  heap_scoped self h n ->
  length (chains self) + length (cycles self)
  + length (altruists (pool self)) <= n ->
  Forall (fun e => snd e < n)
    (append_log self (altruists (pool self)) 0 (mip_var h)).
Proof.
  intros Hh Hn. unfold append_log.
  apply Forall_app. split; [|apply Forall_app; split].
  - eapply List.Forall_impl; [|apply altruist_entries_range].
    cbn. intros e He. lia.
  - apply List.Forall_forall. intros e He. apply in_flat_map in He.
    destruct He as [c [Hc He]].
    assert (Hv : var_of (mip_var h) (chain_oid c) < n).
    { apply (heap_scoped_var_of self h n _ Hh). unfold item_oids.
      apply in_or_app. left. apply in_map. exact Hc. }
    unfold chain_entries in He. destruct He as [<-|He]; [exact Hv|].
    rewrite (pd_entries_snd _ _ _ He). exact Hv.
  - apply List.Forall_forall. intros e He. apply in_flat_map in He.
    destruct He as [c [Hc He]].
    assert (Hv : var_of (mip_var h) (cycle_oid c) < n).
    { apply (heap_scoped_var_of self h n _ Hh). unfold item_oids.
      apply in_or_app. right. apply in_or_app. left. apply in_map. exact Hc. }
    unfold cycle_entries in He.
    rewrite (pd_entries_snd _ _ _ He). exact Hv.
Qed.

Lemma accumulated_range (log : list (oid * Var)) (n : nat) (o : oid) :
  Forall (fun e => snd e < n) log -> Forall (fun v => v < n) (accumulated log o).
Proof.
  intros H. unfold accumulated. apply List.Forall_forall. intros v Hv.
  apply in_map_iff in Hv. destruct Hv as [e [<- He]].
  apply List.filter_In in He. destruct He as [He _].
  rewrite List.Forall_forall in H. apply H. exact He.
Qed.

(** What model construction builds is over the variables it creates. *)
Lemma create_scoped (self : PoolOptimiser) (h : Heap) (m0 : Model) (h' : Heap) :
  _create_vars_and_constraints self Model_new (patients (pool self))
    (paired_donors (pool self)) (altruists (pool self)) h = Ok (m0, h') ->
  scoped m0
  /\ heap_scoped self h' (length (vars m0))
  /\ length (vars m0)
     = (length (chains self) + length (cycles self)
        + length (altruists (pool self)))%nat.
Proof.
  intros Hc. apply create_spec in Hc. cbv zeta in Hc.
  cbn [vars constrs Model_new length app] in Hc.
  destruct Hc as [Hv [Hcs [_ [_ [Hmv _]]]]].
  assert (Hlen : length (vars m0)
                 = (length (chains self) + length (cycles self)
                    + length (altruists (pool self)))%nat).
  { rewrite Hv. unfold created_names. rewrite !length_app, !length_map. lia. }
  assert (Hh : heap_scoped self h' (length (vars m0))).
  { rewrite Hlen. eapply created_vars_scoped. exact Hmv. }
  split; [|split; assumption].
  unfold scoped. rewrite Hcs. rewrite <- Hmv.
  pose proof (append_log_range self h' (length (vars m0)) Hh) as Hlog.
  specialize (Hlog ltac:(lia)).
  unfold created_constrs. apply Forall_app. split;
    apply List.Forall_forall; intros c Hc; apply in_map_iff in Hc;
    destruct Hc as [o [<- _]]; cbn [lhs person_constr];
    apply quicksum_vars_scoped, accumulated_range; exact Hlog.
Qed.

Section Termination.

Variable optimize : Model -> Solution.
Hypothesis sound : solver_sound optimize.

Lemma enumerate_body_break (self : PoolOptimiser) (h : Heap)
    (cs : list OptCriterion) (max_solutions : Z) (model : Model)
    (n : nat) (best : Q) (evs : list Event) (s : Stop) :
  enumerate_body optimize self h cs max_solutions model n best = (evs, Break s) ->
  s <> OutOfFuel.
Proof.
  unfold enumerate_body, try.
  destruct (last_r cs) as [c|]; [|intros H; injection H as _ <-; discriminate].
  destruct (_optimise optimize self model c h) as [[[z m'] sol]|];
    [|intros H; injection H as _ <-; discriminate].
  destruct (_ || _); [intros H; injection H as _ <-; discriminate|].
  destruct (negb _); [intros H; injection H as _ <-; discriminate|].
  destruct (Qltb _ _); [intros H; injection H as _ <-; discriminate|].
  destruct (optimal_selection self h sol) as [[items ov]|];
    [|intros H; injection H as _ <-; discriminate].
  destruct (_ =? _)%Z; [intros H; injection H as _ <-; discriminate|].
  destruct (_ =? _)%nat; [intros H; injection H as _ <-; discriminate|].
  discriminate.
Qed.

(** A turn that goes round again leaves a model with fewer feasible
    points. *)
Lemma enumerate_body_decreases (self : PoolOptimiser) (h : Heap)
    (cs : list OptCriterion) (max_solutions : Z) (model : Model)
    (n : nat) (best : Q) (evs : list Event) (m2 : Model) (n2 : nat) (b2 : Q) :
  scoped model ->
  heap_scoped self h (length (vars model)) ->
  enumerate_body optimize self h cs max_solutions model n best
  = (evs, Continue m2 n2 b2) ->
  scoped m2
  /\ vars m2 = vars model
  /\ length (feasible_points m2) < length (feasible_points model).
Proof.
  intros Hsc Hh Hb. apply enumerate_body_shape in Hb.
  destruct Hb as [[_ [e He]]|[c [z [_ [Hz Hb]]]]]; [discriminate|].
  cbv zeta in Hb.
  destruct Hb as [[_ [s Hs]]|[items [ov [Hs [Hsel [_ [[s Hs']|Hn]]]]]]];
    try discriminate.
  injection Hn as -> _ _.
  set (m' := setObjective z (sense_of c) model) in *.
  assert (Hsc' : scoped m') by exact Hsc.
  pose proof (selection_scoped self h _ _ _ _ Hh Hsel) as Hov.
  split; [|split; [reflexivity|]].
  - unfold scoped. cbn [constrs vars addConstr]. apply Forall_app.
    split; [exact Hsc'|]. constructor; [|constructor].
    cbn [lhs no_good_cut]. apply quicksum_vars_scoped. exact Hov.
  - rewrite feasible_points_addConstr.
    change (feasible_points model) with (feasible_points m').
    apply (filter_drops _ _ (bits (length (vars m')) (optimize m'))).
    + apply bits_feasible; assumption.
    + destruct (holdsb _ (no_good_cut ov)) eqn:E; [|reflexivity].
      exfalso. apply holdsb_holds in E.
      apply holds_scoped in E.
      * apply (no_good_cut_excludes _ _ (items_all_chosen _ _ _ _ _ Hsel) E).
      * cbn [lhs no_good_cut]. apply quicksum_vars_scoped. exact Hov.
Qed.

(** With more fuel than the model has feasible points, the loop ends on
    its own. *)
Lemma enumerate_terminates (fuel : nat) (self : PoolOptimiser) (h : Heap)
    (cs : list OptCriterion) (max_solutions : Z) (model : Model)
    (n : nat) (best : Q) :
  scoped model ->
  heap_scoped self h (length (vars model)) ->
  length (feasible_points model) < fuel ->
  snd (enumerate optimize fuel self h cs max_solutions model n best)
  <> OutOfFuel.
Proof.
  revert model n best. induction fuel as [|fuel IH];
    intros model n best Hsc Hh Hlt; [lia|].
  cbn [enumerate].
  destruct (enumerate_body optimize self h cs max_solutions model n best)
    as [evs [m2 n2 b2|s]] eqn:Eb.
  - destruct (enumerate_body_decreases _ _ _ _ _ _ _ _ _ _ _ Hsc Hh Eb)
      as [Hsc2 [Hv2 Hdec]].
    specialize (IH m2 n2 b2 Hsc2).
    rewrite Hv2 in IH. specialize (IH Hh ltac:(lia)).
    destruct (enumerate optimize fuel self h cs max_solutions m2 n2 b2).
    exact IH.
  - cbn [snd]. eapply enumerate_body_break. exact Eb.
Qed.

Lemma sequence_ranks_scoped (self : PoolOptimiser) (h : Heap)
    (cs : list OptCriterion) (model : Model) (evs : list Event) (m1 : Model) :
  scoped model ->
  heap_scoped self h (length (vars model)) ->
  sequence_ranks optimize self h cs model = (evs, Ok m1) ->
  scoped m1 /\ vars m1 = vars model.
Proof.
  revert model evs. induction cs as [|c cs IH]; intros model evs Hsc Hh H.
  - injection H as _ <-. auto.
  - cbn [sequence_ranks] in H.
    destruct (_optimise optimize self model c h) as [[[z m'] sol]|] eqn:Eo;
      [|discriminate].
    apply optimise_Ok in Eo. destruct Eo as [Ez [-> ->]].
    destruct (negb _); [discriminate|].
    destruct (sequence_ranks optimize self h cs _) as [evs' r'] eqn:E.
    injection H as _ ->.
    destruct (enforce_objective_constrs (setObjective z (sense_of c) model) z
                (objVal (optimize (setObjective z (sense_of c) model)))
                (sense c)) as [Hv Hc].
    apply IH in E.
    + destruct E as [E1 E2]. split; [exact E1|]. rewrite E2, Hv. reflexivity.
    + unfold scoped. rewrite Hc, Hv. apply Forall_app. split; [exact Hsc|].
      constructor; [|constructor]. cbn [lhs].
      eapply objective_of_scoped; eassumption.
    + rewrite Hv. exact Hh.
Qed.

(** X1. Termination of solve: with a sound solver and more fuel than there are
    0/1 points over the candidates and altruists, a session ends by
    returning or by raising. *)
Theorem solve_terminates (G : Globals) (self : PoolOptimiser)
    (max_solutions : Z) (h : Heap) (fuel : nat) :
  2 ^ (length (chains self) + length (cycles self)
       + length (altruists (pool self))) < fuel ->
  snd (solve optimize G self max_solutions h fuel) <> OutOfFuel.
Proof.
  intros Hfuel. unfold solve.
  destruct (_create_vars_and_constraints _ _ _ _ _ _) as [[m0 h']|] eqn:Ec;
    [|discriminate].
  destruct (g_opt_criteria G) as [cs|]; [|discriminate].
  destruct (sequence_ranks optimize self h' (removelast cs) m0)
    as [evs1 [m1|]] eqn:Es; [|discriminate].
  apply create_scoped in Ec. destruct Ec as [Hsc [Hh Hlen]].
  destruct (sequence_ranks_scoped _ _ _ _ _ _ Hsc Hh Es) as [Hsc1 Hv1].
  pose proof (enumerate_terminates fuel self h' cs max_solutions m1 0%nat
                (-1)%Q Hsc1) as Ht.
  rewrite Hv1 in Ht. specialize (Ht Hh).
  pose proof (feasible_points_bound m1) as Hb. rewrite Hv1, Hlen in Hb.
  specialize (Ht ltac:(lia)).
  destruct (enumerate optimize fuel self h' cs max_solutions m1 0%nat (-1)%Q).
  exact Ht.
Qed.

End Termination.

(** ** Sample sessions *)


(** With a cap of one solution the empty pool ends on the cap, not on the
    empty selection: reached_max is True. *)
Lemma empty_pool_cap_one_reaches_max :
  ~ (exists evs v,
       solve exhaustive size_globals empty_optimiser 1 heap_empty 5
       = (evs, Returned v 1%nat false)).
Proof.
  intros [evs [v H]]. vm_compute in H. discriminate.
Qed.

(** C3 at a minimised last criterion: the second and third solves return
    objective values 1 and 2, each larger than the value before by more than
    EPSILON, and both selections are printed; the loop only ends when the
    model becomes infeasible. *)
Theorem tolerance_check_blind_to_sense :
  sense crit_cost = "MIN"
  /\ map (fun m => (status (exhaustive m), objVal (exhaustive m)))
       (optimize_calls (fst cost_session))
     = [(OPTIMAL, 0%Q); (OPTIMAL, 1%Q); (OPTIMAL, 2%Q); (INFEASIBLE, 0%Q)]
  /\ printed (fst cost_session)
     = [[altruist_item alt1]; [chain_item chain1]; [chain_item chain2]]
  /\ snd cost_session = Returned 2 3%nat false.
Proof. vm_compute. repeat split. Qed.

(** C8 at the same session: one selection is tied-optimal at the last rank,
    and the loop makes four solves. *)
Theorem enumeration_exceeds_tied_optimal_bound :
  exists m,
    final_rank_model exhaustive cost_globals (chains_optimiser [crit_cost])
      heap_empty = Some m
    /\ length (tied_optimal m) = 1%nat
    /\ length (optimize_calls (fst cost_session)) = 4%nat
    /\ snd cost_session = Returned 2 3%nat false.
Proof.
  eexists. split; [vm_compute; reflexivity|]. vm_compute. repeat split.
Qed.

(** C4 at a first rank the solver does not solve to OPTIMAL: solve ends
    in UnboundLocalError, not in OptimisationException. *)
Theorem intermediate_failure_raises_UnboundLocalError :
  snd (solve interrupted {| g_opt_criteria := Some [crit_size; crit_cost] |}
         sample_optimiser 100 heap_empty 10)
  = Raised (UnboundLocalError "solve_status").
Proof. vm_compute. reflexivity. Qed.

(** C5 at an optimiser constructed with [crit_size]: without the module
    global solve raises NameError, and with the global bound to another
    sequence solve optimises that one. *)
Theorem solve_reads_module_global :
  opt_criteria (chains_optimiser [crit_size]) = [crit_size]
  /\ snd (solve exhaustive {| g_opt_criteria := None |}
            (chains_optimiser [crit_size]) 100 heap_empty 10)
     = Raised (NameError "opt_criteria")
  /\ snd (solve exhaustive cost_globals
            (chains_optimiser [crit_size]) 100 heap_empty 10)
     = Returned 2 3%nat false
  /\ snd (solve exhaustive size_globals
            (chains_optimiser [crit_size]) 100 heap_empty 10)
     = Returned 1 2%nat false.
Proof. vm_compute. repeat split. Qed.

(** ** The theorems at the sample sessions *)

Lemma printed_selection_disjoint_witness :
  In (EvPrint [cycle_item cycle1; altruist_item alt1]) (fst size_session)
  /\ altruists_apart sample_optimiser = true
  /\ persons_disjoint sample_optimiser [cycle_item cycle1; altruist_item alt1]
  /\ altruists_accounted sample_optimiser
       [cycle_item cycle1; altruist_item alt1].
Proof.
  assert (Hin : In (EvPrint [cycle_item cycle1; altruist_item alt1])
                  (fst size_session)).
  { vm_compute. right. left. reflexivity. }
  split; [exact Hin|]. split; [reflexivity|].
  destruct (printed_selection_disjoint exhaustive size_globals sample_optimiser
              100 heap_empty 10 _ exhaustive_sound Hin) as [Hp Ha].
  split; [exact Hp|]. apply Ha. reflexivity.
Defined.




Lemma empty_pool_single_empty_solution_witness :
  exists evs1 m v,
    solve exhaustive size_globals empty_optimiser 100 heap_empty 1
    = (evs1 ++ [EvOptimize m; EvPrint []], Returned v 1%nat false)
    /\ printed evs1 = []
    /\ (v == 0)%Q.
Proof.
  apply (empty_pool_single_empty_solution exhaustive empty_optimiser
           eq_refl eq_refl eq_refl exhaustive_complete
           exhaustive_reports_objective size_globals 100 heap_empty 0
           [crit_size] eq_refl).
  discriminate.
Defined.


(** * More on the session *)

Section Session.

Variable optimize : Model -> Solution.

(** The outcomes of one turn of the loop, in full. *)
Lemma enumerate_body_turn (self : PoolOptimiser) (h : Heap)
    (cs : list OptCriterion) (max_solutions : Z) (model : Model)
    (n : nat) (best : Q) (evs : list Event) (nx : Next) :
  enumerate_body optimize self h cs max_solutions model n best = (evs, nx) ->
  (evs = []
   /\ ((last cs = None /\ nx = Break (Raised IndexError))
       \/ exists c e, last cs = Some c /\ objective_of self c h = Raise e
                      /\ nx = Break (Raised e)))
  \/ exists c z,
       last cs = Some c /\ objective_of self c h = Ok z
       /\ let m' := setObjective z (sense_of c) model in
          let sol := optimize m' in
          (evs = [EvOptimize m']
           /\ ((expected_status (status sol) = true /\ status sol <> OPTIMAL
                /\ nx = Break (Returned best n false))
               \/ (expected_status (status sol) = false
                   /\ nx = Break (Raised (OptimisationException (status sol))))
               \/ (status sol = OPTIMAL
                   /\ Qltb (objVal sol + EPSILON) best = true
                   /\ nx = Break (Returned best n false))
               \/ (status sol = OPTIMAL
                   /\ exists e, optimal_selection self h sol = Raise e
                                /\ nx = Break (Raised e))))
          \/ exists items optimal_vars,
               status sol = OPTIMAL
               /\ Qltb (objVal sol + EPSILON) best = false
               /\ optimal_selection self h sol = Ok (items, optimal_vars)
               /\ evs = [EvOptimize m'; EvPrint items]
               /\ ((Z.of_nat (S n) = max_solutions
                    /\ nx = Break (Returned (objVal sol) (S n) true))
                   \/ (Z.of_nat (S n) <> max_solutions
                       /\ optimal_vars = []
                       /\ nx = Break (Returned (objVal sol) (S n) false))
                   \/ (Z.of_nat (S n) <> max_solutions
                       /\ optimal_vars <> []
                       /\ nx = Continue
                                 (addConstr (no_good_cut optimal_vars) m')
                                 (S n) (objVal sol))).
Proof.
  unfold enumerate_body, try. intros H.
  destruct (last_r cs) as [c|e] eqn:Ec.
  2:{ injection H as <- <-. left. split; [reflexivity|]. left.
      unfold last_r in Ec. destruct (last cs); [discriminate|].
      injection Ec as <-. auto. }
  apply last_r_Ok in Ec.
  destruct (_optimise optimize self model c h) as [[[z m'] sol]|e] eqn:Eo.
  2:{ injection H as <- <-. left. split; [reflexivity|]. right.
      exists c, e. split; [exact Ec|]. split; [|reflexivity].
      unfold _optimise in Eo. destruct (objective_of self c h);
        cbn [bind] in Eo; [discriminate|congruence]. }
  apply optimise_Ok in Eo. destruct Eo as [Ez [-> ->]].
  right. exists c, z. split; [exact Ec|]. split; [exact Ez|]. cbv zeta.
  set (m' := setObjective z (sense_of c) model) in *.
  unfold expected_status.
  destruct (Status_eqb (status (optimize m')) OPTIMAL) eqn:Es.
  - apply Status_eqb_eq in Es. rewrite Es in H. cbn [Status_eqb orb negb] in H.
    destruct (Qltb (objVal (optimize m') + EPSILON) best) eqn:Eq.
    { injection H as <- <-. left. split; [reflexivity|].
      right. right. left. auto. }
    destruct (optimal_selection self h (optimize m')) as [[items ov]|e] eqn:Esel.
    2:{ injection H as <- <-. left. split; [reflexivity|].
        right. right. right. split; [exact Es|]. eauto. }
    right. exists items, ov.
    split; [exact Es|]. split; [reflexivity|]. split; [reflexivity|].
    destruct (Z.of_nat (S n) =? max_solutions)%Z eqn:Em.
    { injection H as <- <-. split; [reflexivity|]. left.
      apply Z.eqb_eq in Em. auto. }
    apply Z.eqb_neq in Em.
    destruct ov as [|v ov]; cbn [length Nat.eqb] in H; injection H as <- <-;
      (split; [reflexivity|]); right; [left|right]; repeat split;
      first [exact Em|discriminate|reflexivity].
  - assert (Hne : status (optimize m') <> OPTIMAL).
    { intros E. rewrite E in Es. discriminate Es. }
    cbn [negb] in H.
    destruct (Status_eqb (status (optimize m')) INF_OR_UNBD
              || Status_eqb (status (optimize m')) INFEASIBLE) eqn:Ei.
    + injection H as <- <-. left. split; [reflexivity|]. left.
      split; [|split; [exact Hne|reflexivity]].
      cbn [orb]. rewrite orb_comm. exact Ei.
    + injection H as <- <-. left. split; [reflexivity|]. right. left.
      split; [|reflexivity]. cbn [orb]. rewrite orb_comm. exact Ei.
Qed.

(** Split one turn of the loop into its nine outcomes. *)
Ltac turn_cases H :=
  apply enumerate_body_turn in H;
  destruct H as [[? [[? ?]|(?c & ?e & ?Hc & ?Hz & ?)]]
                |(?c & ?z & ?Hc & ?Hz & H)];
  [ | | cbv zeta in H;
        destruct H as
          [[? [(?Hex & ?Hst & ?)
              |[(?Hex & ?)
               |[(?Hst & ?Htol & ?)
                |(?Hst & ?e & ?Hsel & ?)]]]]
          |(?items & ?ov & ?Hst & ?Htol & ?Hsel & ?
            & [(?Hcap & ?)|[(?Hcap & ?Hov & ?)|(?Hcap & ?Hov & ?)]])] ].

(** The solution counter counts the prints, and the flag is raised exactly
    when the counter meets the cap right after a print. *)
Lemma enumerate_counts (fuel : nat) (self : PoolOptimiser) (h : Heap)
    (cs : list OptCriterion) (max_solutions : Z) (model : Model)
    (n : nat) (best : Q) (evs : list Event) (b : Q) (k : nat) (r : bool) :
  (n = 0%nat \/ Z.of_nat n <> max_solutions) ->
  enumerate optimize fuel self h cs max_solutions model n best
  = (evs, Returned b k r) ->
  k = (n + length (printed evs))%nat
  /\ (r = true <-> (1 <= k /\ Z.of_nat k = max_solutions)).
Proof.
  revert model n best evs.
  induction fuel as [|fuel IH]; intros model n best evs Hn H;
    [discriminate H|].
  apply enumerate_step in H.
  destruct H as
    [evs_b [nx [Hb [[-> ->]|(m2 & n2 & b2 & evs' & -> & He & ->)]]]];
    turn_cases Hb; subst; try discriminate.
  - match goal with H : Break _ = Break _ |- _ =>
      injection H as Eb Ek Er; subst b k r end.
    cbn [printed flat_map length app]. split; [lia|].
    split; [discriminate|]. intros [H1 H2]. destruct Hn; [lia|contradiction].
  - match goal with H : Break _ = Break _ |- _ =>
      injection H as Eb Ek Er; subst b k r end.
    cbn [printed flat_map length app]. split; [lia|].
    split; [discriminate|]. intros [H1 H2]. destruct Hn; [lia|contradiction].
  - match goal with H : Break _ = Break _ |- _ =>
      injection H as Eb Ek Er; subst b k r end.
    cbn [printed flat_map length app]. split; [lia|].
    split; [intros _; split; [lia|reflexivity]|reflexivity].
  - match goal with H : Break _ = Break _ |- _ =>
      injection H as Eb Ek Er; subst b k r end.
    cbn [printed flat_map length app]. split; [lia|].
    split; [discriminate|]. intros [_ H2]. contradiction.
  - match goal with H : Continue _ _ _ = Continue _ _ _ |- _ =>
      injection H as Em2 En2 Eb2; subst m2 n2 b2 end.
    apply IH in He; [|right; assumption].
    destruct He as [-> He]. rewrite printed_app, length_app.
    cbn [printed flat_map length app]. split; [lia|]. exact He.
Qed.

Ltac same_next :=
  match goal with
  | H : Break (Returned _ _ _) = Break (Returned _ _ _) |- _ =>
      injection H as ? ? ?
  | H : Break _ = Break _ |- _ => injection H as ?
  | H : Continue _ _ _ = Continue _ _ _ |- _ => injection H as ? ? ?
  end; subst.

(** The counter never passes a positive cap, however the loop ends. *)
Lemma enumerate_cap (fuel : nat) (self : PoolOptimiser) (h : Heap)
    (cs : list OptCriterion) (max_solutions : Z) (model : Model)
    (n : nat) (best : Q) (evs : list Event) (s : Stop) :
  (Z.of_nat n < max_solutions)%Z ->
  enumerate optimize fuel self h cs max_solutions model n best = (evs, s) ->
  (Z.of_nat (n + length (printed evs)) <= max_solutions)%Z.
Proof.
  revert model n best evs.
  induction fuel as [|fuel IH]; intros model n best evs Hn H.
  { injection H as <- <-. cbn [printed flat_map length]. lia. }
  apply enumerate_step in H.
  destruct H as
    [evs_b [nx [Hb [[-> ->]|(m2 & n2 & b2 & evs' & -> & He & ->)]]]];
    turn_cases Hb; subst; try discriminate;
    try (cbn [printed flat_map length app]; lia).
  same_next. apply IH in He; [|lia].
  rewrite printed_app, length_app. cbn [printed flat_map length app]. lia.
Qed.

(** The value the loop returns: the one it was entered with when nothing
    is printed, else the objective value of the solve before the last
    print. *)
Lemma enumerate_returned_objective (fuel : nat) (self : PoolOptimiser)
    (h : Heap) (cs : list OptCriterion) (max_solutions : Z) (model : Model)
    (n : nat) (best : Q) (evs : list Event) (b : Q) (k : nat) (r : bool) :
  enumerate optimize fuel self h cs max_solutions model n best
  = (evs, Returned b k r) ->
  (printed evs = [] /\ b = best)
  \/ exists evs1 m items evs2,
       evs = evs1 ++ EvOptimize m :: EvPrint items :: evs2
       /\ printed evs2 = [] /\ b = objVal (optimize m).
Proof.
  revert model n best evs.
  induction fuel as [|fuel IH]; intros model n best evs H; [discriminate H|].
  apply enumerate_step in H.
  destruct H as
    [evs_b [nx [Hb [[-> ->]|(m2 & n2 & b2 & evs' & -> & He & ->)]]]];
    turn_cases Hb; subst; try discriminate; same_next.
  - left. auto.
  - left. auto.
  - right. exists [], (setObjective z (sense_of c) model), items, []. auto.
  - right. exists [], (setObjective z (sense_of c) model), items, []. auto.
  - apply IH in He.
    destruct He as [[Hp ->]|(evs1 & m & items' & evs2 & -> & Hp & ->)].
    + right. exists [], (setObjective z (sense_of c) model), items, evs'. auto.
    + right.
      exists ([EvOptimize (setObjective z (sense_of c) model); EvPrint items]
                ++ evs1), m, items', evs2.
      rewrite <- app_assoc. auto.
Qed.

(** Nothing is printed before the loop, and a session that gets past the
    ranks is the ranks' trace followed by the loop's. *)
Lemma solve_inv_printed (G : Globals) (self : PoolOptimiser)
    (max_solutions : Z) (h : Heap) (fuel : nat) (evs : list Event)
    (s : Stop) :
  solve optimize G self max_solutions h fuel = (evs, s) ->
  (printed evs = [] /\ exists e, s = Raised e)
  \/ exists m0 h' cs evs1 m1 evs2,
       _create_vars_and_constraints self Model_new (patients (pool self))
         (paired_donors (pool self)) (altruists (pool self)) h = Ok (m0, h')
       /\ g_opt_criteria G = Some cs
       /\ sequence_ranks optimize self h' (removelast cs) m0 = (evs1, Ok m1)
       /\ enumerate optimize fuel self h' cs max_solutions m1 0%nat (-1)%Q
          = (evs2, s)
       /\ evs = evs1 ++ evs2
       /\ printed evs1 = [].
Proof.
  intros H. apply solve_inv in H.
  destruct H as [[-> He]|(m0 & h' & cs & evs1 & r & Hc & Hg & Hs & H)].
  { left. auto. }
  assert (Hp : printed evs1 = []).
  { apply printed_nil. intros i. eapply sequence_ranks_no_print. exact Hs. }
  destruct H as [(e & -> & -> & ->)|(m1 & evs2 & -> & He & ->)].
  - left. eauto.
  - right. exists m0, h', cs, evs1, m1, evs2. auto 10.
Qed.

(** X2. When solve returns (best, n_solutions, limit_reached), n_solutions
    is the number of solutions it printed, and limit_reached is True exactly
    when that number is positive and equals max_solutions: with
    max_solutions = 0 or negative the flag is never raised. *)
Theorem solve_counts_printed (G : Globals) (self : PoolOptimiser)
    (max_solutions : Z) (h : Heap) (fuel : nat) (evs : list Event)
    (b : Q) (n : nat) (r : bool) :
  solve optimize G self max_solutions h fuel = (evs, Returned b n r) ->
  n = length (printed evs)
  /\ (r = true <-> (1 <= n /\ Z.of_nat n = max_solutions)).
Proof.
  intros H. apply solve_inv_printed in H.
  destruct H as [[_ [e He]]|(m0 & h' & cs & evs1 & m1 & evs2 & _ & _ & _
                             & He & -> & Hp)]; [discriminate He|].
  apply enumerate_counts in He; [|left; reflexivity].
  rewrite printed_app, Hp. exact He.
Qed.

(** X3. With max_solutions at least 1, solve never prints more than
    max_solutions solutions, whether it returns, raises or is cut short. *)
Theorem solve_respects_cap (G : Globals) (self : PoolOptimiser)
    (max_solutions : Z) (h : Heap) (fuel : nat) :
  (1 <= max_solutions)%Z ->
  (Z.of_nat (length (printed (fst (solve optimize G self max_solutions h fuel))))
   <= max_solutions)%Z.
Proof.
  intros Hm.
  destruct (solve optimize G self max_solutions h fuel) as [evs s] eqn:H.
  cbn [fst]. apply solve_inv_printed in H.
  destruct H as [[-> _]|(m0 & h' & cs & evs1 & m1 & evs2 & _ & _ & _
                         & He & -> & Hp)]; [cbn [length]; lia|].
  apply enumerate_cap in He; [|lia].
  rewrite printed_app, Hp. exact He.
Qed.

(** X4. The objective value solve returns is the sentinel -1 when nothing
    was printed, and otherwise the value of the solve whose solution was
    printed last: not the best value met, but the last one accepted. *)
Theorem solve_returns_last_accepted (G : Globals) (self : PoolOptimiser)
    (max_solutions : Z) (h : Heap) (fuel : nat) (evs : list Event)
    (b : Q) (n : nat) (r : bool) :
  solve optimize G self max_solutions h fuel = (evs, Returned b n r) ->
  (printed evs = [] /\ b = (-1)%Q)
  \/ exists evs1 m items evs2,
       evs = evs1 ++ EvOptimize m :: EvPrint items :: evs2
       /\ printed evs2 = [] /\ b = objVal (optimize m).
Proof.
  intros H. apply solve_inv_printed in H.
  destruct H as [[_ [e He]]|(m0 & h' & cs & evs1 & m1 & evs2 & _ & _ & _
                             & He & -> & Hp)]; [discriminate He|].
  apply enumerate_returned_objective in He.
  destruct He as [[Hp2 ->]|(evs3 & m & items & evs4 & -> & Hp4 & ->)].
  - left. rewrite printed_app, Hp, Hp2. auto.
  - right. exists (evs1 ++ evs3), m, items, evs4.
    rewrite <- app_assoc. auto.
Qed.

Lemma selection_value_app (c : OptCriterion) (l1 l2 : list Item) :
  (selection_value c (l1 ++ l2)
   == selection_value c l1 + selection_value c l2)%Q.
Proof.
  unfold selection_value.
  induction l1 as [|i l1 IH]; cbn [fold_right app].
  - ring.
  - rewrite IH. ring.
Qed.

(** The terms of one kind of item, at the point of a solution, add up to
    the value of the items of that kind the solution selects. *)
Lemma eval_terms_selected {A} (sol : Solution) (h : Heap) (oid_of : A -> oid)
    (val : A -> Q) (K : A -> Item) (c : OptCriterion) (xs : list A) :
  (forall x, item_value c (K x) = val x) ->
  (eval (indicator sol)
     (quicksum (map (fun x => term (var_of (mip_var h) (oid_of x)) (val x)) xs))
   == selection_value c
        (map K (List.filter (fun x => chosen_at h sol (oid_of x)) xs)))%Q.
Proof.
  intros HK. induction xs as [|x xs IH]; [reflexivity|].
  cbn [map quicksum concat term app eval fold_right List.filter].
  fold (eval (indicator sol)
          (quicksum (map (fun x => term (var_of (mip_var h) (oid_of x)) (val x))
                       xs))).
  rewrite IH. unfold indicator at 1, chosen_at at 2.
  destruct (chosen sol (var_of (mip_var h) (oid_of x)));
    cbn [map selection_value fold_right];
    fold (selection_value c
            (map K (List.filter (fun x => chosen_at h sol (oid_of x)) xs)));
    [rewrite HK|]; ring.
Qed.

Lemma terms_Ok {A} (h : Heap) (oid_of : A -> oid) (val : A -> Q)
    (xs : list A) (zs : list LinExpr) :
  map_r (fun x => do v <- get_mip_var (oid_of x) h; Ok (term v (val x))) xs
  = Ok zs ->
  zs = map (fun x => term (var_of (mip_var h) (oid_of x)) (val x)) xs.
Proof.
  apply map_r_Ok. intros x y _. unfold get_mip_var, var_of.
  destruct (mip_var h !! oid_of x) as [v|]; cbn [bind default];
    [|discriminate].
  intros H. injection H as <-. reflexivity.
Qed.

(** The objective of a criterion, at the point of a solution, is the value
    the criterion gives the selection read off that solution. *)
Lemma objective_at_selection (self : PoolOptimiser) (c : OptCriterion)
    (h : Heap) (sol : Solution) (z : LinExpr) (items : list Item)
    (optimal_vars : list Var) :
  objective_of self c h = Ok z ->
  optimal_selection self h sol = Ok (items, optimal_vars) ->
  (eval (indicator sol) z == selection_value c items)%Q.
Proof.
  intros Hz Hsel. apply optimal_selection_Ok in Hsel.
  destruct Hsel as [-> _]. unfold objective_of in Hz.
  destruct (map_r _ (chains self)) as [zc|] eqn:E1; cbn [bind] in Hz;
    [|discriminate].
  destruct (map_r _ (cycles self)) as [zy|] eqn:E2; cbn [bind] in Hz;
    [|discriminate].
  destruct (map_r _ (altruists (pool self))) as [za|] eqn:E3; cbn [bind] in Hz;
    [|discriminate].
  injection Hz as <-.
  apply terms_Ok in E1, E2, E3. subst zc zy za.
  unfold quicksum. rewrite !concat_app, !eval_app, !selection_value_app.
  rewrite (eval_terms_selected sol h chain_oid (chain_val c) chain_item c),
    (eval_terms_selected sol h cycle_oid (cycle_val c) cycle_item c),
    (eval_terms_selected sol h altruist_oid (altruist_val c) altruist_item c);
    reflexivity.
Qed.

Lemma turn_print_split (m' : Model) (items0 : list Item) (evs' pre : list Event)
    (items : list Item) (post : list Event) :
  [EvOptimize m'; EvPrint items0] ++ evs' = pre ++ EvPrint items :: post ->
  (pre = [EvOptimize m'] /\ items = items0 /\ post = evs')
  \/ exists pre2,
       pre = [EvOptimize m'; EvPrint items0] ++ pre2
       /\ evs' = pre2 ++ EvPrint items :: post.
Proof.
  destruct pre as [|e1 [|e2 pre2]]; cbn [app]; intros H.
  - discriminate H.
  - injection H as E1 E2 E3. subst. left. auto.
  - injection H as E1 E2 E3. subst. right. exists pre2. auto.
Qed.

Lemma turn_no_print (m' : Model) (pre : list Event) (items : list Item)
    (post : list Event) :
  [EvOptimize m'] <> pre ++ EvPrint items :: post.
Proof.
  destruct pre as [|e1 pre]; cbn [app]; intros H; [discriminate H|].
  injection H as _ H. destruct pre; discriminate H.
Qed.

(** A print follows the solve it reports: the event before it is an
    OPTIMAL solve of the last criterion on a model that extends the one the
    loop was entered with, and the printed items are its selection. *)
Lemma enumerate_print_shape (fuel : nat) (self : PoolOptimiser) (h : Heap)
    (cs : list OptCriterion) (max_solutions : Z) (model : Model)
    (n : nat) (best : Q) (evs : list Event) (s : Stop)
    (pre : list Event) (items : list Item) (post : list Event) :
  enumerate optimize fuel self h cs max_solutions model n best = (evs, s) ->
  evs = pre ++ EvPrint items :: post ->
  exists pre' m c optimal_vars,
    pre = pre' ++ [EvOptimize m]
    /\ last cs = Some c
    /\ objective_of self c h = Ok (objective m)
    /\ modelSense m = sense_of c
    /\ vars m = vars model
    /\ (forall c', In c' (constrs model) -> In c' (constrs m))
    /\ status (optimize m) = OPTIMAL
    /\ optimal_selection self h (optimize m) = Ok (items, optimal_vars).
Proof.
  revert model n best evs pre.
  induction fuel as [|fuel IH]; intros model n best evs pre H Hev.
  { injection H as <- <-. destruct pre; discriminate Hev. }
  apply enumerate_step in H.
  destruct H as
    [evs_b [nx [Hb [[-> ->]|(m2 & n2 & b2 & evs' & -> & He & ->)]]]];
    turn_cases Hb; subst evs_b; try discriminate;
    try (destruct pre; discriminate Hev);
    try (exfalso; eapply turn_no_print; exact Hev).
  - rewrite <- (app_nil_r [_; _]) in Hev. apply turn_print_split in Hev.
    destruct Hev as [(-> & -> & ->)|(pre2 & _ & Hnil)];
      [|destruct pre2; discriminate Hnil].
    exists [], (setObjective z (sense_of c) model), c, ov. auto 10.
  - rewrite <- (app_nil_r [_; _]) in Hev. apply turn_print_split in Hev.
    destruct Hev as [(-> & -> & ->)|(pre2 & _ & Hnil)];
      [|destruct pre2; discriminate Hnil].
    exists [], (setObjective z (sense_of c) model), c, ov. auto 10.
  - same_next. apply turn_print_split in Hev.
    destruct Hev as [(-> & -> & ->)|(pre2 & -> & Hev)].
    { exists [], (setObjective z (sense_of c) model), c, ov. auto 10. }
    destruct (IH _ _ _ _ _ He Hev)
      as (pre' & m & c' & ov' & -> & Hc' & Hz' & Hs' & Hv' & Hcs' & Hst' & Hsel').
    exists ([EvOptimize (setObjective z (sense_of c) model); EvPrint items0]
              ++ pre'), m, c', ov'.
    rewrite <- app_assoc. split; [reflexivity|].
    split; [exact Hc'|]. split; [exact Hz'|]. split; [exact Hs'|].
    split; [rewrite Hv'; reflexivity|].
    split; [|auto].
    intros c0 Hc0. apply Hcs'. cbn [constrs addConstr setObjective].
    apply in_or_app. left. exact Hc0.
Qed.

(** X5. Every printed solution is printed right after the solve it comes
    from; for a solver that reports the objective of its point, that solve
    is OPTIMAL, optimises in the sense of the last criterion, and its
    objective value is the value the last criterion gives the printed
    chains, cycles and unused altruists. *)
Theorem printed_selection_value (G : Globals) (self : PoolOptimiser)
    (max_solutions : Z) (h : Heap) (fuel : nat) (evs : list Event) (s : Stop)
    (cs : list OptCriterion) (c : OptCriterion)
    (pre : list Event) (items : list Item) (post : list Event) :
  solver_reports_objective optimize ->
  solve optimize G self max_solutions h fuel = (evs, s) ->
  g_opt_criteria G = Some cs ->
  last cs = Some c ->
  evs = pre ++ EvPrint items :: post ->
  exists pre' m,
    pre = pre' ++ [EvOptimize m]
    /\ status (optimize m) = OPTIMAL
    /\ modelSense m = sense_of c
    /\ (objVal (optimize m) == selection_value c items)%Q.
Proof.
  intros Hrep H Hg Hc Hev. apply solve_inv_printed in H.
  destruct H as [[Hp _]|(m0 & h' & cs' & evs1 & m1 & evs2 & _ & Hg' & Hs
                         & He & -> & Hp)].
  { rewrite Hev, printed_app in Hp. cbn [printed flat_map app] in Hp.
    destruct (printed pre); discriminate Hp. }
  rewrite Hg in Hg'. injection Hg' as <-.
  apply split_after_prefix in Hev.
  2:{ intros i. eapply sequence_ranks_no_print. exact Hs. }
  destruct Hev as (pre2 & -> & Hev).
  destruct (enumerate_print_shape _ _ _ _ _ _ _ _ _ _ _ _ _ He Hev)
    as (pre' & m & c' & ov & -> & Hc' & Hz & Hsn & _ & _ & Hst & Hsel).
  rewrite Hc in Hc'. injection Hc' as <-.
  exists (evs1 ++ pre'), m. rewrite <- app_assoc.
  split; [reflexivity|]. split; [exact Hst|]. split; [exact Hsn|].
  rewrite (Hrep m Hst). eapply objective_at_selection; eassumption.
Qed.

(** The solve of a rank a session got past: OPTIMAL, on a model between
    the one the ranks started from and the one they end with, which carries
    the rank's value as a constraint. *)
Lemma sequence_ranks_nth (self : PoolOptimiser) (h : Heap)
    (cs : list OptCriterion) (model : Model) (evs : list Event) (m1 : Model)
    (k : nat) (c : OptCriterion) :
  sequence_ranks optimize self h cs model = (evs, Ok m1) ->
  nth_error cs k = Some c ->
  exists m,
    nth_error evs k = Some (EvOptimize m)
    /\ status (optimize m) = OPTIMAL
    /\ objective_of self c h = Ok (objective m)
    /\ modelSense m = sense_of c
    /\ vars m = vars model
    /\ (forall c', In c' (constrs model) -> In c' (constrs m))
    /\ (forall c', In c' (constrs m) -> In c' (constrs m1))
    /\ In (enforced m c (objVal (optimize m))) (constrs m1).
Proof.
  revert model evs k.
  induction cs as [|c0 cs IH]; intros model evs k H Hk;
    [destruct k; discriminate Hk|].
  cbn [sequence_ranks] in H.
  destruct (_optimise optimize self model c0 h) as [[[z m'] sol]|e] eqn:Eo;
    [|discriminate H].
  apply optimise_Ok in Eo. destruct Eo as [Ez [-> ->]].
  set (m' := setObjective z (sense_of c0) model) in *.
  destruct (Status_eqb (status (optimize m')) OPTIMAL) eqn:Es;
    cbn [negb] in H; [|discriminate H].
  apply Status_eqb_eq in Es.
  destruct (sequence_ranks optimize self h cs
              (_enforce_objective m' z (objVal (optimize m')) (sense c0)))
    as [evs' r] eqn:Er.
  injection H as <- ->.
  pose proof (enforce_objective_constrs m' z (objVal (optimize m')) (sense c0))
    as [Hv Hcs].
  pose proof (sequence_ranks_extend optimize _ _ _ _ _ _ Er) as [_ Hext].
  destruct (Hext m1 eq_refl) as [_ Hext1].
  destruct k as [|k]; cbn [nth_error] in Hk |- *.
  - injection Hk as <-. exists m'.
    split; [reflexivity|]. split; [exact Es|]. split; [exact Ez|].
    split; [reflexivity|]. split; [reflexivity|].
    split; [intros c' Hc'; exact Hc'|].
    split.
    + intros c' Hc'. apply Hext1. rewrite Hcs. apply in_or_app. left.
      exact Hc'.
    + apply Hext1. rewrite Hcs. apply in_or_app. right. left. reflexivity.
  - destruct (IH _ _ _ Er Hk)
      as (m & Hn & Hst & Hz & Hs & Hvm & Hpre & Hpost & Hen).
    exists m. split; [exact Hn|]. split; [exact Hst|]. split; [exact Hz|].
    split; [exact Hs|]. split; [rewrite Hvm, Hv; reflexivity|].
    split; [|auto].
    intros c' Hc'. apply Hpre. rewrite Hcs. apply in_or_app. left. exact Hc'.
Qed.

(** X6. The hierarchy is kept: every printed solution is at least as good,
    under each criterion before the last, as the value that criterion's own
    solve found (at least that value for sense 'MAX', at most for any other
    sense), provided the solver's OPTIMAL answers satisfy the constraints. *)
Theorem printed_selection_keeps_ranks (G : Globals) (self : PoolOptimiser)
    (max_solutions : Z) (h : Heap) (fuel : nat) (evs : list Event) (s : Stop)
    (cs : list OptCriterion) (k : nat) (c : OptCriterion)
    (items : list Item) :
  solver_sound optimize ->
  solve optimize G self max_solutions h fuel = (evs, s) ->
  g_opt_criteria G = Some cs ->
  nth_error (removelast cs) k = Some c ->
  In (EvPrint items) evs ->
  exists m,
    nth_error evs k = Some (EvOptimize m)
    /\ status (optimize m) = OPTIMAL
    /\ if String.eqb (sense c) "MAX"
       then (objVal (optimize m) <= selection_value c items)%Q
       else (selection_value c items <= objVal (optimize m))%Q.
Proof.
  intros Hsound H Hg Hk Hin. apply solve_inv_printed in H.
  destruct H as [[Hp _]|(m0 & h' & cs' & evs1 & m1 & evs2 & _ & Hg' & Hs
                         & He & -> & Hp)].
  { apply in_split in Hin. destruct Hin as (pre & post & ->).
    rewrite printed_app in Hp. cbn [printed flat_map app] in Hp.
    destruct (printed pre); discriminate Hp. }
  rewrite Hg in Hg'. injection Hg' as <-.
  apply in_app_or in Hin. destruct Hin as [Hin|Hin].
  { exfalso. eapply sequence_ranks_no_print; eassumption. }
  apply in_split in Hin. destruct Hin as (pre & post & Hev).
  destruct (enumerate_print_shape _ _ _ _ _ _ _ _ _ _ _ _ _ He Hev)
    as (pre' & mp & c' & ov & _ & _ & _ & _ & _ & Hext & Hst & Hsel).
  destruct (sequence_ranks_nth _ _ _ _ _ _ _ _ Hs Hk)
    as (m & Hn & Hstm & Hz & _ & _ & _ & _ & Hen).
  exists m. split.
  { rewrite nth_error_app1; [exact Hn|].
    apply nth_error_Some. rewrite Hn. discriminate. }
  split; [exact Hstm|].
  pose proof (Hsound mp Hst) as Hall.
  rewrite List.Forall_forall in Hall.
  specialize (Hall _ (Hext _ Hen)).
  pose proof (objective_at_selection _ _ _ _ _ _ _ Hz Hsel) as Hval.
  unfold holds, enforced in Hall. cbn [lhs rel rhs] in Hall.
  destruct (String.eqb (sense c) "MAX"); rewrite <- Hval; exact Hall.
Qed.

(** The point the reference solver picks is no worse than any other
    candidate point. *)
Lemma pick_best_optimal (m : Model) (first : list bool)
    (rest : list (list bool)) (bs : list bool) :
  In bs (first :: rest) ->
  match modelSense m with
  | MAXIMIZE => (eval (assignment bs) (objective m)
                 <= eval (assignment (pick_best m first rest)) (objective m))%Q
  | MINIMIZE => (eval (assignment (pick_best m first rest)) (objective m)
                 <= eval (assignment bs) (objective m))%Q
  end.
Proof.
  unfold pick_best. revert first bs.
  induction rest as [|cand rest IH]; intros first bs Hin.
  { destruct Hin as [<-|[]]. cbn [fold_left].
    destruct (modelSense m); apply Qle_refl. }
  cbn [fold_left].
  set (first' := if better (modelSense m)
                      (eval (assignment cand) (objective m))
                      (eval (assignment first) (objective m))
                 then cand else first).
  pose proof (IH first' first' (or_introl eq_refl)) as Hfirst'.
  destruct Hin as [<-|[<-|Hin]].
  - unfold first', better in *.
    destruct (modelSense m);
      destruct (Qltb _ _) eqn:Eq; try exact Hfirst';
      apply Qltb_lt in Eq; apply Qlt_le_weak in Eq;
      eapply Qle_trans; eassumption.
  - unfold first', better in *.
    destruct (modelSense m);
      destruct (Qltb _ _) eqn:Eq; try exact Hfirst';
      apply Qltb_ge in Eq; eapply Qle_trans; eassumption.
  - apply IH. right. exact Hin.
Qed.

Lemma exhaustive_optimal : solver_optimal exhaustive.
Proof.
  intros m bs Hlen Hall Hst.
  assert (Hin : In bs (feasible_points m)).
  { unfold feasible_points. apply List.filter_In. split.
    - rewrite <- Hlen. apply assignments_complete.
    - apply forallb_forall. intros c Hc. apply holdsb_holds.
      rewrite List.Forall_forall in Hall. apply Hall. exact Hc. }
  unfold exhaustive in *.
  destruct (feasible_points m) as [|first rest] eqn:E; [destruct Hin|].
  cbn [objVal]. apply pick_best_optimal. exact Hin.
Qed.

(** X7. For a solver whose OPTIMAL answers are feasible and optimal, every
    printed solution attains, under each criterion before the last, exactly
    the optimum that criterion's own solve reported: later criteria only
    choose among the optima of the earlier ones. *)
Theorem printed_selection_attains_ranks (G : Globals) (self : PoolOptimiser)
    (max_solutions : Z) (h : Heap) (fuel : nat) (evs : list Event) (s : Stop)
    (cs : list OptCriterion) (k : nat) (c : OptCriterion)
    (items : list Item) :
  solver_sound optimize ->
  solver_optimal optimize ->
  solve optimize G self max_solutions h fuel = (evs, s) ->
  g_opt_criteria G = Some cs ->
  nth_error (removelast cs) k = Some c ->
  In (EvPrint items) evs ->
  exists m,
    nth_error evs k = Some (EvOptimize m)
    /\ status (optimize m) = OPTIMAL
    /\ (selection_value c items == objVal (optimize m))%Q.
Proof.
  intros Hsound Hopt H Hg Hk Hin. apply solve_inv_printed in H.
  destruct H as [[Hp _]|(m0 & h' & cs' & evs1 & m1 & evs2 & Hcr & Hg' & Hs
                         & He & -> & Hp)].
  { apply in_split in Hin. destruct Hin as (pre & post & ->).
    rewrite printed_app in Hp. cbn [printed flat_map app] in Hp.
    destruct (printed pre); discriminate Hp. }
  rewrite Hg in Hg'. injection Hg' as <-.
  apply in_app_or in Hin. destruct Hin as [Hin|Hin].
  { exfalso. eapply sequence_ranks_no_print; eassumption. }
  apply in_split in Hin. destruct Hin as (pre & post & Hev).
  destruct (enumerate_print_shape _ _ _ _ _ _ _ _ _ _ _ _ _ He Hev)
    as (pre' & mp & c' & ov & _ & _ & _ & _ & _ & Hext & Hst & Hsel).
  destruct (sequence_ranks_nth _ _ _ _ _ _ _ _ Hs Hk)
    as (m & Hn & Hstm & Hz & Hsn & Hvm & _ & Hpost & Hen).
  apply create_scoped in Hcr. destruct Hcr as (Hsc0 & Hh & _).
  destruct (sequence_ranks_scoped _ _ _ _ _ _ _ Hsc0 Hh Hs) as [Hsc1 Hv1].
  exists m. split.
  { rewrite nth_error_app1; [exact Hn|].
    apply nth_error_Some. rewrite Hn. discriminate. }
  split; [exact Hstm|].
  pose proof (Hsound mp Hst) as Hall.
  rewrite List.Forall_forall in Hall.
  pose proof (objective_at_selection _ _ _ _ _ _ _ Hz Hsel) as Hval.
  pose proof (Hall _ (Hext _ Hen)) as Hge.
  unfold holds, enforced in Hge. cbn [lhs rel rhs] in Hge.
  pose proof (Hopt m (bits (length (vars m)) (optimize mp))) as Hle.
  rewrite bits_length in Hle. specialize (Hle eq_refl).
  rewrite (eval_scoped (length (vars m)) (optimize mp) (objective m)) in Hle.
  2:{ rewrite Hvm. eapply objective_of_scoped; eassumption. }
  assert (Hfeas : Forall (holds (assignment (bits (length (vars m))
                                               (optimize mp))))
                    (constrs m)).
  { apply List.Forall_forall. intros c0 Hc0. apply holds_scoped.
    - unfold scoped in Hsc1. rewrite List.Forall_forall in Hsc1.
      rewrite Hvm, <- Hv1. apply Hsc1. apply Hpost. exact Hc0.
    - apply Hall. apply Hext. apply Hpost. exact Hc0. }
  specialize (Hle Hfeas Hstm). rewrite Hsn in Hle. unfold sense_of in Hle.
  destruct (String.eqb (sense c) "MAX"); rewrite Hval in Hle, Hge;
    apply Qle_antisym; assumption.
Qed.



Lemma optimize_calls_app (evs1 evs2 : list Event) :
  optimize_calls (evs1 ++ evs2) = optimize_calls evs1 ++ optimize_calls evs2.
Proof. unfold optimize_calls. apply flat_map_app. Qed.

(** The solves of the ranks before the last: the j-th runs on the model the
    ranks started from with j constraints appended. *)
Lemma sequence_ranks_models (self : PoolOptimiser) (h : Heap)
    (cs : list OptCriterion) (model : Model) (evs : list Event)
    (r : result Model) :
  sequence_ranks optimize self h cs model = (evs, r) ->
  (forall j m, nth_error (optimize_calls evs) j = Some m ->
     vars m = vars model
     /\ exists extra, constrs m = constrs model ++ extra /\ length extra = j)
  /\ (forall m1, r = Ok m1 ->
        vars m1 = vars model
        /\ exists extra, constrs m1 = constrs model ++ extra
                         /\ length extra = length (optimize_calls evs)).
Proof.
  revert model evs r.
  induction cs as [|c0 cs IH]; intros model evs r H.
  { injection H as <- <-. split.
    - intros j m Hj. destruct j; discriminate Hj.
    - intros m1 Hm. injection Hm as <-. split; [reflexivity|].
      exists []. rewrite app_nil_r. auto. }
  cbn [sequence_ranks] in H.
  destruct (_optimise optimize self model c0 h) as [[[z m'] sol]|e] eqn:Eo.
  2:{ injection H as <- <-. split; [|discriminate].
      intros j m Hj. destruct j; discriminate Hj. }
  apply optimise_Ok in Eo. destruct Eo as [Ez [-> ->]].
  set (m' := setObjective z (sense_of c0) model) in *.
  assert (H0 : forall j m, nth_error [m'] j = Some m ->
            vars m = vars model
            /\ exists extra, constrs m = constrs model ++ extra
                             /\ length extra = j).
  { intros [|[|j]] m Hj; try discriminate Hj. injection Hj as <-.
    split; [reflexivity|]. exists []. cbn [constrs setObjective m'].
    rewrite app_nil_r. auto. }
  destruct (negb (Status_eqb (status (optimize m')) OPTIMAL)).
  { injection H as <- <-. split; [exact H0|discriminate]. }
  destruct (sequence_ranks optimize self h cs
              (_enforce_objective m' z (objVal (optimize m')) (sense c0)))
    as [evs' r'] eqn:Er.
  injection H as <- <-.
  pose proof (enforce_objective_constrs m' z (objVal (optimize m')) (sense c0))
    as [Hv Hcs].
  apply IH in Er. destruct Er as [IH1 IH2].
  change (optimize_calls (EvOptimize m' :: evs'))
    with (m' :: optimize_calls evs').
  split.
  - intros [|j] m Hj; [apply (H0 0%nat); exact Hj|].
    cbn [nth_error] in Hj. destruct (IH1 _ _ Hj) as [Hvm (extra & Hc & Hl)].
    split; [rewrite Hvm, Hv; reflexivity|].
    rewrite Hcs, <- app_assoc in Hc. eexists. split; [exact Hc|].
    cbn [app length]. rewrite Hl. reflexivity.
  - intros m1 Hm. destruct (IH2 _ Hm) as [Hvm (extra & Hc & Hl)].
    split; [rewrite Hvm, Hv; reflexivity|].
    rewrite Hcs, <- app_assoc in Hc. eexists. split; [exact Hc|].
    cbn [app length]. rewrite Hl. reflexivity.
Qed.

(** The solves of the loop: the j-th runs on the model the loop was entered
    with plus the j cuts of the solutions printed before it. *)
Lemma enumerate_models (fuel : nat) (self : PoolOptimiser) (h : Heap)
    (cs : list OptCriterion) (max_solutions : Z) (model : Model)
    (n : nat) (best : Q) (evs : list Event) (s : Stop) (j : nat) (m : Model) :
  enumerate optimize fuel self h cs max_solutions model n best = (evs, s) ->
  nth_error (optimize_calls evs) j = Some m ->
  vars m = vars model
  /\ exists extra, constrs m = constrs model ++ extra /\ length extra = j.
Proof.
  revert model n best evs j.
  induction fuel as [|fuel IH]; intros model n best evs j H Hj.
  { injection H as <- <-. destruct j; discriminate Hj. }
  assert (H0 : forall z c, nth_error [setObjective z (sense_of c) model] j
                           = Some m ->
            vars m = vars model
            /\ exists extra, constrs m = constrs model ++ extra
                             /\ length extra = j).
  { destruct j as [|[|j]]; intros z c Hm; try discriminate Hm.
    injection Hm as <-.
    split; [reflexivity|]. exists []. cbn [constrs setObjective].
    rewrite app_nil_r. auto. }
  apply enumerate_step in H.
  destruct H as
    [evs_b [nx [Hb [[-> ->]|(m2 & n2 & b2 & evs' & -> & He & ->)]]]];
    turn_cases Hb; subst evs_b; try discriminate;
    try (destruct j; discriminate Hj);
    try (eapply H0; exact Hj).
  same_next. rewrite optimize_calls_app in Hj.
  cbn [optimize_calls flat_map app] in Hj.
  destruct j as [|j]; [eapply H0; exact Hj|].
  cbn [nth_error] in Hj. fold (optimize_calls evs') in Hj.
  destruct (IH _ _ _ _ _ He Hj) as [Hvm (extra & Hcm & Hl)].
  split; [rewrite Hvm; reflexivity|].
  cbn [constrs addConstr setObjective] in Hcm. rewrite <- app_assoc in Hcm.
  eexists. split; [exact Hcm|]. cbn [app length]. rewrite Hl. reflexivity.
Qed.

(** X9. The model only grows by constraints: the j-th solver call of a
    session (counting from 0) runs on the variables of the model that
    _create_vars_and_constraints built and on its constraints followed by
    exactly j more, one for every earlier rank or earlier printed
    solution. *)
Theorem solve_models_grow (G : Globals) (self : PoolOptimiser)
    (max_solutions : Z) (h : Heap) (fuel : nat) (j : nat) (m : Model) :
  nth_error
    (optimize_calls (fst (solve optimize G self max_solutions h fuel))) j
  = Some m ->
  exists m0 h',
    _create_vars_and_constraints self Model_new (patients (pool self))
      (paired_donors (pool self)) (altruists (pool self)) h = Ok (m0, h')
    /\ vars m = vars m0
    /\ exists extra, constrs m = constrs m0 ++ extra /\ length extra = j.
Proof.
  destruct (solve optimize G self max_solutions h fuel) as [evs s] eqn:H.
  cbn [fst]. intros Hj. apply solve_inv in H.
  destruct H as [[-> _]|(m0 & h' & cs & evs1 & r & Hc & _ & Hs & H)];
    [destruct j; discriminate Hj|].
  exists m0, h'. split; [exact Hc|].
  apply sequence_ranks_models in Hs. destruct Hs as [S1 S2].
  destruct H as [(e & -> & -> & ->)|(m1 & evs2 & -> & He & ->)];
    [apply S1; exact Hj|].
  rewrite optimize_calls_app in Hj.
  destruct (S2 m1 eq_refl) as [Hv1 (extra1 & Hc1 & Hl1)].
  destruct (Nat.lt_ge_cases j (length (optimize_calls evs1))) as [Hlt|Hge].
  - rewrite nth_error_app1 in Hj by exact Hlt. apply S1. exact Hj.
  - rewrite nth_error_app2 in Hj by exact Hge.
    destruct (enumerate_models _ _ _ _ _ _ _ _ _ _ _ _ He Hj)
      as [Hvm (extra & Hcm & Hl)].
    split; [rewrite Hvm, Hv1; reflexivity|].
    rewrite Hc1, <- app_assoc in Hcm. eexists. split; [exact Hcm|].
    rewrite length_app, Hl1, Hl. lia.
Qed.

(** ** What a session can raise *)

Lemma append_mip_vars_keys (o : oid) (v : Var) (h h' : Heap) (o' : oid) :
  append_mip_vars o v h = Ok h' ->
  is_Some (mip_vars h !! o)
  /\ (mip_vars h' !! o' = None <-> mip_vars h !! o' = None).
Proof.
  unfold append_mip_vars, get_mip_vars.
  destruct (mip_vars h !! o) as [l|] eqn:E; cbn [bind]; [|discriminate].
  intros H. injection H as <-. split; [eexists; reflexivity|].
  cbn [mip_vars set_mip_vars]. destruct (decide (o' = o)) as [->|Hne].
  - rewrite lookup_insert_eq, E. split; discriminate.
  - rewrite lookup_insert_ne by congruence. reflexivity.
Qed.

(** Appending fails only on an object without an accumulator, and with
    AttributeError. *)
Lemma append_all_Raise (log : list (oid * Var)) (h : Heap) (e : exn) :
  append_all log h = Raise e ->
  exists o v, In (o, v) log /\ e = AttributeError o "mip_vars"
              /\ mip_vars h !! o = None.
Proof.
  unfold append_all. revert h.
  induction log as [|[o v] log IH]; intros h; [discriminate|].
  cbn [for_each].
  destruct (append_mip_vars o v h) as [h1|e1] eqn:E1; cbn [bind].
  - intros H. apply IH in H. destruct H as (o' & v' & Hin & -> & Hn).
    exists o', v'. split; [right; exact Hin|]. split; [reflexivity|].
    destruct (append_mip_vars_keys _ _ _ _ o' E1) as [_ Hk].
    apply Hk. exact Hn.
  - intros H. injection H as <-. exists o, v.
    split; [left; reflexivity|].
    unfold append_mip_vars, get_mip_vars in E1.
    destruct (mip_vars h !! o); cbn [bind] in E1; [discriminate|].
    injection E1 as <-. auto.
Qed.

(** Appending succeeds only when every object it appends to has an
    accumulator. *)
Lemma append_all_Ok_keys (log : list (oid * Var)) (h h' : Heap) :
  append_all log h = Ok h' ->
  forall e, In e log -> is_Some (mip_vars h !! fst e).
Proof.
  unfold append_all. revert h.
  induction log as [|[o v] log IH]; intros h H e Hin; [destruct Hin|].
  cbn [for_each] in H.
  destruct (append_mip_vars o v h) as [h1|e1] eqn:E1; cbn [bind] in H;
    [|discriminate].
  destruct Hin as [<-|Hin].
  - destruct (append_mip_vars_keys _ _ _ _ o E1) as [Hk _]. exact Hk.
  - specialize (IH _ H _ Hin).
    destruct (mip_vars h !! fst e) eqn:En; [eexists; reflexivity|].
    destruct (append_mip_vars_keys _ _ _ _ (fst e) E1) as [_ Hk].
    apply Hk in En. rewrite En in IH. destruct IH as [x Hx]. discriminate Hx.
Qed.

Lemma reset_all_notin (os : list oid) (h : Heap) (o : oid) :
  ~ In o os -> mip_vars (reset_all os h) !! o = mip_vars h !! o.
Proof.
  unfold reset_all. revert h.
  induction os as [|x os IH]; intros h Hn; [reflexivity|].
  cbn [fold_left]. rewrite IH by (intros Hin; apply Hn; right; exact Hin).
  cbn [mip_vars set_mip_vars]. apply lookup_insert_ne.
  intros ->. apply Hn. left. reflexivity.
Qed.

(** The objects the candidates append to are those of the log after the
    altruists' own entries. *)
Lemma append_log_objects (self : PoolOptimiser) (alts : list Altruist)
    (first : Var) (mv : gmap oid Var) (o : oid) :
  In o (map fst (append_log self alts first mv)) <->
  In o (map altruist_oid alts) \/ In o (candidate_objects self).
Proof.
  unfold append_log, candidate_objects.
  rewrite !map_app, !in_app_iff, altruist_entries_fst.
  rewrite (chain_entries_fst mv ∅), (cycle_entries_fst mv ∅). reflexivity.
Qed.

Lemma in_persons_altruist (pats : list Patient) (dons : list Donor)
    (alts : list Altruist) (o : oid) :
  In o (map altruist_oid alts) -> In o (persons pats dons alts).
Proof.
  intros H. unfold persons. apply in_or_app. right. apply in_or_app. right.
  exact H.
Qed.

(** Model construction fails only with AttributeError, on the accumulator
    of an object that a candidate refers to, that is no person of the pool
    handed in, and that had no accumulator before the call. *)
Lemma create_Raise (self : PoolOptimiser) (m : Model) (pats : list Patient)
    (dons : list Donor) (alts : list Altruist) (h : Heap) (e : exn) :
  _create_vars_and_constraints self m pats dons alts h = Raise e ->
  exists o,
    e = AttributeError o "mip_vars"
    /\ In o (candidate_objects self)
    /\ ~ In o (persons pats dons alts)
    /\ mip_vars h !! o = None.
Proof.
  rewrite create_closed_form. cbv zeta.
  set (mv := created_vars self alts (length (vars m)) (mip_var h)).
  set (log := append_log self alts (length (vars m)) mv).
  destruct (append_all log (reset_all (persons pats dons alts) h))
    as [h2|e2] eqn:Ea; cbn [bind].
  - pose proof (reset_then_append _ _ _ _ Ea) as Hacc.
    rewrite (map_r_total _ (accumulated log)).
    2:{ intros o Ho. apply get_mip_vars_Ok, Hacc. unfold persons.
        rewrite app_assoc. apply in_or_app. left. exact Ho. }
    cbn [bind]. rewrite (map_r_total _ (accumulated log)).
    2:{ intros o Ho. apply get_mip_vars_Ok, Hacc.
        apply in_persons_altruist. exact Ho. }
    cbn [bind]. discriminate.
  - intros H. injection H as <-. apply append_all_Raise in Ea.
    destruct Ea as (o & v & Hin & -> & Hn). exists o.
    assert (Hnp : ~ In o (persons pats dons alts)).
    { intros Hp. rewrite (reset_all_in _ _ _ Hp) in Hn. discriminate Hn. }
    split; [reflexivity|]. split; [|split; [exact Hnp|]].
    + assert (Ho : In o (map fst log)).
      { apply in_map_iff. exists (o, v). auto. }
      apply append_log_objects in Ho. destruct Ho as [Ho|Ho]; [|exact Ho].
      exfalso. apply Hnp. apply in_persons_altruist. exact Ho.
    + rewrite reset_all_notin in Hn by exact Hnp. exact Hn.
Qed.

Lemma in_item_oids (self : PoolOptimiser) (o : oid) :
  In o (item_oids self) <->
  In o (map chain_oid (chains self)) \/ In o (map cycle_oid (cycles self))
  \/ In o (map altruist_oid (altruists (pool self))).
Proof. unfold item_oids. rewrite !in_app_iff. reflexivity. Qed.

Lemma heap_scoped_get (self : PoolOptimiser) (h : Heap) (n : nat) (o : oid) :
  heap_scoped self h n -> In o (item_oids self) ->
  get_mip_var o h = Ok (var_of (mip_var h) o).
Proof.
  intros Hh Ho. destruct (Hh o Ho) as (v & Hv & _).
  unfold get_mip_var, var_of. rewrite Hv. reflexivity.
Qed.

(** Once every candidate and altruist holds a variable, building an
    objective cannot fail. *)
Lemma objective_of_total (self : PoolOptimiser) (c : OptCriterion) (h : Heap)
    (n : nat) :
  heap_scoped self h n -> exists z, objective_of self c h = Ok z.
Proof.
  intros Hh. unfold objective_of.
  rewrite (map_r_total _
             (fun x => term (var_of (mip_var h) (chain_oid x)) (chain_val c x))).
  2:{ intros x Hx. rewrite (heap_scoped_get self h n); [reflexivity|exact Hh|].
      apply in_item_oids. left. apply in_map. exact Hx. }
  cbn [bind].
  rewrite (map_r_total _
             (fun x => term (var_of (mip_var h) (cycle_oid x)) (cycle_val c x))).
  2:{ intros x Hx. rewrite (heap_scoped_get self h n); [reflexivity|exact Hh|].
      apply in_item_oids. right. left. apply in_map. exact Hx. }
  cbn [bind].
  rewrite (map_r_total _
             (fun x => term (var_of (mip_var h) (altruist_oid x))
                         (altruist_val c x))).
  2:{ intros x Hx. rewrite (heap_scoped_get self h n); [reflexivity|exact Hh|].
      apply in_item_oids. right. right. apply in_map. exact Hx. }
  cbn [bind]. eauto.
Qed.

Lemma items_in_optimal_solution_total {A} (oid_of : A -> oid)
    (self : PoolOptimiser) (h : Heap) (n : nat) (sol : Solution)
    (items : list A) :
  heap_scoped self h n ->
  (forall x, In x items -> In (oid_of x) (item_oids self)) ->
  _items_in_optimal_solution oid_of h sol items
  = Ok (List.filter (fun x => chosen_at h sol (oid_of x)) items).
Proof.
  intros Hh Hin. unfold _items_in_optimal_solution.
  apply filter_r_total. intros x Hx.
  rewrite (heap_scoped_get self h n); [reflexivity|exact Hh|].
  apply Hin. exact Hx.
Qed.

(** ... and reading the selection off a solution cannot fail either. *)
Lemma optimal_selection_total (self : PoolOptimiser) (h : Heap) (n : nat)
    (sol : Solution) :
  heap_scoped self h n ->
  exists items optimal_vars,
    optimal_selection self h sol = Ok (items, optimal_vars).
Proof.
  intros Hh. unfold optimal_selection.
  rewrite (items_in_optimal_solution_total chain_oid self h n); [|exact Hh|].
  2:{ intros x Hx. apply in_item_oids. left. apply in_map. exact Hx. }
  cbn [bind].
  rewrite (items_in_optimal_solution_total cycle_oid self h n); [|exact Hh|].
  2:{ intros x Hx. apply in_item_oids. right. left. apply in_map. exact Hx. }
  cbn [bind].
  rewrite (items_in_optimal_solution_total altruist_oid self h n); [|exact Hh|].
  2:{ intros x Hx. apply in_item_oids. right. right. apply in_map. exact Hx. }
  cbn [bind].
  rewrite (map_r_total _ (fun o => var_of (mip_var h) (item_oid o))).
  { cbn [bind]. eauto. }
  intros i Hi. apply (heap_scoped_get self h n); [exact Hh|].
  apply in_item_oids.
  apply in_app_or in Hi. destruct Hi as [Hi|Hi]; [|apply in_app_or in Hi;
    destruct Hi as [Hi|Hi]];
    apply in_map_iff in Hi; destruct Hi as (x & <- & Hx);
    apply List.filter_In in Hx; destruct Hx as [Hx _]; cbn [item_oid].
  - left. apply in_map. exact Hx.
  - right. left. apply in_map. exact Hx.
  - right. right. apply in_map. exact Hx.
Qed.

(** The ranks before the last raise only the UnboundLocalError of the
    unbound solve_status, after a solve that did not end OPTIMAL. *)
Lemma sequence_ranks_Raise (self : PoolOptimiser) (h : Heap) (n : nat)
    (cs : list OptCriterion) (model : Model) (evs : list Event) (e : exn) :
  heap_scoped self h n ->
  sequence_ranks optimize self h cs model = (evs, Raise e) ->
  e = UnboundLocalError "solve_status"
  /\ exists m, last evs = Some (EvOptimize m) /\ status (optimize m) <> OPTIMAL.
Proof.
  intros Hh. revert model evs.
  induction cs as [|c cs IH]; intros model evs H; [discriminate H|].
  cbn [sequence_ranks] in H. unfold _optimise in H.
  destruct (objective_of_total self c h n Hh) as [z Hz].
  rewrite Hz in H. cbn [bind] in H.
  set (m' := setObjective z (sense_of c) model) in *.
  destruct (Status_eqb (status (optimize m')) OPTIMAL) eqn:Es;
    cbn [negb] in H.
  - destruct (sequence_ranks optimize self h cs _) as [evs' r'] eqn:Er.
    injection H as <- ->. apply IH in Er.
    destruct Er as [-> (m & Hl & Hst)]. split; [reflexivity|].
    exists m. split; [|exact Hst].
    destruct evs' as [|e' evs']; [discriminate Hl|exact Hl].
  - injection H as <- <-. split; [reflexivity|]. exists m'.
    split; [reflexivity|]. apply Status_eqb_neq. exact Es.
Qed.

(** The loop raises only IndexError, on an empty list of criteria, or
    OptimisationException with the status of its last solve, which is none
    of OPTIMAL, INFEASIBLE, INF_OR_UNBD. *)
Lemma enumerate_Raise (fuel : nat) (self : PoolOptimiser) (h : Heap)
    (k : nat) (cs : list OptCriterion) (max_solutions : Z) (model : Model)
    (n : nat) (best : Q) (evs : list Event) (e : exn) :
  heap_scoped self h k ->
  enumerate optimize fuel self h cs max_solutions model n best
  = (evs, Raised e) ->
  (e = IndexError /\ cs = [] /\ evs = [])
  \/ exists m,
       last evs = Some (EvOptimize m)
       /\ e = OptimisationException (status (optimize m))
       /\ expected_status (status (optimize m)) = false.
Proof.
  intros Hh. revert model n best evs.
  induction fuel as [|fuel IH]; intros model n best evs H; [discriminate H|].
  apply enumerate_step in H.
  destruct H as
    [evs_b [nx [Hb [[-> ->]|(m2 & n2 & b2 & evs' & -> & He & ->)]]]];
    turn_cases Hb; subst evs_b; try discriminate.
  - same_next. left. split; [reflexivity|]. split; [|reflexivity].
    apply last_None. assumption.
  - exfalso. destruct (objective_of_total self c h k Hh) as [z Hz'].
    congruence.
  - same_next. right. eexists. split; [reflexivity|]. auto.
  - exfalso.
    destruct (optimal_selection_total self h k
                (optimize (setObjective z (sense_of c) model)) Hh)
      as (i & ov & Hs').
    congruence.
  - same_next. apply IH in He.
    destruct He as [(-> & -> & _)|(m & Hl & -> & Hex)];
      [discriminate Hc|].
    right. exists m. split; [|auto].
    rewrite last_app, Hl. reflexivity.
Qed.

(** X10. Every exception solve can raise, with its cause: AttributeError
    from model construction, on an object outside the pool that a candidate
    refers to; NameError when the module has no opt_criteria; IndexError on
    an empty opt_criteria; UnboundLocalError after a solve before the last
    rank that is not OPTIMAL; OptimisationException, with the solver's
    status, after a last-rank solve that is none of OPTIMAL, INFEASIBLE and
    INF_OR_UNBD. Nothing else is ever raised. *)
Theorem solve_raises_only (G : Globals) (self : PoolOptimiser)
    (max_solutions : Z) (h : Heap) (fuel : nat) (evs : list Event) (e : exn) :
  solve optimize G self max_solutions h fuel = (evs, Raised e) ->
  (exists o,
     e = AttributeError o "mip_vars" /\ evs = []
     /\ In o (candidate_objects self)
     /\ ~ In o (persons (patients (pool self)) (paired_donors (pool self))
                  (altruists (pool self)))
     /\ mip_vars h !! o = None)
  \/ (e = NameError "opt_criteria" /\ evs = [] /\ g_opt_criteria G = None)
  \/ (e = IndexError /\ evs = [] /\ g_opt_criteria G = Some [])
  \/ (e = UnboundLocalError "solve_status"
      /\ exists m, last evs = Some (EvOptimize m)
                   /\ status (optimize m) <> OPTIMAL)
  \/ (exists m,
        last evs = Some (EvOptimize m)
        /\ e = OptimisationException (status (optimize m))
        /\ expected_status (status (optimize m)) = false).
Proof.
  unfold solve.
  destruct (_create_vars_and_constraints _ _ _ _ _ _) as [[m0 h']|e0] eqn:Ec.
  2:{ intros H. injection H as <- <-. left. apply create_Raise in Ec.
      destruct Ec as (o & -> & Ho & Hn & Hl). exists o. auto 10. }
  destruct (g_opt_criteria G) as [cs|] eqn:Eg.
  2:{ intros H. injection H as <- <-. right. left. auto. }
  apply create_scoped in Ec. destruct Ec as (_ & Hh & _).
  destruct (sequence_ranks optimize self h' (removelast cs) m0)
    as [evs1 [m1|e1]] eqn:Es.
  2:{ intros H. injection H as <- <-. right. right. right. left.
      eapply sequence_ranks_Raise; eassumption. }
  destruct (enumerate optimize fuel self h' cs max_solutions m1 0%nat (-1)%Q)
    as [evs2 s] eqn:Ee.
  intros H. injection H as <- ->.
  apply (enumerate_Raise _ _ _ _ _ _ _ _ _ _ _ Hh) in Ee.
  destruct Ee as [(-> & -> & ->)|(m & Hl & -> & Hex)].
  - right. right. left. cbn [removelast sequence_ranks] in Es.
    injection Es as <- _. auto.
  - right. right. right. right. exists m. split; [|auto].
    rewrite last_app, Hl. reflexivity.
Qed.

(** X11. When the objects outside the pool carry no accumulator (they are
    fresh), _create_vars_and_constraints succeeds exactly when every pair
    and every initiating altruist of every candidate is a person of the
    pool handed in. *)
Theorem model_construction_succeeds_iff (self : PoolOptimiser) (m : Model)
    (pats : list Patient) (dons : list Donor) (alts : list Altruist)
    (h : Heap) :
  (forall o, In o (candidate_objects self) ->
             ~ In o (persons pats dons alts) -> mip_vars h !! o = None) ->
  (exists m' h',
     _create_vars_and_constraints self m pats dons alts h = Ok (m', h'))
  <-> references_pool self pats dons alts = true.
Proof.
  intros Hfresh. split; [|apply create_total].
  intros (m' & h' & Hc). rewrite create_closed_form in Hc. cbv zeta in Hc.
  set (mv := created_vars self alts (length (vars m)) (mip_var h)) in Hc.
  set (log := append_log self alts (length (vars m)) mv) in Hc.
  destruct (append_all log (reset_all (persons pats dons alts) h))
    as [h2|e2] eqn:Ea; cbn [bind] in Hc; [|discriminate Hc].
  pose proof (append_all_Ok_keys _ _ _ Ea) as Hkeys.
  unfold references_pool. apply forallb_forall. intros e He.
  destruct (existsb (Nat.eqb (fst e)) (persons pats dons alts)) eqn:Ex;
    [reflexivity|exfalso].
  assert (Hnp : ~ In (fst e) (persons pats dons alts)).
  { intros Hin.
    assert (Ht : existsb (Nat.eqb (fst e)) (persons pats dons alts) = true).
    { apply existsb_exists. exists (fst e). split; [exact Hin|].
      apply Nat.eqb_refl. }
    rewrite Ht in Ex. discriminate Ex. }
  assert (Hcand : In (fst e) (candidate_objects self)).
  { unfold candidate_objects. apply in_map. exact He. }
  assert (Hlog : In (fst e) (map fst log)).
  { apply append_log_objects. right. exact Hcand. }
  apply in_map_iff in Hlog. destruct Hlog as (e' & He' & Hin').
  specialize (Hkeys e' Hin'). rewrite He' in Hkeys.
  rewrite reset_all_notin in Hkeys by exact Hnp.
  rewrite (Hfresh _ Hcand Hnp) in Hkeys. destruct Hkeys as [x Hx].
  discriminate Hx.
Qed.

(** X12. With the module's opt_criteria an empty list, solve builds the
    model, makes no solver call and raises IndexError at opt_criteria[-1]. *)
Theorem solve_empty_criteria (G : Globals) (self : PoolOptimiser)
    (max_solutions : Z) (h : Heap) (fuel : nat) :
  references_pool self (patients (pool self)) (paired_donors (pool self))
    (altruists (pool self)) = true ->
  g_opt_criteria G = Some [] ->
  solve optimize G self max_solutions h (S fuel) = ([], Raised IndexError).
Proof.
  intros Href Hg. unfold solve.
  destruct (create_total self Model_new _ _ _ h Href) as (m0 & h' & ->).
  rewrite Hg. reflexivity.
Qed.

(** X13. A first solve at the last rank that is not OPTIMAL ends the
    session without a print: on INFEASIBLE or INF_OR_UNBD solve returns
    (-1, 0, False); on any other status it raises OptimisationException
    with that status. *)
Theorem final_rank_not_optimal (G : Globals) (self : PoolOptimiser)
    (max_solutions : Z) (h : Heap) (fuel : nat) (m : Model) :
  final_rank_model optimize G self h = Some m ->
  status (optimize m) <> OPTIMAL ->
  snd (solve optimize G self max_solutions h (S fuel))
  = (if expected_status (status (optimize m))
     then Returned (-1)%Q 0%nat false
     else Raised (OptimisationException (status (optimize m))))
  /\ printed (fst (solve optimize G self max_solutions h (S fuel))) = [].
Proof.
  unfold final_rank_model, solve. intros Hm Hs.
  destruct (_create_vars_and_constraints _ _ _ _ _ _) as [[m0 h']|];
    [|discriminate].
  destruct (g_opt_criteria G) as [cs|]; [|discriminate].
  destruct (sequence_ranks optimize self h' (removelast cs) m0)
    as [evs1 [m1|]] eqn:Eseq; [|discriminate].
  destruct (last cs) as [c|] eqn:Ec; [|discriminate].
  destruct (objective_of self c h') as [z|] eqn:Ez; [|discriminate].
  injection Hm as <-.
  destruct (enumerate optimize (S fuel) self h' cs max_solutions m1 0%nat
              (-1)%Q) as [evs2 s] eqn:Ee.
  cbn [fst snd]. apply enumerate_step in Ee.
  destruct Ee as
    [evs_b [nx [Hb [[-> ->]|(m2 & n2 & b2 & evs' & -> & He & ->)]]]];
    turn_cases Hb; subst evs_b; try discriminate; try congruence;
    try (rewrite Hc in Ec; injection Ec as ->;
         rewrite Hz in Ez; injection Ez as ->; contradiction).
  - rewrite Hc in Ec. injection Ec as ->. rewrite Hz in Ez. injection Ez as ->.
    rewrite Hex. same_next. split; [reflexivity|].
    rewrite printed_app. cbn [printed flat_map app]. rewrite app_nil_r.
    apply printed_nil. intros i. eapply sequence_ranks_no_print. exact Eseq.
  - rewrite Hc in Ec. injection Ec as ->. rewrite Hz in Ez. injection Ez as ->.
    rewrite Hex. same_next. split; [reflexivity|].
    rewrite printed_app. cbn [printed flat_map app]. rewrite app_nil_r.
    apply printed_nil. intros i. eapply sequence_ranks_no_print. exact Eseq.
Qed.

(** ** Sessions do not depend on the heap they start from *)

Lemma map_r_ext_in {A B} (f g : A -> result B) (xs : list A) :
  (forall x, In x xs -> f x = g x) -> map_r f xs = map_r g xs.
Proof.
  induction xs as [|x xs IH]; intros H; [reflexivity|].
  cbn [map_r]. rewrite (H x) by (left; reflexivity).
  rewrite IH by (intros y Hy; apply H; right; exact Hy). reflexivity.
Qed.

Lemma filter_r_ext_in {A} (f g : A -> result bool) (xs : list A) :
  (forall x, In x xs -> f x = g x) -> filter_r f xs = filter_r g xs.
Proof.
  induction xs as [|x xs IH]; intros H; [reflexivity|].
  cbn [filter_r]. rewrite (H x) by (left; reflexivity).
  rewrite IH by (intros y Hy; apply H; right; exact Hy). reflexivity.
Qed.

Lemma get_mip_var_agree (h1 h2 : Heap) (o : oid) :
  mip_var h1 !! o = mip_var h2 !! o -> get_mip_var o h1 = get_mip_var o h2.
Proof. unfold get_mip_var. intros ->. reflexivity. Qed.

Lemma created_vars_indep (self : PoolOptimiser) (first : Var)
    (mv1 mv2 : gmap oid Var) (o : oid) :
  In o (item_oids self) ->
  created_vars self (altruists (pool self)) first mv1 !! o
  = created_vars self (altruists (pool self)) first mv2 !! o.
Proof.
  intros Ho. apply in_item_oids in Ho. unfold created_vars.
  destruct Ho as [Ho|[Ho|Ho]].
  - apply assign_vars_agree, assign_vars_agree, assign_vars_indep. exact Ho.
  - apply assign_vars_agree, assign_vars_indep. exact Ho.
  - apply assign_vars_indep. exact Ho.
Qed.

Lemma objective_of_agree (self : PoolOptimiser) (c : OptCriterion)
    (h1 h2 : Heap) :
  (forall o, In o (item_oids self) -> mip_var h1 !! o = mip_var h2 !! o) ->
  objective_of self c h1 = objective_of self c h2.
Proof.
  intros Hag. unfold objective_of.
  rewrite (map_r_ext_in _
             (fun chain => do v <- get_mip_var (chain_oid chain) h2;
                           Ok (term v (chain_val c chain))) (chains self)).
  2:{ intros x Hx. rewrite (get_mip_var_agree h1 h2); [reflexivity|].
      apply Hag, in_item_oids. left. apply in_map. exact Hx. }
  rewrite (map_r_ext_in _
             (fun cycle => do v <- get_mip_var (cycle_oid cycle) h2;
                           Ok (term v (cycle_val c cycle))) (cycles self)).
  2:{ intros x Hx. rewrite (get_mip_var_agree h1 h2); [reflexivity|].
      apply Hag, in_item_oids. right. left. apply in_map. exact Hx. }
  rewrite (map_r_ext_in _
             (fun altruist => do v <- get_mip_var (altruist_oid altruist) h2;
                              Ok (term v (altruist_val c altruist)))
             (altruists (pool self))).
  2:{ intros x Hx. rewrite (get_mip_var_agree h1 h2); [reflexivity|].
      apply Hag, in_item_oids. right. right. apply in_map. exact Hx. }
  reflexivity.
Qed.

Lemma items_in_optimal_solution_agree {A} (oid_of : A -> oid)
    (self : PoolOptimiser) (h1 h2 : Heap) (sol : Solution) (items : list A) :
  (forall o, In o (item_oids self) -> mip_var h1 !! o = mip_var h2 !! o) ->
  (forall x, In x items -> In (oid_of x) (item_oids self)) ->
  _items_in_optimal_solution oid_of h1 sol items
  = _items_in_optimal_solution oid_of h2 sol items.
Proof.
  intros Hag Hin. unfold _items_in_optimal_solution.
  apply filter_r_ext_in. intros x Hx.
  rewrite (get_mip_var_agree h1 h2); [reflexivity|]. apply Hag, Hin, Hx.
Qed.

Lemma optimal_selection_agree (self : PoolOptimiser) (h1 h2 : Heap)
    (sol : Solution) :
  (forall o, In o (item_oids self) -> mip_var h1 !! o = mip_var h2 !! o) ->
  optimal_selection self h1 sol = optimal_selection self h2 sol.
Proof.
  intros Hag. unfold optimal_selection.
  rewrite (items_in_optimal_solution_agree chain_oid self h1 h2);
    [|exact Hag|].
  2:{ intros x Hx. apply in_item_oids. left. apply in_map. exact Hx. }
  rewrite (items_in_optimal_solution_agree cycle_oid self h1 h2);
    [|exact Hag|].
  2:{ intros x Hx. apply in_item_oids. right. left. apply in_map. exact Hx. }
  rewrite (items_in_optimal_solution_agree altruist_oid self h1 h2);
    [|exact Hag|].
  2:{ intros x Hx. apply in_item_oids. right. right. apply in_map. exact Hx. }
  destruct (_items_in_optimal_solution chain_oid h2 sol (chains self))
    as [oc|] eqn:E1; cbn [bind]; [|reflexivity].
  destruct (_items_in_optimal_solution cycle_oid h2 sol (cycles self))
    as [oy|] eqn:E2; cbn [bind]; [|reflexivity].
  destruct (_items_in_optimal_solution altruist_oid h2 sol
              (altruists (pool self)))
    as [oa|] eqn:E3; cbn [bind]; [|reflexivity].
  apply items_in_optimal_solution_Ok in E1, E2, E3. subst oc oy oa.
  rewrite (map_r_ext_in _ (fun o => get_mip_var (item_oid o) h2));
    [reflexivity|].
  intros i Hi. apply get_mip_var_agree, Hag, in_item_oids.
  apply in_app_or in Hi. destruct Hi as [Hi|Hi]; [|apply in_app_or in Hi;
    destruct Hi as [Hi|Hi]];
    apply in_map_iff in Hi; destruct Hi as (x & <- & Hx);
    apply List.filter_In in Hx; destruct Hx as [Hx _]; cbn [item_oid].
  - left. apply in_map. exact Hx.
  - right. left. apply in_map. exact Hx.
  - right. right. apply in_map. exact Hx.
Qed.

Lemma sequence_ranks_agree (self : PoolOptimiser) (h1 h2 : Heap)
    (cs : list OptCriterion) (model : Model) :
  (forall o, In o (item_oids self) -> mip_var h1 !! o = mip_var h2 !! o) ->
  sequence_ranks optimize self h1 cs model
  = sequence_ranks optimize self h2 cs model.
Proof.
  intros Hag. revert model.
  induction cs as [|c cs IH]; intros model; [reflexivity|].
  cbn [sequence_ranks]. unfold _optimise.
  rewrite (objective_of_agree self c h1 h2 Hag).
  destruct (objective_of self c h2) as [z|]; cbn [bind]; [|reflexivity].
  destruct (negb _); [reflexivity|]. rewrite IH. reflexivity.
Qed.

Lemma enumerate_body_agree (self : PoolOptimiser) (h1 h2 : Heap)
    (cs : list OptCriterion) (max_solutions : Z) (model : Model)
    (n : nat) (best : Q) :
  (forall o, In o (item_oids self) -> mip_var h1 !! o = mip_var h2 !! o) ->
  enumerate_body optimize self h1 cs max_solutions model n best
  = enumerate_body optimize self h2 cs max_solutions model n best.
Proof.
  intros Hag. unfold enumerate_body, try, _optimise.
  destruct (last_r cs) as [c|]; [|reflexivity].
  rewrite (objective_of_agree self c h1 h2 Hag).
  destruct (objective_of self c h2) as [z|]; cbn [bind]; [|reflexivity].
  rewrite (optimal_selection_agree self h1 h2 _ Hag). reflexivity.
Qed.

Lemma enumerate_agree (fuel : nat) (self : PoolOptimiser) (h1 h2 : Heap)
    (cs : list OptCriterion) (max_solutions : Z) (model : Model)
    (n : nat) (best : Q) :
  (forall o, In o (item_oids self) -> mip_var h1 !! o = mip_var h2 !! o) ->
  enumerate optimize fuel self h1 cs max_solutions model n best
  = enumerate optimize fuel self h2 cs max_solutions model n best.
Proof.
  intros Hag. revert model n best.
  induction fuel as [|fuel IH]; intros model n best; [reflexivity|].
  cbn [enumerate]. rewrite (enumerate_body_agree self h1 h2 _ _ _ _ _ Hag).
  destruct (enumerate_body optimize self h2 cs max_solutions model n best)
    as [evs [m2 n2 b2|s]]; [|reflexivity].
  rewrite IH. reflexivity.
Qed.

(** X14. solve can be called again and again: when every candidate refers
    only to persons of the pool, the trace and the result of a session do
    not depend on the attributes (mip_var, mip_vars) that earlier sessions
    left on the objects. *)
Theorem solve_heap_independent (G : Globals) (self : PoolOptimiser)
    (max_solutions : Z) (h1 h2 : Heap) (fuel : nat) :
  references_pool self (patients (pool self)) (paired_donors (pool self))
    (altruists (pool self)) = true ->
  solve optimize G self max_solutions h1 fuel
  = solve optimize G self max_solutions h2 fuel.
Proof.
  intros Href. unfold solve.
  destruct (create_total self Model_new _ _ _ h1 Href) as (m1 & h1' & E1).
  destruct (create_total self Model_new _ _ _ h2 Href) as (m2 & h2' & E2).
  rewrite E1, E2.
  pose proof (create_model_indep _ _ _ _ _ _ _ _ _ _ _ E1 E2) as <-.
  apply create_spec in E1, E2. cbv zeta in E1, E2.
  destruct E1 as (_ & _ & _ & _ & Hv1 & _).
  destruct E2 as (_ & _ & _ & _ & Hv2 & _).
  assert (Hag : forall o, In o (item_oids self) ->
                          mip_var h1' !! o = mip_var h2' !! o).
  { intros o Ho. rewrite Hv1, Hv2. apply created_vars_indep. exact Ho. }
  destruct (g_opt_criteria G) as [cs|]; [|reflexivity].
  rewrite (sequence_ranks_agree self h1' h2' _ _ Hag).
  destruct (sequence_ranks optimize self h2' (removelast cs) m1)
    as [evs [m|e]]; [|reflexivity].
  rewrite (enumerate_agree fuel self h1' h2' _ _ _ _ _ Hag). reflexivity.
Qed.

(** ** How often a person occurs in a printed selection *)

Lemma pd_hits (sol : Solution) (o : oid) (v : Var) (pds : list PdPair) :
  chosen sol v = true ->
  hits sol o (flat_map (pd_entries v) pds) = appends_to o pds.
Proof.
  intros Hv. unfold hits, appends_to, accumulated.
  induction pds as [|pd pds IH]; [reflexivity|].
  cbn [flat_map]. rewrite !List.filter_app, map_app, !length_app, <- IH.
  f_equal. unfold pd_entries.
  destruct (1 <? length (paired_patients (donor pd)))%nat;
    cbn [List.filter fst snd]; rewrite Hv, ?andb_true_r;
    destruct (patient_oid (patient pd) =? o)%nat;
    try destruct (donor_oid (donor pd) =? o)%nat; reflexivity.
Qed.

Lemma chain_appends (h : Heap) (sol : Solution) (o : oid) (cs : list Chain) :
  selection_appends o
    (map chain_item (List.filter (fun c => chosen_at h sol (chain_oid c)) cs))
  <= hits sol o (flat_map (chain_entries (mip_var h)) cs).
Proof.
  unfold selection_appends, list_sum.
  induction cs as [|c cs IH]; [cbn; lia|].
  cbn [flat_map List.filter]. rewrite hits_app. unfold chain_entries at 1.
  assert (Hcons : forall e l, hits sol o l <= hits sol o (e :: l)).
  { intros e l. unfold hits. cbn [List.filter].
    destruct (_ && _); cbn [length]; lia. }
  pose proof (Hcons (altruist_oid (altruist (altruist_edge c)),
                     var_of (mip_var h) (chain_oid c))
                (flat_map (pd_entries (var_of (mip_var h) (chain_oid c)))
                   (chain_pd_pairs c))) as Hhead.
  unfold chosen_at at 1.
  destruct (chosen sol (var_of (mip_var h) (chain_oid c))) eqn:Ev.
  - cbn [map fold_right item_pd_pairs].
    rewrite (pd_hits sol o _ _ Ev) in Hhead. lia.
  - lia.
Qed.

Lemma cycle_appends (h : Heap) (sol : Solution) (o : oid) (cs : list Cycle) :
  selection_appends o
    (map cycle_item (List.filter (fun c => chosen_at h sol (cycle_oid c)) cs))
  <= hits sol o (flat_map (cycle_entries (mip_var h)) cs).
Proof.
  unfold selection_appends, list_sum.
  induction cs as [|c cs IH]; [cbn; lia|].
  cbn [flat_map List.filter]. rewrite hits_app. unfold cycle_entries at 1.
  unfold chosen_at at 1.
  destruct (chosen sol (var_of (mip_var h) (cycle_oid c))) eqn:Ev.
  - cbn [map fold_right item_pd_pairs]. rewrite (pd_hits sol o _ _ Ev). lia.
  - lia.
Qed.

Lemma altruist_appends (o : oid) (alts : list Altruist) :
  selection_appends o (map altruist_item alts) = 0%nat.
Proof.
  unfold selection_appends, list_sum.
  induction alts as [|a alts IH]; [reflexivity|].
  cbn [map fold_right item_pd_pairs]. rewrite IH. reflexivity.
Qed.

Lemma selection_appends_app (o : oid) (l1 l2 : list Item) :
  selection_appends o (l1 ++ l2)
  = (selection_appends o l1 + selection_appends o l2)%nat.
Proof. unfold selection_appends. rewrite map_app. apply list_sum_app. Qed.

(** X15. In a printed solution every person of the pool occurs at most
    once, counted with multiplicity: the pairs of all printed cycles and
    chains together name a person as patient, or as donor with more than
    one paired patient, at most once, so a candidate that uses the same
    patient twice is never printed (for a solver whose OPTIMAL answers
    satisfy the constraints). *)
Theorem printed_selection_uses_person_once (G : Globals)
    (self : PoolOptimiser) (max_solutions : Z) (h : Heap) (fuel : nat)
    (items : list Item) (o : oid) :
  solver_sound optimize ->
  In (EvPrint items) (fst (solve optimize G self max_solutions h fuel)) ->
  In o (persons (patients (pool self)) (paired_donors (pool self))
          (altruists (pool self))) ->
  selection_appends o items <= 1.
Proof.
  intros Hsound Hin Ho.
  destruct (solve optimize G self max_solutions h fuel) as [evs s] eqn:E.
  cbn [fst] in Hin. apply solve_inv_printed in E.
  destruct E as [[Hp _]|(m0 & h' & cs & evs1 & m1 & evs2 & Hc & _ & Hs
                         & He & -> & Hp)].
  { apply in_split in Hin. destruct Hin as (pre & post & ->).
    rewrite printed_app in Hp. cbn [printed flat_map app] in Hp.
    destruct (printed pre); discriminate Hp. }
  apply in_app_or in Hin. destruct Hin as [Hin|Hin].
  { exfalso. eapply sequence_ranks_no_print; eassumption. }
  apply in_split in Hin. destruct Hin as (pre & post & Hev).
  destruct (enumerate_print_shape _ _ _ _ _ _ _ _ _ _ _ _ _ He Hev)
    as (pre' & mp & c' & ov & _ & _ & _ & _ & _ & Hext & Hst & Hsel).
  pose proof (sequence_ranks_extend optimize _ _ _ _ _ _ Hs) as [_ Hext1].
  destruct (Hext1 m1 eq_refl) as [_ Hext0].
  apply create_spec in Hc. cbv zeta in Hc. cbn [vars Model_new length] in Hc.
  destruct Hc as (_ & Hcons & _ & _ & Hmv & _).
  cbn [constrs Model_new app] in Hcons.
  rewrite <- Hmv in Hcons.
  set (log := append_log self (altruists (pool self)) 0 (mip_var h')) in *.
  assert (Hle : hits (optimize mp) o log <= 1).
  { pose proof (Hsound mp Hst) as Hall. rewrite List.Forall_forall in Hall.
    rewrite <- hits_accumulated. unfold persons in Ho.
    rewrite app_assoc in Ho. apply in_app_or in Ho. destruct Ho as [Ho|Ho].
    - apply holds_LE_count, Hall, Hext, Hext0. rewrite Hcons.
      unfold created_constrs. apply in_or_app. left. apply in_map. exact Ho.
    - rewrite (holds_EQ_count (optimize mp) (accumulated log) o); [lia|].
      apply Hall, Hext, Hext0. rewrite Hcons. unfold created_constrs.
      apply in_or_app. right. apply in_map. exact Ho. }
  eapply Nat.le_trans; [|exact Hle].
  apply optimal_selection_Ok in Hsel. destruct Hsel as (-> & _ & _).
  unfold log, append_log. rewrite !selection_appends_app, !hits_app.
  rewrite altruist_appends.
  pose proof (chain_appends h' (optimize mp) o (chains self)).
  pose proof (cycle_appends h' (optimize mp) o (cycles self)).
  lia.
Qed.

(** ** The end of the loop *)

(** A print of the empty selection ends the loop. *)
Lemma enumerate_empty_print_last (fuel : nat) (self : PoolOptimiser)
    (h : Heap) (cs : list OptCriterion) (max_solutions : Z) (model : Model)
    (n : nat) (best : Q) (evs : list Event) (s : Stop)
    (pre post : list Event) :
  enumerate optimize fuel self h cs max_solutions model n best = (evs, s) ->
  evs = pre ++ EvPrint [] :: post ->
  post = [] /\ exists b k r, s = Returned b k r.
Proof.
  revert model n best evs pre.
  induction fuel as [|fuel IH]; intros model n best evs pre H Hev.
  { injection H as <- <-. destruct pre; discriminate Hev. }
  apply enumerate_step in H.
  destruct H as
    [evs_b [nx [Hb [[-> ->]|(m2 & n2 & b2 & evs' & -> & He & ->)]]]];
    turn_cases Hb; subst evs_b; try discriminate;
    try (destruct pre; discriminate Hev);
    try (exfalso; eapply turn_no_print; exact Hev).
  - rewrite <- (app_nil_r [_; _]) in Hev. apply turn_print_split in Hev.
    destruct Hev as [(-> & _ & ->)|(pre2 & _ & Hnil)];
      [|destruct pre2; discriminate Hnil].
    same_next. eauto.
  - rewrite <- (app_nil_r [_; _]) in Hev. apply turn_print_split in Hev.
    destruct Hev as [(-> & _ & ->)|(pre2 & _ & Hnil)];
      [|destruct pre2; discriminate Hnil].
    same_next. eauto.
  - same_next. apply turn_print_split in Hev.
    destruct Hev as [(-> & <- & ->)|(pre2 & -> & Hev)].
    { exfalso. apply optimal_selection_Ok in Hsel.
      destruct Hsel as (_ & _ & ->). apply Hov. reflexivity. }
    eapply IH; eassumption.
Qed.

(** X16. A printed solution without any cycle, chain or unused altruist is
    the last thing a session does: nothing is solved or printed after it,
    and solve returns. *)
Theorem empty_solution_ends_session (G : Globals) (self : PoolOptimiser)
    (max_solutions : Z) (h : Heap) (fuel : nat) (evs : list Event) (s : Stop)
    (pre post : list Event) :
  solve optimize G self max_solutions h fuel = (evs, s) ->
  evs = pre ++ EvPrint [] :: post ->
  post = [] /\ exists b k r, s = Returned b k r.
Proof.
  intros H Hev. apply solve_inv_printed in H.
  destruct H as [[Hp _]|(m0 & h' & cs & evs1 & m1 & evs2 & _ & _ & Hs
                         & He & -> & Hp)].
  { rewrite Hev, printed_app in Hp. cbn [printed flat_map app] in Hp.
    destruct (printed pre); discriminate Hp. }
  apply split_after_prefix in Hev.
  2:{ intros i. eapply sequence_ranks_no_print. exact Hs. }
  destruct Hev as (pre2 & _ & Hev).
  eapply enumerate_empty_print_last; eassumption.
Qed.

(** ** How many solver calls a session makes *)

Lemma optimize_calls_no_print (evs : list Event) :
  (forall i, ~ In (EvPrint i) evs) ->
  length (optimize_calls evs) = length evs.
Proof.
  induction evs as [|e evs IH]; intros H; [reflexivity|].
  destruct e as [m|i].
  - cbn [optimize_calls flat_map app length]. fold (optimize_calls evs).
    rewrite IH; [reflexivity|]. intros i Hi. apply (H i). right. exact Hi.
  - exfalso. apply (H i). left. reflexivity.
Qed.

(** A loop that returns made one solve per print, and one more when its
    last solve was not accepted. *)
Lemma enumerate_calls (fuel : nat) (self : PoolOptimiser) (h : Heap)
    (cs : list OptCriterion) (max_solutions : Z) (model : Model)
    (n : nat) (best : Q) (evs : list Event) (b : Q) (k : nat) (r : bool) :
  enumerate optimize fuel self h cs max_solutions model n best
  = (evs, Returned b k r) ->
  evs <> []
  /\ length (optimize_calls evs)
     = (length (printed evs)
        + match last evs with Some (EvOptimize _) => 1 | _ => 0 end)%nat.
Proof.
  revert model n best evs.
  induction fuel as [|fuel IH]; intros model n best evs H; [discriminate H|].
  apply enumerate_step in H.
  destruct H as
    [evs_b [nx [Hb [[-> ->]|(m2 & n2 & b2 & evs' & -> & He & ->)]]]];
    turn_cases Hb; subst evs_b; try discriminate;
    try (split; [discriminate|reflexivity]).
  same_next. apply IH in He. destruct He as [Hne Hcalls].
  split; [discriminate|].
  rewrite optimize_calls_app, printed_app, !length_app, Hcalls, last_app.
  destruct (last evs') as [e|] eqn:El; [reflexivity|].
  apply last_None in El. contradiction.
Qed.

(** X17. The number of solver calls of a session that returns: one per
    criterion before the last, one per printed solution, and one more when
    the session ended on a solve it did not print (infeasible, or below the
    tolerance) rather than on the cap or on an empty solution. *)
Theorem solve_number_of_calls (G : Globals) (self : PoolOptimiser)
    (max_solutions : Z) (h : Heap) (fuel : nat) (evs : list Event)
    (cs : list OptCriterion) (b : Q) (n : nat) (r : bool) :
  solve optimize G self max_solutions h fuel = (evs, Returned b n r) ->
  g_opt_criteria G = Some cs ->
  length (optimize_calls evs)
  = (length cs - 1 + n
     + match last evs with Some (EvOptimize _) => 1 | _ => 0 end)%nat.
Proof.
  intros H Hg. pose proof H as Hcount. apply solve_inv_printed in H.
  destruct H as [[_ [e He]]|(m0 & h' & cs' & evs1 & m1 & evs2 & _ & Hg' & Hs
                             & He & -> & Hp)]; [discriminate He|].
  rewrite Hg in Hg'. injection Hg' as <-.
  apply enumerate_counts in He as Hn; [|left; reflexivity].
  destruct Hn as [-> _]. cbn [Nat.add].
  apply enumerate_calls in He. destruct He as [Hne Hcalls].
  rewrite optimize_calls_app, length_app, Hcalls, last_app.
  rewrite optimize_calls_no_print
    by (intros i; eapply sequence_ranks_no_print; exact Hs).
  rewrite (sequence_ranks_length optimize _ _ _ _ _ _ Hs), removelast_length.
  destruct (last evs2) as [e|] eqn:El; [lia|].
  apply last_None in El. contradiction.
Qed.

(** ** _add_var_to_patients_and_donors on its own *)

Lemma pd_accumulated (o : oid) (v : Var) (pds : list PdPair) :
  accumulated (flat_map (pd_entries v) pds) o = repeat v (appends_to o pds).
Proof.
  unfold appends_to, accumulated.
  induction pds as [|pd pds IH]; [reflexivity|].
  cbn [flat_map]. rewrite !List.filter_app, !map_app, length_app, repeat_app.
  rewrite IH. f_equal. unfold pd_entries.
  destruct (1 <? length (paired_patients (donor pd)))%nat;
    cbn [List.filter fst snd];
    destruct (patient_oid (patient pd) =? o)%nat;
    try destruct (donor_oid (donor pd) =? o)%nat; reflexivity.
Qed.

(** X18. What _add_var_to_patients_and_donors does to the objects: it
    leaves every mip_var alone and extends the accumulator of each object
    by one copy of the variable for every pair the object is the patient
    of, and one for every pair it is the donor of while having more than
    one paired patient; an object that is neither keeps its accumulator. *)
Theorem add_var_to_patients_and_donors_effect (pd_pairs : list PdPair)
    (v : Var) (h h' : Heap) :
  _add_var_to_patients_and_donors pd_pairs v h = Ok h' ->
  mip_var h' = mip_var h
  /\ forall o,
       mip_vars h' !! o
       = (fun l => l ++ repeat v (appends_to o pd_pairs)) <$> (mip_vars h !! o).
Proof.
  rewrite add_var_to_patients_and_donors_log. intros H.
  apply append_all_Ok in H. destruct H as [Hv Hacc].
  split; [exact Hv|]. intros o. rewrite Hacc, pd_accumulated. reflexivity.
Qed.

(** X19. _add_var_to_patients_and_donors fails only with AttributeError on
    mip_vars, for an object it appends to that has no accumulator: the
    patient of a pair, or the donor of a pair with more than one paired
    patient. *)
Theorem add_var_to_patients_and_donors_fails (pd_pairs : list PdPair)
    (v : Var) (h : Heap) (e : exn) :
  _add_var_to_patients_and_donors pd_pairs v h = Raise e ->
  exists o,
    e = AttributeError o "mip_vars"
    /\ mip_vars h !! o = None
    /\ 1 <= appends_to o pd_pairs.
Proof.
  rewrite add_var_to_patients_and_donors_log. intros H.
  apply append_all_Raise in H. destruct H as (o & v' & Hin & -> & Hn).
  exists o. split; [reflexivity|]. split; [exact Hn|].
  unfold appends_to, accumulated. rewrite length_map.
  assert (Hin0 : In o (map fst (flat_map (pd_entries 0%nat) pd_pairs))).
  { rewrite (pd_entries_fst 0%nat v). apply in_map_iff. exists (o, v'). auto. }
  apply in_map_iff in Hin0. destruct Hin0 as ([o0 v0] & Ho & Hin0).
  cbn [fst] in Ho. subst o0.
  assert (Hf : In (o, v0)
                 (List.filter (fun e => (fst e =? o)%nat)
                    (flat_map (pd_entries 0%nat) pd_pairs))).
  { apply List.filter_In. split; [exact Hin0|]. apply Nat.eqb_refl. }
  destruct (List.filter _ _); [destruct Hf|cbn [length]; lia].
Qed.

End Session.

(** ** The session theorems at the sample sessions *)

Lemma solve_terminates_witness :
  snd (solve exhaustive size_globals sample_optimiser 100 heap_empty 40)
  <> OutOfFuel.
Proof.
  apply (solve_terminates exhaustive exhaustive_sound size_globals
           sample_optimiser 100 heap_empty 40).
  cbn. lia.
Defined.

Lemma solve_counts_printed_witness :
  2%nat
  = length (printed
              (fst (solve exhaustive size_globals sample_optimiser 2
                      heap_empty 40)))
  /\ (true = true <-> (1 <= 2 /\ Z.of_nat 2 = 2%Z)).
Proof.
  apply (solve_counts_printed exhaustive size_globals sample_optimiser 2
           heap_empty 40 _ 2%Q 2%nat true).
  vm_compute. reflexivity.
Defined.

Lemma solve_respects_cap_witness :
  (Z.of_nat
     (length (printed
                (fst (solve exhaustive size_globals sample_optimiser 2
                        heap_empty 40))))
   <= 2)%Z.
Proof.
  apply (solve_respects_cap exhaustive size_globals sample_optimiser 2
           heap_empty 40).
  lia.
Defined.

Lemma solve_returns_last_accepted_witness :
  (printed (fst size_session) = [] /\ 2%Q = (-1)%Q)
  \/ exists evs1 m items evs2,
       fst size_session = evs1 ++ EvOptimize m :: EvPrint items :: evs2
       /\ printed evs2 = [] /\ 2%Q = objVal (exhaustive m).
Proof.
  apply (solve_returns_last_accepted exhaustive size_globals sample_optimiser
           100 heap_empty 10 (fst size_session) 2%Q 2%nat false).
  vm_compute. reflexivity.
Defined.

Lemma printed_selection_value_witness :
  exists pre' m,
    firstn 1 (fst size_session) = pre' ++ [EvOptimize m]
    /\ status (exhaustive m) = OPTIMAL
    /\ modelSense m = sense_of crit_size
    /\ (objVal (exhaustive m)
        == selection_value crit_size [cycle_item cycle1; altruist_item alt1])%Q.
Proof.
  apply (printed_selection_value exhaustive size_globals sample_optimiser 100
           heap_empty 10 (fst size_session) (snd size_session) [crit_size]
           crit_size (firstn 1 (fst size_session))
           [cycle_item cycle1; altruist_item alt1]
           (skipn 2 (fst size_session)) exhaustive_reports_objective).
  - vm_compute. reflexivity.
  - reflexivity.
  - reflexivity.
  - vm_compute. reflexivity.
Defined.

Lemma printed_selection_keeps_ranks_witness :
  exists m,
    nth_error (fst two_rank_session) 0 = Some (EvOptimize m)
    /\ status (exhaustive m) = OPTIMAL
    /\ if String.eqb (sense crit_cost) "MAX"
       then (objVal (exhaustive m)
             <= selection_value crit_cost
                  [cycle_item cycle1; altruist_item alt1])%Q
       else (selection_value crit_cost [cycle_item cycle1; altruist_item alt1]
             <= objVal (exhaustive m))%Q.
Proof.
  apply (printed_selection_keeps_ranks exhaustive
           {| g_opt_criteria := Some [crit_cost; crit_size] |}
           sample_optimiser 100 heap_empty 10 (fst two_rank_session)
           (snd two_rank_session) [crit_cost; crit_size] 0 crit_cost
           [cycle_item cycle1; altruist_item alt1] exhaustive_sound).
  - vm_compute. reflexivity.
  - reflexivity.
  - reflexivity.
  - vm_compute. right. right. left. reflexivity.
Defined.

Lemma printed_selection_attains_ranks_witness :
  exists m,
    nth_error (fst two_rank_session) 0 = Some (EvOptimize m)
    /\ status (exhaustive m) = OPTIMAL
    /\ (selection_value crit_cost [cycle_item cycle2; altruist_item alt1]
        == objVal (exhaustive m))%Q.
Proof.
  apply (printed_selection_attains_ranks exhaustive
           {| g_opt_criteria := Some [crit_cost; crit_size] |}
           sample_optimiser 100 heap_empty 10 (fst two_rank_session)
           (snd two_rank_session) [crit_cost; crit_size] 0 crit_cost
           [cycle_item cycle2; altruist_item alt1] exhaustive_sound
           exhaustive_optimal).
  - vm_compute. reflexivity.
  - reflexivity.
  - reflexivity.
  - vm_compute. do 4 right. left. reflexivity.
Defined.


Lemma solve_models_grow_witness :
  exists m0 h',
    _create_vars_and_constraints sample_optimiser Model_new
      (patients (pool sample_optimiser))
      (paired_donors (pool sample_optimiser))
      (altruists (pool sample_optimiser)) heap_empty = Ok (m0, h')
    /\ vars (nth 2 (optimize_calls (fst size_session)) Model_new) = vars m0
    /\ exists extra,
         constrs (nth 2 (optimize_calls (fst size_session)) Model_new)
         = constrs m0 ++ extra
         /\ length extra = 2%nat.
Proof.
  apply (solve_models_grow exhaustive size_globals sample_optimiser 100
           heap_empty 10 2
           (nth 2 (optimize_calls (fst size_session)) Model_new)).
  vm_compute. reflexivity.
Defined.

Lemma solve_raises_only_witness :
  (exists o,
     OptimisationException INTERRUPTED = AttributeError o "mip_vars"
     /\ fst (solve interrupted size_globals sample_optimiser 100 heap_empty 1)
        = []
     /\ In o (candidate_objects sample_optimiser)
     /\ ~ In o (persons (patients (pool sample_optimiser))
                  (paired_donors (pool sample_optimiser))
                  (altruists (pool sample_optimiser)))
     /\ mip_vars heap_empty !! o = None)
  \/ (OptimisationException INTERRUPTED = NameError "opt_criteria"
      /\ fst (solve interrupted size_globals sample_optimiser 100 heap_empty 1)
         = []
      /\ g_opt_criteria size_globals = None)
  \/ (OptimisationException INTERRUPTED = IndexError
      /\ fst (solve interrupted size_globals sample_optimiser 100 heap_empty 1)
         = []
      /\ g_opt_criteria size_globals = Some [])
  \/ (OptimisationException INTERRUPTED = UnboundLocalError "solve_status"
      /\ exists m,
           last (fst (solve interrupted size_globals sample_optimiser 100
                        heap_empty 1)) = Some (EvOptimize m)
           /\ status (interrupted m) <> OPTIMAL)
  \/ (exists m,
        last (fst (solve interrupted size_globals sample_optimiser 100
                     heap_empty 1)) = Some (EvOptimize m)
        /\ OptimisationException INTERRUPTED
           = OptimisationException (status (interrupted m))
        /\ expected_status (status (interrupted m)) = false).
Proof.
  apply (solve_raises_only interrupted size_globals sample_optimiser 100
           heap_empty 1).
  vm_compute. reflexivity.
Defined.

Lemma model_construction_succeeds_iff_witness :
  (exists m' h',
     _create_vars_and_constraints sample_optimiser Model_new
       (patients sample_pool) (paired_donors sample_pool)
       (altruists sample_pool) heap_empty = Ok (m', h'))
  <-> references_pool sample_optimiser (patients sample_pool)
        (paired_donors sample_pool) (altruists sample_pool) = true.
Proof.
  apply (model_construction_succeeds_iff sample_optimiser Model_new
           (patients sample_pool) (paired_donors sample_pool)
           (altruists sample_pool) heap_empty).
  intros o _ _. reflexivity.
Defined.

Lemma solve_empty_criteria_witness :
  solve exhaustive {| g_opt_criteria := Some [] |} sample_optimiser 100
    heap_empty 1
  = ([], Raised IndexError).
Proof.
  apply (solve_empty_criteria exhaustive {| g_opt_criteria := Some [] |}
           sample_optimiser 100 heap_empty 0).
  - reflexivity.
  - reflexivity.
Defined.

Lemma final_rank_not_optimal_witness :
  snd (solve interrupted size_globals sample_optimiser 100 heap_empty 1)
  = Raised (OptimisationException INTERRUPTED)
  /\ printed (fst (solve interrupted size_globals sample_optimiser 100
                     heap_empty 1)) = [].
Proof.
  apply (final_rank_not_optimal interrupted size_globals sample_optimiser 100
           heap_empty 0
           (default Model_new
              (final_rank_model interrupted size_globals sample_optimiser
                 heap_empty))).
  - vm_compute. reflexivity.
  - discriminate.
Defined.

Lemma solve_heap_independent_witness :
  solve exhaustive size_globals sample_optimiser 100 heap_empty 10
  = solve exhaustive size_globals sample_optimiser 100
      {| mip_var := <[4%nat := 9%nat]> ∅;
         mip_vars := <[10%nat := [7%nat]]> ∅ |} 10.
Proof.
  apply (solve_heap_independent exhaustive size_globals sample_optimiser 100
           heap_empty
           {| mip_var := <[4%nat := 9%nat]> ∅;
              mip_vars := <[10%nat := [7%nat]]> ∅ |} 10).
  reflexivity.
Defined.

Lemma printed_selection_uses_person_once_witness :
  selection_appends 10 [cycle_item cycle1; altruist_item alt1] <= 1.
Proof.
  apply (printed_selection_uses_person_once exhaustive size_globals
           sample_optimiser 100 heap_empty 10
           [cycle_item cycle1; altruist_item alt1] 10 exhaustive_sound).
  - vm_compute. right. left. reflexivity.
  - vm_compute. left. reflexivity.
Defined.

Lemma empty_solution_ends_session_witness :
  skipn 2 (fst (solve exhaustive size_globals empty_optimiser 100 heap_empty 1))
  = []
  /\ exists b k r,
       snd (solve exhaustive size_globals empty_optimiser 100 heap_empty 1)
       = Returned b k r.
Proof.
  apply (empty_solution_ends_session exhaustive size_globals empty_optimiser
           100 heap_empty 1
           (fst (solve exhaustive size_globals empty_optimiser 100 heap_empty 1))
           (snd (solve exhaustive size_globals empty_optimiser 100 heap_empty 1))
           (firstn 1
              (fst (solve exhaustive size_globals empty_optimiser 100
                      heap_empty 1)))).
  - vm_compute. reflexivity.
  - vm_compute. reflexivity.
Defined.

Lemma solve_number_of_calls_witness :
  length (optimize_calls (fst two_rank_session))
  = (length [crit_cost; crit_size] - 1 + 2
     + match last (fst two_rank_session) with
       | Some (EvOptimize _) => 1
       | _ => 0
       end)%nat.
Proof.
  apply (solve_number_of_calls exhaustive
           {| g_opt_criteria := Some [crit_cost; crit_size] |}
           sample_optimiser 100 heap_empty 10 (fst two_rank_session)
           [crit_cost; crit_size] 2%Q 2%nat false).
  - vm_compute. reflexivity.
  - reflexivity.
Defined.

Lemma add_var_to_patients_and_donors_effect_witness :
  mip_var (default heap_empty
             (match _add_var_to_patients_and_donors (cycle_pd_pairs cycle1) 2
                      (reset_all [10; 11; 21] heap_empty) with
              | Ok h' => Some h'
              | Raise _ => None
              end))
  = mip_var (reset_all [10; 11; 21] heap_empty)
  /\ forall o,
       mip_vars (default heap_empty
                   (match _add_var_to_patients_and_donors
                            (cycle_pd_pairs cycle1) 2
                            (reset_all [10; 11; 21] heap_empty) with
                    | Ok h' => Some h'
                    | Raise _ => None
                    end)) !! o
       = (fun l => l ++ repeat 2 (appends_to o (cycle_pd_pairs cycle1)))
           <$> (mip_vars (reset_all [10; 11; 21] heap_empty) !! o).
Proof.
  apply (add_var_to_patients_and_donors_effect (cycle_pd_pairs cycle1) 2
           (reset_all [10; 11; 21] heap_empty)).
  vm_compute. reflexivity.
Defined.

Lemma add_var_to_patients_and_donors_fails_witness :
  exists o,
    AttributeError 10 "mip_vars" = AttributeError o "mip_vars"
    /\ mip_vars heap_empty !! o = None
    /\ 1 <= appends_to o (cycle_pd_pairs cycle1).
Proof.
  apply (add_var_to_patients_and_donors_fails (cycle_pd_pairs cycle1) 2
           heap_empty).
  vm_compute. reflexivity.
Defined.
